(** * The kernel: substitution, equality, sharing, environments

    A shallow embedding of [kernel/instantiate.cpp], [kernel/expr_eq.h],
    [kernel/max_sharing.cpp], of the builtin integer values of
    [library/arith], and of the declarations of the metavariable
    environment and of the kernel exceptions.

    Expressions appear twice: as trees ([expr]), where only the structure
    matters (substitution, normalization, typing), and as cells of a store
    ([expr_cell], [store]), where identity, cached hash codes and the
    [max_shared] flag matter (equality test, maximal sharing).  [denote]
    goes from the second to the first.

    C++ [unsigned] values are [N] with the 32-bit wrap-around written out
    ([uadd], [usub]); [mpz] values are [Z].  The parts of the kernel that
    the sources at hand only declare or call are modelled from the
    specification, each under a comment that says so. *)

From Stdlib Require Import String NArith ZArith Bool List Lia.
Import ListNotations.

Set Implicit Arguments.

(** ** Unsigned machine integers *)

Definition UINT_MODULUS : N := 4294967296.
Definition UINT_MAX : N := 4294967295.

Definition wrap (x : N) : N := (x mod UINT_MODULUS)%N.
Definition uadd (a b : N) : N := wrap (a + b).
Definition usub (a b : N) : N := wrap (a + UINT_MODULUS - wrap b).

(** ** Names, levels and values *)

(** Hierarchical names ([a.b.c], and numeric components). *)
Inductive name : Type :=
| anonymous
| mk_string (prefix : name) (s : string)
| mk_numeral (prefix : name) (k : N).

Definition name_eq_dec (a b : name) : {a = b} + {a <> b}.
Proof. decide equality; [apply string_dec | apply N.eq_dec]. Defined.

Definition name_eqb (a b : name) : bool :=
  if name_eq_dec a b then true else false.

Definition Name (s : string) : name := mk_string anonymous s.

(** Modelled from the spec: universe levels ([kernel/level.h] is not among
    the sources); the level forms are [Zero], [Succ], [Max] and [UVar]. *)
Inductive level : Type :=
| Zero
| Succ (l : level)
| Max (l1 l2 : level)
| UVar (n : name).

Definition level_eq_dec (a b : level) : {a = b} + {a <> b}.
Proof. decide equality; apply name_eq_dec. Defined.

Definition level_eqb (a b : level) : bool :=
  if level_eq_dec a b then true else false.

(** The template parameter [F] of [int_bin_op]: one tag per instance. *)
Inductive int_op : Type := OpAdd | OpSub | OpMul | OpDiv.

(** Builtin values of [library/arith]: the [value] subclasses
    [int_type_value], [int_value_value], [int_bin_op<Name,Hash,F>] and
    [int_le_value], and the Boolean values declared in [builtin.h]. *)
Inductive value : Type :=
| int_type_value
| int_value_value (m_val : Z)
| int_bin_op (op : int_op)
| int_le_value
| bool_type_value
| bool_value_value (b : bool).

Definition value_eq_dec (a b : value) : {a = b} + {a <> b}.
Proof. repeat decide equality. Defined.

(** [value::operator==]: same kind, and same payload where there is one. *)
Definition value_eqb (a b : value) : bool :=
  if value_eq_dec a b then true else false.

(** ** Expressions *)

Inductive abst_kind : Type := KLambda | KPi | KSigma.

Definition abst_kind_eqb (a b : abst_kind) : bool :=
  match a, b with
  | KLambda, KLambda | KPi, KPi | KSigma, KSigma => true
  | _, _ => false
  end.

(** Entries of the local context of a metavariable. *)
Inductive local_entry_of (A : Type) : Type :=
| LiftEntry (s n : N)
| InstEntry (s : N) (v : A).

Arguments LiftEntry {A} s n.
Arguments InstEntry {A} s v.

(** The expression kinds of [expr_kind], as trees.  [Lambda], [Pi] and
    [Sigma] share the cell class [expr_abstraction] and differ by kind. *)
Unset Elimination Schemes.
Inductive expr : Type :=
| Var (idx : N)
| Constant (n : name) (ty : option expr)
| Value (v : value)
| TypeE (l : level)
| App (args : list expr)
| HEq (lhs rhs : expr)
| Pair (f s t : expr)
| Proj (first : bool) (arg : expr)
| Abst (k : abst_kind) (n : name) (d b : expr)
| Let (n : name) (ty : option expr) (v b : expr)
| MetaVar (n : name) (lctx : list (local_entry_of expr)).
Set Elimination Schemes.

Abbreviation local_entry := (local_entry_of expr).
Abbreviation Lambda := (Abst KLambda).
Abbreviation Pi := (Abst KPi).
Abbreviation Sigma := (Abst KSigma).

Definition Const (s : string) : expr := Constant (Name s) None.

(** Structural induction that reaches the expressions stored in lists,
    options and local entries. *)
Section ExprInd.
Variable P : expr -> Prop.

Definition entry_holds (le : local_entry) : Prop :=
  match le with
  | LiftEntry _ _ => True
  | InstEntry _ v => P v
  end.

Definition opt_holds (o : option expr) : Prop :=
  match o with
  | None => True
  | Some e => P e
  end.

Hypothesis HVar : forall i, P (Var i).
Hypothesis HConstant : forall n ty, opt_holds ty -> P (Constant n ty).
Hypothesis HValue : forall v, P (Value v).
Hypothesis HType : forall l, P (TypeE l).
Hypothesis HApp : forall args, Forall P args -> P (App args).
Hypothesis HHEq : forall l r, P l -> P r -> P (HEq l r).
Hypothesis HPair : forall f s t, P f -> P s -> P t -> P (Pair f s t).
Hypothesis HProj : forall b a, P a -> P (Proj b a).
Hypothesis HAbst : forall k n d b, P d -> P b -> P (Abst k n d b).
Hypothesis HLet : forall n ty v b, opt_holds ty -> P v -> P b -> P (Let n ty v b).
Hypothesis HMetaVar : forall n lctx, Forall entry_holds lctx -> P (MetaVar n lctx).

Fixpoint expr_rect_nested (e : expr) : P e :=
  match e with
  | Var i => HVar i
  | Constant n ty =>
      HConstant n ty
        (match ty return opt_holds ty with
         | None => I
         | Some t => expr_rect_nested t
         end)
  | Value v => HValue v
  | TypeE l => HType l
  | App args =>
      HApp
        ((fix go (l : list expr) : Forall P l :=
            match l with
            | [] => Forall_nil P
            | x :: r => Forall_cons x (expr_rect_nested x) (go r)
            end) args)
  | HEq l r => HHEq (expr_rect_nested l) (expr_rect_nested r)
  | Pair f s t =>
      HPair (expr_rect_nested f) (expr_rect_nested s) (expr_rect_nested t)
  | Proj b a => HProj b (expr_rect_nested a)
  | Abst k n d b => HAbst k n (expr_rect_nested d) (expr_rect_nested b)
  | Let n ty v b =>
      HLet n ty
        (match ty return opt_holds ty with
         | None => I
         | Some t => expr_rect_nested t
         end)
        (expr_rect_nested v) (expr_rect_nested b)
  | MetaVar n lctx =>
      HMetaVar n
        ((fix go (l : list local_entry) : Forall entry_holds l :=
            match l with
            | [] => Forall_nil entry_holds
            | x :: r =>
                Forall_cons x
                  (match x return entry_holds x with
                   | LiftEntry _ _ => I
                   | InstEntry _ v => expr_rect_nested v
                   end)
                  (go r)
            end) lctx)
  end.
End ExprInd.

(** Kind tests and accessors of [expr.h]. *)
Definition is_var (e : expr) : bool :=
  match e with Var _ => true | _ => false end.
Definition is_metavar (e : expr) : bool :=
  match e with MetaVar _ _ => true | _ => false end.
Definition is_app (e : expr) : bool :=
  match e with App _ => true | _ => false end.
Definition is_lambda (e : expr) : bool :=
  match e with Abst KLambda _ _ _ => true | _ => false end.
Definition is_value (e : expr) : bool :=
  match e with Value _ => true | _ => false end.
Definition mk_var (i : N) : expr := Var i.

(** Modelled from the spec: [kernel/expr.cpp] is not among the sources.
    [mk_app] builds the n-ary application node of its arguments. *)
Definition mk_app (args : list expr) : expr := App args.

(** ** Free variables and lifting *)

(** Modelled from the spec: [kernel/free_vars.cpp] is not among the sources.
    [has_free_var_ge e c] tells whether [e] may have a free variable, that
    is an index [>= c] once the binders crossed are counted.  A
    metavariable stands for a term that is not known yet, so it is counted
    as possibly having one. *)
Fixpoint has_free_var_ge (e : expr) (c : N) : bool :=
  match e with
  | Var i => (c <=? i)%N
  | Constant _ _ | Value _ | TypeE _ => false
  | App args => existsb (fun a => has_free_var_ge a c) args
  | HEq l r => has_free_var_ge l c || has_free_var_ge r c
  | Pair f s t => has_free_var_ge f c || has_free_var_ge s c || has_free_var_ge t c
  | Proj _ a => has_free_var_ge a c
  | Abst _ _ d b => has_free_var_ge d c || has_free_var_ge b (c + 1)
  | Let _ ty v b =>
      match ty with Some t => has_free_var_ge t c | None => false end
      || has_free_var_ge v c || has_free_var_ge b (c + 1)
  | MetaVar _ _ => true
  end.

(** An expression is closed when it has no free variable. *)
Definition closed (e : expr) : bool := negb (has_free_var_ge e 0).

(** Modelled from the spec: [kernel/metavar.cpp] is not among the sources.
    A lift or an instantiation that reaches a metavariable is recorded as
    an entry at the head of its local context. *)
Definition add_lift (m : expr) (s n : N) : expr :=
  match m with
  | MetaVar nm lctx => MetaVar nm (LiftEntry s n :: lctx)
  | _ => m
  end.

(** Modelled from the spec: [add_inst] of [kernel/metavar.cpp], which is
    not among the sources; see [add_lift]. *)
Definition add_inst (m : expr) (s : N) (v : expr) : expr :=
  match m with
  | MetaVar nm lctx => MetaVar nm (InstEntry s v :: lctx)
  | _ => m
  end.

(** Modelled from the spec: [kernel/free_vars.cpp] is not among the sources.
    [lift_free_vars_at e s d] adds [d] to every free [Var i] with [i >= s];
    the cutoff [s] grows by one under each binder. *)
Fixpoint lift_free_vars_at (e : expr) (s d : N) : expr :=
  match e with
  | Var i => if (s <=? i)%N then mk_var (uadd i d) else e
  | Constant _ _ | Value _ | TypeE _ => e
  | App args => mk_app (map (fun a => lift_free_vars_at a s d) args)
  | HEq l r => HEq (lift_free_vars_at l s d) (lift_free_vars_at r s d)
  | Pair f sn t =>
      Pair (lift_free_vars_at f s d) (lift_free_vars_at sn s d)
           (lift_free_vars_at t s d)
  | Proj b a => Proj b (lift_free_vars_at a s d)
  | Abst k n dm b =>
      Abst k n (lift_free_vars_at dm s d) (lift_free_vars_at b (s + 1) d)
  | Let n ty v b =>
      Let n (option_map (fun t => lift_free_vars_at t s d) ty)
          (lift_free_vars_at v s d) (lift_free_vars_at b (s + 1) d)
  | MetaVar _ _ => add_lift e s d
  end.

(** Modelled from the spec: [lift_free_vars(e, d)] of
    [kernel/free_vars.cpp]; lifting by [0] is the identity. *)
Definition lift_free_vars (e : expr) (d : N) : expr :=
  if (d =? 0)%N then e else lift_free_vars_at e 0 d.

(** ** The generic traversal *)

Section Replace.
Variable f : expr -> N -> option expr.

(** Modelled from the spec: [kernel/replace_fn.h] is not among the sources.
    [replace a f] calls [f] on each sub-expression with the number of
    binders crossed ([offset]).  When [f] answers with a new expression
    that one is taken and not visited further; when it hands back its
    argument unchanged (here [None]) the children are visited, the body of
    a binder with [offset + 1]. *)
Fixpoint replace_at (e : expr) (offset : N) : expr :=
  match f e offset with
  | Some r => r
  | None =>
      match e with
      | App args => mk_app (map (fun a => replace_at a offset) args)
      | HEq l r => HEq (replace_at l offset) (replace_at r offset)
      | Pair a b t =>
          Pair (replace_at a offset) (replace_at b offset) (replace_at t offset)
      | Proj b a => Proj b (replace_at a offset)
      | Abst k n d b =>
          Abst k n (replace_at d offset) (replace_at b (uadd offset 1))
      | Let n ty v b =>
          Let n (option_map (fun t => replace_at t offset) ty)
              (replace_at v offset) (replace_at b (uadd offset 1))
      | Var _ | Constant _ _ | Value _ | TypeE _ | MetaVar _ _ => e
      end
  end.

(** Modelled from the spec: [replace(a, f)] starts with no binder
    crossed. *)
Definition replace (a : expr) : expr := replace_at a 0.
End Replace.

(** ** [kernel/instantiate.cpp] *)

(** [subst[k]] for an array handed over as pointer and length.  The index
    computed by [instantiate_core] is always within the array
    ([subst_index_in_range] below). *)
Definition subst_at (subst : list expr) (k : N) : expr :=
  nth (N.to_nat k) subst (Var 0).

(** The loop of [instantiate_core] over a metavariable:
    [for (i = 0; i < n; i++) r = add_inst(r, offset + s + n - i - 1, v)]
    with [v] the entry [subst[i]], lifted by [offset + n - i - 1] in the
    general variant.  [rest] is what is left of the array from [i] on. *)
Fixpoint add_insts (ClosedSubst : bool) (offset s n i : N)
    (rest : list expr) (r : expr) : expr :=
  match rest with
  | [] => r
  | x :: rest' =>
      let v := if ClosedSubst then x
               else lift_free_vars x (usub (usub (uadd offset n) i) 1) in
      add_insts ClosedSubst offset s n (i + 1) rest'
        (add_inst r (usub (usub (uadd (uadd offset s) n) i) 1) v)
  end.

(** The callback that [instantiate_core] hands to [replace]. *)
Definition instantiate_fn (ClosedSubst : bool) (s n : N) (subst : list expr)
    (m : expr) (offset : N) : option expr :=
  match m with
  | Var vidx =>
      if (uadd offset s <=? vidx)%N then
        if (vidx <? uadd (uadd offset s) n)%N then
          let k := usub (usub n (usub (usub vidx s) offset)) 1 in
          if ClosedSubst then Some (subst_at subst k)
          else Some (lift_free_vars (subst_at subst k) offset)
        else Some (mk_var (usub vidx n))
      else None
  | MetaVar _ _ => Some (add_insts ClosedSubst offset s n 0 subst m)
  | _ => None
  end.

(** [instantiate_core<ClosedSubst>(a, s, n, subst, menv)] without a
    metavariable environment; the array [subst] of [n] entries is the list
    [subst], and [n] its length. *)
Definition instantiate_core (ClosedSubst : bool) (a : expr) (s : N)
    (subst : list expr) : expr :=
  replace (instantiate_fn ClosedSubst s (N.of_nat (length subst)) subst) a.

Definition instantiate_with_closed (a : expr) (s : list expr) : expr :=
  instantiate_core true a 0 s.

Definition instantiate_from (a : expr) (s : N) (subst : list expr) : expr :=
  instantiate_core false a s subst.

Definition instantiate (e : expr) (s : list expr) : expr :=
  instantiate_from e 0 s.

Definition is_head_beta (t : expr) : bool :=
  match t with
  | App (f :: _) => is_lambda f
  | _ => false
  end.

Definition abst_body (e : expr) : expr :=
  match e with
  | Abst _ _ _ b => b
  | _ => e
  end.

(** The loop [while (is_lambda(abst_body(f)) && m < num_args)] of
    [apply_beta], started on [body = abst_body(f)]: it returns the body
    reached and the count [m].  [m] stays below [num_args], so [m++] does
    not wrap. *)
Fixpoint beta_loop (body : expr) (m num_args : N) : expr * N :=
  match body with
  | Abst KLambda _ _ b =>
      if (m <? num_args)%N then beta_loop b (m + 1) num_args else (body, m)
  | _ => (body, m)
  end.

(** [apply_beta(f, num_args, args, menv)]; [None] is the failure of
    [lean_assert(m <= num_args)]. *)
Definition apply_beta (f : expr) (args : list expr) : option expr :=
  let num_args := N.of_nat (length args) in
  if negb (is_lambda f) then Some (mk_app (f :: args))
  else
    let '(body, m) := beta_loop (abst_body f) 1 num_args in
    if (m <=? num_args)%N then
      let r := instantiate body (firstn (N.to_nat m) args) in
      if (m =? num_args)%N then Some r
      else Some (mk_app (r :: skipn (N.to_nat m) args))
    else None.

Definition head_beta_reduce (t : expr) : option expr :=
  match t with
  | App (f :: args) => if is_lambda f then apply_beta f args else Some t
  | _ => Some t
  end.

(** ** Instantiation as the specification words it *)

(** What [instantiate] is to do with a variable met under [d] binders:
    a bound variable, or a free one with index below [s], stays; the free
    variable [s + i] with [i < n] becomes [subst[n - 1 - i]] lifted by
    [d]; a free variable from [s + n] on loses [n].  Plain arithmetic. *)
Definition instantiate_var_spec (s : N) (subst : list expr) (d v : N) : expr :=
  let n := N.of_nat (length subst) in
  if (v <? d)%N then Var v
  else
    let j := (v - d)%N in
    if (j <? s)%N then Var v
    else if (j <? s + n)%N then
      lift_free_vars (subst_at subst (n - 1 - (j - s))) d
    else Var (v - n).

(** At a metavariable the substitution is recorded, entry by entry, in its
    local context: entry [i] instantiates the variable [d + s + n - 1 - i]
    with [subst[i]] lifted by [d + n - 1 - i]. *)
Fixpoint record_insts_spec (d s n i : N) (rest : list expr) (r : expr) : expr :=
  match rest with
  | [] => r
  | x :: rest' =>
      record_insts_spec d s n (i + 1) rest'
        (add_inst r (d + s + n - 1 - i) (lift_free_vars x (d + n - 1 - i)))
  end.

Fixpoint instantiate_spec (s : N) (subst : list expr) (d : N) (e : expr) : expr :=
  match e with
  | Var v => instantiate_var_spec s subst d v
  | Constant _ _ | Value _ | TypeE _ => e
  | App args => mk_app (map (instantiate_spec s subst d) args)
  | HEq l r => HEq (instantiate_spec s subst d l) (instantiate_spec s subst d r)
  | Pair a b t =>
      Pair (instantiate_spec s subst d a) (instantiate_spec s subst d b)
           (instantiate_spec s subst d t)
  | Proj b a => Proj b (instantiate_spec s subst d a)
  | Abst k n dm b =>
      Abst k n (instantiate_spec s subst d dm) (instantiate_spec s subst (d + 1) b)
  | Let n ty v b =>
      Let n (option_map (instantiate_spec s subst d) ty)
          (instantiate_spec s subst d v) (instantiate_spec s subst (d + 1) b)
  | MetaVar _ _ => record_insts_spec d s (N.of_nat (length subst)) 0 subst e
  end.

(** The largest number of binders above a node that the traversal visits. *)
Fixpoint binder_depth (e : expr) : N :=
  match e with
  | Var _ | Constant _ _ | Value _ | TypeE _ | MetaVar _ _ => 0
  | App args => fold_right (fun a acc => N.max (binder_depth a) acc) 0%N args
  | HEq l r => N.max (binder_depth l) (binder_depth r)
  | Pair a b t => N.max (binder_depth a) (N.max (binder_depth b) (binder_depth t))
  | Proj _ a => binder_depth a
  | Abst _ _ d b => N.max (binder_depth d) (binder_depth b + 1)
  | Let _ ty v b =>
      N.max (match ty with Some t => binder_depth t | None => 0%N end)
            (N.max (binder_depth v) (binder_depth b + 1))
  end.

(** Every variable index that the traversal visits is an [unsigned] value. *)
Fixpoint indices_ok (e : expr) : bool :=
  match e with
  | Var i => (i <? UINT_MODULUS)%N
  | Constant _ _ | Value _ | TypeE _ | MetaVar _ _ => true
  | App args => forallb indices_ok args
  | HEq l r => indices_ok l && indices_ok r
  | Pair a b t => indices_ok a && indices_ok b && indices_ok t
  | Proj _ a => indices_ok a
  | Abst _ _ d b => indices_ok d && indices_ok b
  | Let _ ty v b =>
      match ty with Some t => indices_ok t | None => true end
      && indices_ok v && indices_ok b
  end.

(** ** Leading lambdas *)

(** The number of lambdas that open [e]. *)
Fixpoint num_lambdas (e : expr) : nat :=
  match e with
  | Abst KLambda _ _ b => S (num_lambdas b)
  | _ => 0
  end.

(** [e] with its first [k] binders taken off. *)
Fixpoint strip_binders (k : nat) (e : expr) : expr :=
  match k with
  | O => e
  | S k' => strip_binders k' (abst_body e)
  end.

(** ** Builtin integers ([library/arith]) *)

Definition mk_int_value (v : Z) : expr := Value (int_value_value v).

Definition is_int_value (e : expr) : bool :=
  match e with
  | Value (int_value_value _) => true
  | _ => false
  end.

(** [int_value_numeral]; its [lean_assert(is_int_value(e))] guards the
    other cases. *)
Definition int_value_numeral (e : expr) : Z :=
  match e with
  | Value (int_value_value v) => v
  | _ => 0%Z
  end.

(** What a call of a [normalize] hook comes to: it returns [true] and
    has set [r], it returns [false], or it does not return at all. *)
Inductive hook_result : Type :=
| hook_true (r : expr)
| hook_false
| hook_fault.

(** [int_bin_op<Name, Hash, F>::normalize(num_args, args, r)].  [F] is
    the evaluator given as template argument; [F v1 v2 = None] says that
    the evaluator does not return on [v1] and [v2], and then neither does
    the hook. *)
Definition int_bin_op_normalize (F : Z -> Z -> option Z) (args : list expr)
  : hook_result :=
  match args with
  | [_; a1; a2] =>
      if is_int_value a1 && is_int_value a2 then
        match F (int_value_numeral a1) (int_value_numeral a2) with
        | Some v => hook_true (mk_int_value v)
        | None => hook_fault
        end
      else hook_false
  | _ => hook_false
  end.

(** The evaluators on [mpz], taken as [Z] ([util/numerics/mpz.h] is not
    among the sources).  [+], [-] and [*] are those of the integers. *)
Definition int_add_eval (v1 v2 : Z) : option Z := Some (v1 + v2)%Z.
Definition int_sub_eval (v1 v2 : Z) : option Z := Some (v1 - v2)%Z.
Definition int_mul_eval (v1 v2 : Z) : option Z := Some (v1 * v2)%Z.

(** [v1 / v2] on [mpz] is the quotient truncated toward zero; there is no
    test of the divisor, and on the divisor [0] the division is a fault
    of the machine that ends the program: no value comes back. *)
Definition int_div_eval (v1 v2 : Z) : option Z :=
  if (v2 =? 0)%Z then None else Some (Z.quot v1 v2).

Definition int_op_eval (op : int_op) : Z -> Z -> option Z :=
  match op with
  | OpAdd => int_add_eval
  | OpSub => int_sub_eval
  | OpMul => int_mul_eval
  | OpDiv => int_div_eval
  end.

(** [value::normalize] of each builtin value: the integer types and
    literals return [false], the binary operators and [<=] reduce. *)
Definition value_normalize (v : value) (args : list expr) : hook_result :=
  match v with
  | int_bin_op op => int_bin_op_normalize (int_op_eval op) args
  | int_le_value =>
      match args with
      | [_; a1; a2] =>
          if is_int_value a1 && is_int_value a2 then
            hook_true (Value (bool_value_value
                                (int_value_numeral a1 <=? int_value_numeral a2)%Z))
          else hook_false
      | _ => hook_false
      end
  | _ => hook_false
  end.

Definition Int : expr := Value int_type_value.
Definition iVal (v : Z) : expr := mk_int_value v.
Definition iAdd (a b : expr) : expr := mk_app [Value (int_bin_op OpAdd); a; b].
Definition iSub (a b : expr) : expr := mk_app [Value (int_bin_op OpSub); a; b].
Definition iMul (a b : expr) : expr := mk_app [Value (int_bin_op OpMul); a; b].
Definition iDiv (a b : expr) : expr := mk_app [Value (int_bin_op OpDiv); a; b].

(** ** Expression cells and the store *)

(** An [expr] of the program is a counted reference to an [expr_cell].
    The store lists the cells in the order of their creation; a pointer is
    the position of its cell.  Cells are immutable but for the
    [max_shared] flag, and a cell is created after its children. *)
Abbreviation ptr := nat.

Inductive node : Type :=
| NVar (idx : N)
| NConstant (n : name) (ty : option ptr)
| NValue (v : value)
| NType (l : level)
| NApp (args : list ptr)
| NHEq (lhs rhs : ptr)
| NPair (f s t : ptr)
| NProj (first : bool) (arg : ptr)
| NAbst (k : abst_kind) (n : name) (d b : ptr)
| NLet (n : name) (ty : option ptr) (v b : ptr)
| NMetaVar (n : name) (lctx : list (local_entry_of ptr)).

Record expr_cell : Type := mk_cell {
  m_node : node;
  m_hash : N;            (* the cached hash code *)
  m_rc : nat;            (* the reference counter *)
  m_max_shared : bool    (* the flag read by [max_shared()] *)
}.

Abbreviation store := (list expr_cell).

Inductive expr_kind : Type :=
| KindVar | KindConstant | KindValue | KindType | KindApp | KindHEq
| KindPair | KindProj | KindAbst (k : abst_kind) | KindLet | KindMetaVar.

Definition kind (n : node) : expr_kind :=
  match n with
  | NVar _ => KindVar
  | NConstant _ _ => KindConstant
  | NValue _ => KindValue
  | NType _ => KindType
  | NApp _ => KindApp
  | NHEq _ _ => KindHEq
  | NPair _ _ _ => KindPair
  | NProj _ _ => KindProj
  | NAbst k _ _ _ => KindAbst k
  | NLet _ _ _ _ => KindLet
  | NMetaVar _ _ => KindMetaVar
  end.

Definition expr_kind_eq_dec (a b : expr_kind) : {a = b} + {a <> b}.
Proof. repeat decide equality. Defined.

Definition expr_kind_eqb (a b : expr_kind) : bool :=
  if expr_kind_eq_dec a b then true else false.

(** [is_shared]: more than one reference.  The counters only decide
    whether a pair of cells goes into the visited set; they are left as
    they are found. *)
Definition is_shared (c : expr_cell) : bool := 1 <? m_rc c.

Definition entry_children (le : local_entry_of ptr) : list ptr :=
  match le with
  | LiftEntry _ _ => []
  | InstEntry _ v => [v]
  end.

Definition opt_children (o : option ptr) : list ptr :=
  match o with
  | Some p => [p]
  | None => []
  end.

Definition node_children (n : node) : list ptr :=
  match n with
  | NVar _ | NValue _ | NType _ => []
  | NConstant _ ty => opt_children ty
  | NApp args => args
  | NHEq l r => [l; r]
  | NPair f s t => [f; s; t]
  | NProj _ a => [a]
  | NAbst _ _ d b => [d; b]
  | NLet _ ty v b => opt_children ty ++ [v; b]
  | NMetaVar _ lctx => flat_map entry_children lctx
  end.

(** Every cell points to cells created before it. *)
Fixpoint wf_cells (base : nat) (cells : list expr_cell) : bool :=
  match cells with
  | [] => true
  | c :: rest =>
      forallb (fun p => p <? base) (node_children (m_node c))
      && wf_cells (S base) rest
  end.

Definition wf_store (h : store) : bool := wf_cells 0 h.

(** *** The tree that a pointer stands for *)

Definition entry_map {A B : Type} (f : A -> B) (le : local_entry_of A)
  : local_entry_of B :=
  match le with
  | LiftEntry s n => LiftEntry s n
  | InstEntry s v => InstEntry s (f v)
  end.

Definition tree_of (ts : list expr) (p : ptr) : expr := nth p ts (Var 0).

Definition build (ts : list expr) (n : node) : expr :=
  match n with
  | NVar i => Var i
  | NConstant nm ty => Constant nm (option_map (tree_of ts) ty)
  | NValue v => Value v
  | NType l => TypeE l
  | NApp args => App (map (tree_of ts) args)
  | NHEq l r => HEq (tree_of ts l) (tree_of ts r)
  | NPair f s t => Pair (tree_of ts f) (tree_of ts s) (tree_of ts t)
  | NProj b a => Proj b (tree_of ts a)
  | NAbst k nm d b => Abst k nm (tree_of ts d) (tree_of ts b)
  | NLet nm ty v b =>
      Let nm (option_map (tree_of ts) ty) (tree_of ts v) (tree_of ts b)
  | NMetaVar nm lctx => MetaVar nm (map (entry_map (tree_of ts)) lctx)
  end.

(** The trees of all cells, oldest first. *)
Fixpoint trees_from (acc : list expr) (cells : list expr_cell) : list expr :=
  match cells with
  | [] => acc
  | c :: rest => trees_from (acc ++ [build acc (m_node c)]) rest
  end.

Definition trees (h : store) : list expr := trees_from [] h.

Definition denote (h : store) (p : ptr) : expr := tree_of (trees h) p.

(** ** Equality of expressions *)

(** What [expr_eq_fn] compares, read off the cases of its [switch] and
    said on trees: of a constant the name only (not the type cached in
    it), of a [Lambda], [Pi] or [Sigma] the kind, the domain and the body
    (not the name), of a [Let] the type, the value and the body (not the
    name); every other component has to agree.  This is the equality that
    the program's [operator==] computes. *)
Fixpoint tree_eqb (a b : expr) : bool :=
  match a, b with
  | Var i, Var j => (i =? j)%N
  | Constant n1 _, Constant n2 _ => name_eqb n1 n2
  | Value v1, Value v2 => value_eqb v1 v2
  | TypeE l1, TypeE l2 => level_eqb l1 l2
  | App as1, App as2 =>
      (fix go (l1 l2 : list expr) : bool :=
         match l1, l2 with
         | [], [] => true
         | x :: r1, y :: r2 => tree_eqb x y && go r1 r2
         | _, _ => false
         end) as1 as2
  | HEq l1 r1, HEq l2 r2 => tree_eqb l1 l2 && tree_eqb r1 r2
  | Pair f1 s1 t1, Pair f2 s2 t2 =>
      tree_eqb f1 f2 && tree_eqb s1 s2 && tree_eqb t1 t2
  | Proj b1 a1, Proj b2 a2 => Bool.eqb b1 b2 && tree_eqb a1 a2
  | Abst k1 _ d1 b1, Abst k2 _ d2 b2 =>
      abst_kind_eqb k1 k2 && tree_eqb d1 d2 && tree_eqb b1 b2
  | Let _ t1 v1 b1, Let _ t2 v2 b2 =>
      match t1, t2 with
      | None, None => true
      | Some x, Some y => tree_eqb x y
      | _, _ => false
      end
      && tree_eqb v1 v2 && tree_eqb b1 b2
  | MetaVar n1 l1, MetaVar n2 l2 =>
      name_eqb n1 n2
      && (fix go (l1 l2 : list local_entry) : bool :=
            match l1, l2 with
            | [], [] => true
            | x :: r1, y :: r2 =>
                match x, y with
                | LiftEntry s1 k1, LiftEntry s2 k2 =>
                    (s1 =? s2)%N && (k1 =? k2)%N
                | InstEntry s1 v1, InstEntry s2 v2 =>
                    (s1 =? s2)%N && tree_eqb v1 v2
                | _, _ => false
                end
                && go r1 r2
            | _, _ => false
            end) l1 l2
  | _, _ => false
  end.

(** The same comparison said without a program: erase what [expr_eq_fn]
    does not look at (the names of the four binders and the cached type
    of a constant), then compare for equality. *)
Fixpoint erase_skipped (e : expr) : expr :=
  match e with
  | Var _ | Value _ | TypeE _ => e
  | Constant n _ => Constant n None
  | App args => App (map erase_skipped args)
  | HEq l r => HEq (erase_skipped l) (erase_skipped r)
  | Pair f s t => Pair (erase_skipped f) (erase_skipped s) (erase_skipped t)
  | Proj b a => Proj b (erase_skipped a)
  | Abst k _ d b => Abst k anonymous (erase_skipped d) (erase_skipped b)
  | Let _ ty v b =>
      Let anonymous (option_map erase_skipped ty) (erase_skipped v) (erase_skipped b)
  | MetaVar n lctx => MetaVar n (map (entry_map erase_skipped) lctx)
  end.

Definition tree_eq (a b : expr) : Prop := erase_skipped a = erase_skipped b.

(** The equality of the specification, word for word: the name hints of
    [Lambda], [Pi] and [Sigma] are ignored and every other component is
    exact.  It is finer than [tree_eq]. *)
Fixpoint erase_abst_names (e : expr) : expr :=
  match e with
  | Var _ | Value _ | TypeE _ => e
  | Constant n ty => Constant n (option_map erase_abst_names ty)
  | App args => App (map erase_abst_names args)
  | HEq l r => HEq (erase_abst_names l) (erase_abst_names r)
  | Pair f s t =>
      Pair (erase_abst_names f) (erase_abst_names s) (erase_abst_names t)
  | Proj b a => Proj b (erase_abst_names a)
  | Abst k _ d b => Abst k anonymous (erase_abst_names d) (erase_abst_names b)
  | Let n ty v b =>
      Let n (option_map erase_abst_names ty) (erase_abst_names v)
          (erase_abst_names b)
  | MetaVar n lctx => MetaVar n (map (entry_map erase_abst_names) lctx)
  end.

Definition hint_eq (a b : expr) : Prop :=
  erase_abst_names a = erase_abst_names b.

(** Cells that stand for trees which [expr_eq_fn] takes for equal carry
    the same cached hash code. *)
Definition hash_ok (h : store) : bool :=
  forallb (fun i =>
    forallb (fun j =>
      match nth_error h i, nth_error h j with
      | Some ci, Some cj =>
          implb (tree_eqb (denote h i) (denote h j))
                (m_hash ci =? m_hash cj)%N
      | _, _ => true
      end) (seq 0 (length h))) (seq 0 (length h)).

(** Comparison of two lists entry by entry. *)
Fixpoint forall2b {A B : Type} (f : A -> B -> bool) (l1 : list A) (l2 : list B)
  : bool :=
  match l1, l2 with
  | [], [] => true
  | x :: r1, y :: r2 => f x y && forall2b f r1 r2
  | _, _ => false
  end.

Definition entry_tree_eqb (x y : local_entry) : bool :=
  match x, y with
  | LiftEntry s1 k1, LiftEntry s2 k2 => (s1 =? s2)%N && (k1 =? k2)%N
  | InstEntry s1 v1, InstEntry s2 v2 => (s1 =? s2)%N && tree_eqb v1 v2
  | _, _ => false
  end.

Definition opt_tree_eqb (x y : option expr) : bool :=
  match x, y with
  | None, None => true
  | Some a, Some b => tree_eqb a b
  | _, _ => false
  end.

(** [hash_ok] as a statement. *)
Definition hash_okP (h : store) : Prop :=
  forall i j ci cj,
    nth_error h i = Some ci ->
    nth_error h j = Some cj ->
    tree_eqb (denote h i) (denote h j) = true ->
    m_hash ci = m_hash cj.

(** ** [kernel/expr_eq.h] *)

(** The set [m_eq_visited] of pairs of cells. *)
Abbreviation visited := (list (ptr * ptr)).

Definition pair_mem (p : ptr * ptr) (V : visited) : bool :=
  existsb (fun q => (fst p =? fst q) && (snd p =? snd q)) V.

(** The answer of a comparison together with the visited set it leaves;
    [None] when the recursion budget of the model is used up or a pointer
    is dangling. *)
Abbreviation eq_result := (option (bool * visited)).

(** [r && k], the set going from one operand to the next. *)
Definition and_then (r : eq_result) (k : visited -> eq_result) : eq_result :=
  match r with
  | Some (true, V) => k V
  | other => other
  end.

(** Modelled from the spec: [operator==] on expressions ([kernel/expr.h]
    is not among the sources) is structural equality; inside [apply] it is
    a comparison by a functional object of its own, so with a visited set
    of its own. *)
Definition fresh_eq (ap : ptr -> ptr -> visited -> eq_result) (x y : ptr)
    (V : visited) : eq_result :=
  match ap x y [] with
  | Some (r, _) => Some (r, V)
  | None => None
  end.

Module expr_eq_fn.
Section WithStore.
Variable UseHash : bool.
Variable h : store.

(** The loop over the arguments of two applications of the same size. *)
Fixpoint apply_args (ap : ptr -> ptr -> visited -> eq_result)
    (l1 l2 : list ptr) (V : visited) : eq_result :=
  match l1, l2 with
  | x :: r1, y :: r2 => and_then (ap x y V) (apply_args ap r1 r2)
  | _, _ => Some (true, V)
  end.

(** [apply(optional<expr> const &, optional<expr> const &)]. *)
Definition apply_opt (ap : ptr -> ptr -> visited -> eq_result)
    (a0 b0 : option ptr) (V : visited) : eq_result :=
  match a0, b0 with
  | None, None => Some (true, V)
  | Some a, Some b => ap a b V
  | _, _ => Some (false, V)
  end.

(** The predicate handed to [compare] for two local entries. *)
Definition apply_entry (ap : ptr -> ptr -> visited -> eq_result)
    (e1 e2 : local_entry_of ptr) (V : visited) : eq_result :=
  match e1, e2 with
  | LiftEntry s1 n1, LiftEntry s2 n2 =>
      if negb (s1 =? s2)%N then Some (false, V) else Some ((n1 =? n2)%N, V)
  | InstEntry s1 v1, InstEntry s2 v2 =>
      if negb (s1 =? s2)%N then Some (false, V) else ap v1 v2 V
  | _, _ => Some (false, V)
  end.

(** Modelled from the spec: [compare(l1, l2, pred)] of [util/list_fn.h]
    is not among the sources.  The lists have the same length and [pred]
    holds of the entries pairwise, from the head on. *)
Fixpoint compare (ap : ptr -> ptr -> visited -> eq_result)
    (l1 l2 : list (local_entry_of ptr)) (V : visited) : eq_result :=
  match l1, l2 with
  | [], [] => Some (true, V)
  | e1 :: r1, e2 :: r2 => and_then (apply_entry ap e1 e2 V) (compare ap r1 r2)
  | _, _ => Some (false, V)
  end.

(** The [switch (a.kind())] of [apply], for two cells of the same kind. *)
Definition apply_switch (ap : ptr -> ptr -> visited -> eq_result)
    (na nb : node) (V : visited) : eq_result :=
  match na, nb with
  | NConstant n1 _, NConstant n2 _ => Some (name_eqb n1 n2, V)
  | NApp as1, NApp as2 =>
      if negb (length as1 =? length as2) then Some (false, V)
      else apply_args ap as1 as2 V
  | NHEq l1 r1, NHEq l2 r2 =>
      and_then (fresh_eq ap l1 l2 V) (fresh_eq ap r1 r2)
  | NPair f1 s1 t1, NPair f2 s2 t2 =>
      and_then (fresh_eq ap f1 f2 V)
        (fun V1 => and_then (fresh_eq ap s1 s2 V1) (fresh_eq ap t1 t2))
  | NProj b1 a1, NProj b2 a2 =>
      if Bool.eqb b1 b2 then fresh_eq ap a1 a2 V else Some (false, V)
  | NAbst _ _ d1 b1, NAbst _ _ d2 b2 =>
      and_then (ap d1 d2 V) (ap b1 b2)
  | NType l1, NType l2 => Some (level_eqb l1 l2, V)
  | NValue v1, NValue v2 => Some (value_eqb v1 v2, V)
  | NLet _ t1 v1 b1, NLet _ t2 v2 b2 =>
      and_then (apply_opt ap t1 t2 V)
        (fun V1 => and_then (ap v1 v2 V1) (ap b1 b2))
  | NMetaVar n1 l1, NMetaVar n2 l2 =>
      if name_eqb n1 n2 then compare ap l1 l2 V else Some (false, V)
  | _, _ => None
  end.

(** [bool apply(expr const & a0, expr const & b0)] with the identity for
    the normalisation [N].  [fuel] bounds the depth of the recursion;
    [check_system] is left out. *)
Fixpoint apply (fuel : nat) (a0 b0 : ptr) (V : visited) : eq_result :=
  match fuel with
  | O => None
  | S fuel' =>
      if a0 =? b0 then Some (true, V)
      else
        match nth_error h a0, nth_error h b0 with
        | Some ca, Some cb =>
            if UseHash && negb (m_hash ca =? m_hash cb)%N then
              Some (false, V)
            else if negb (expr_kind_eqb (kind (m_node ca)) (kind (m_node cb)))
            then Some (false, V)
            else
              match m_node ca with
              | NVar i =>
                  match m_node cb with
                  | NVar j => Some ((i =? j)%N, V)
                  | _ => None
                  end
              | na =>
                  let sh := is_shared ca && is_shared cb in
                  if sh && pair_mem (a0, b0) V then Some (true, V)
                  else
                    apply_switch (apply fuel') na (m_node cb)
                      (if sh then (a0, b0) :: V else V)
              end
        | _, _ => None
        end
  end.

(** [operator()]: a cell is never deeper than its position in the
    store, which so bounds the recursion. *)
Definition expr_eq (a b : ptr) (V : visited) : eq_result :=
  apply (S a) a b V.
End WithStore.
End expr_eq_fn.

(** ** [kernel/max_sharing.cpp] *)

(** [a.raw()->set_max_shared()]: the one mutation of a cell. *)
Fixpoint set_max_shared (h : store) (p : ptr) : store :=
  match h, p with
  | [], _ => []
  | c :: r, O => mk_cell (m_node c) (m_hash c) (m_rc c) true :: r
  | c :: r, S p' => c :: set_max_shared r p'
  end.

(** The local entries [lctx] with the values of the instantiation entries
    replaced, in order, by [cs]. *)
Fixpoint with_entries (lctx : list (local_entry_of ptr)) (cs : list ptr)
  : list (local_entry_of ptr) :=
  match lctx with
  | [] => []
  | LiftEntry s n :: r => LiftEntry s n :: with_entries r cs
  | InstEntry s v :: r =>
      match cs with
      | c :: cs' => InstEntry s c :: with_entries r cs'
      | [] => InstEntry s v :: with_entries r []
      end
  end.

(** The node [n] with its children replaced, in order, by [cs]. *)
Definition with_children (n : node) (cs : list ptr) : node :=
  match n, cs with
  | NConstant nm (Some _), [t] => NConstant nm (Some t)
  | NApp _, _ => NApp cs
  | NHEq _ _, [l; r] => NHEq l r
  | NPair _ _ _, [f; s; t] => NPair f s t
  | NProj b _, [a] => NProj b a
  | NAbst k nm _ _, [d; b] => NAbst k nm d b
  | NLet nm (Some _) _ _, [t; v; b] => NLet nm (Some t) v b
  | NLet nm None _ _, [v; b] => NLet nm None v b
  | NMetaVar nm lctx, _ => NMetaVar nm (with_entries lctx cs)
  | _, _ => n
  end.

Module max_sharing_fn.

(** The state that [imp::apply] works on: the cells (for the flags set
    and the cells created) and the set [m_cache]. *)
Abbreviation imp := (store * list ptr)%type.

(** [expr_hash] and [std::equal_to<expr>] of the cache: same hash code
    and equal by [operator==]. *)
Definition cache_eq (h : store) (c a : ptr) : bool :=
  match nth_error h c, nth_error h a with
  | Some cc, Some ca =>
      (m_hash cc =? m_hash ca)%N
      && match expr_eq_fn.expr_eq true h c a [] with
         | Some (true, _) => true
         | _ => false
         end
  | _, _ => false
  end.

Definition cache_find (st : imp) (a : ptr) : option ptr :=
  find (fun c => cache_eq (fst st) c a) (snd st).

(** [m_cache.insert(a)] adds [a] unless an equal element is there. *)
Definition cache_insert (st : imp) (a : ptr) : imp :=
  match cache_find st a with
  | Some _ => st
  | None => (fst st, a :: snd st)
  end.

(** [void cache(expr const & a)]. *)
Definition cache (st : imp) (a : ptr) : imp :=
  cache_insert (set_max_shared (fst st) a, snd st) a.

(** [apply] on the children of a cell, one after the other. *)
Fixpoint apply_list (ap : ptr -> imp -> option (ptr * imp))
    (cs : list ptr) (st : imp) : option (list ptr * imp) :=
  match cs with
  | [] => Some ([], st)
  | c :: r =>
      match ap c st with
      | None => None
      | Some (c', st1) =>
          match apply_list ap r st1 with
          | None => None
          | Some (r', st2) => Some (c' :: r', st2)
          end
      end
  end.

(** Modelled from the spec: the [update_const], [update_heq],
    [update_pair], [update_proj], [update_app], [update_abst],
    [update_let] and [update_metavar] of [kernel/expr.h] are not among
    the sources.  Each hands back the cell itself when every new child is
    the old one (the same pointer) and otherwise a new cell of the same
    kind and payload with the new children.  The hash code of a cell is
    computed from its kind, its payload and the hash codes of its
    children; the new children are equal to the old ones for the
    program and so of the same hash codes, and the new cell carries the
    hash code of the old one. *)
Definition update (a : ptr) (ca : expr_cell) (cs' : list ptr) (st : imp)
  : ptr * imp :=
  if forall2b Nat.eqb cs' (node_children (m_node ca)) then (a, st)
  else
    (length (fst st),
     (fst st ++ [mk_cell (with_children (m_node ca) cs') (m_hash ca) 1 false],
      snd st)).

(** [expr apply(expr const & a)].  Every case of the [switch] applies
    [apply] to the children of the cell (none for [Var], [Type] and
    [Value]; the cached type of a [Constant]; the values of the
    instantiation entries of a [MetaVar]) and hands the results to the
    [update_*] of the kind. *)
Fixpoint apply (fuel : nat) (a : ptr) (st : imp) : option (ptr * imp) :=
  match fuel with
  | O => None
  | S fuel' =>
      match cache_find st a with
      | Some r => Some (r, st)
      | None =>
          match nth_error (fst st) a with
          | None => None
          | Some ca =>
              if m_max_shared ca then Some (a, cache_insert st a)
              else
                match apply_list (apply fuel') (node_children (m_node ca)) st
                with
                | None => None
                | Some (cs', st') =>
                    let (res, st'') := update a ca cs' st' in
                    Some (res, cache st'' res)
                end
          end
      end
  end.
End max_sharing_fn.

(** [expr max_sharing(expr const & a)]: a fresh [imp], so an empty cache.
    The result is the pointer returned and the store left behind. *)
Definition max_sharing (h : store) (a : ptr) : option (ptr * store) :=
  match nth_error h a with
  | None => None
  | Some ca =>
      if m_max_shared ca then Some (a, h)
      else
        match max_sharing_fn.apply (S a) a (h, []) with
        | Some (r, st) => Some (r, fst st)
        | None => None
        end
  end.

(** ** Statements about the equality test *)

(** The two cells stand for trees that are equal by [tree_eqb]. *)
Definition aeq (h : store) (x y : ptr) : bool :=
  tree_eqb (denote h x) (denote h y).

Definition entry_aeq (h : store) (x y : local_entry_of ptr) : bool :=
  entry_tree_eqb (entry_map (denote h) x) (entry_map (denote h) y).

Definition opt_aeq (h : store) (x y : option ptr) : bool :=
  opt_tree_eqb (option_map (denote h) x) (option_map (denote h) y).

(** The pairs of the visited set whose first cell lies at or below [k]
    (below [k]) are pairs of equal cells. *)
Definition inv_le (h : store) (V : visited) (k : nat) : Prop :=
  forall x y, In (x, y) V -> x <= k -> aeq h x y = true.
Definition inv_lt (h : store) (V : visited) (k : nat) : Prop :=
  forall x y, In (x, y) V -> x < k -> aeq h x y = true.

(** [V'] adds to [V] only pairs of equal cells at or below [k]
    (below [k]). *)
Definition ext_le (h : store) (V V' : visited) (k : nat) : Prop :=
  forall x y, In (x, y) V' -> In (x, y) V \/ (x <= k /\ aeq h x y = true).
Definition ext_lt (h : store) (V V' : visited) (k : nat) : Prop :=
  forall x y, In (x, y) V' -> In (x, y) V \/ (x < k /\ aeq h x y = true).

(** The comparison [res] ends with the answer [expected]. *)
Definition answers (h : store) (res : eq_result) (expected : bool)
    (V : visited) (k : nat) : Prop :=
  exists V', res = Some (expected, V') /\ (expected = true -> ext_lt h V V' k).

(** [ap] compares rightly every cell below [a]. *)
Definition child_ok (h : store) (ap : ptr -> ptr -> visited -> eq_result)
    (a : nat) : Prop :=
  forall c d V, c < a -> d < length h -> inv_lt h V a ->
                answers h (ap c d V) (aeq h c d) V a.

(** A store with shared cells: the identity on [Int] under two binder
    names (cells 3 and 4), and applications of the two.
      0: Int   1: #0   2: (#0 #0)   3: fun x : Int => (#0 #0)
      4: fun y : Int => (#0 #0)   5: (3 3)   6: (4 4)   7: (3 4) *)
Definition example_store : store :=
  [ mk_cell (NValue int_type_value) 41 4 false;
    mk_cell (NVar 0) 0 3 false;
    mk_cell (NApp [1; 1]) 5 2 false;
    mk_cell (NAbst KLambda (Name "x") 0 2) 9 2 false;
    mk_cell (NAbst KLambda (Name "y") 0 2) 9 2 false;
    mk_cell (NApp [3; 3]) 11 1 false;
    mk_cell (NApp [4; 4]) 11 1 false;
    mk_cell (NApp [3; 4]) 11 1 false ].

(** Every pair of the visited set is a pair of equal cells: so it is
    with the empty set and with the set left by comparisons that have
    answered [true]. *)
Definition visited_ok (h : store) (V : visited) : Prop :=
  forall x y, In (x, y) V -> aeq h x y = true.

(** A store with cells that differ only in what [expr_eq_fn] does not
    look at: the constant [c] without and with a cached type (cells 1 and
    2), and a [let] under two names (cells 5 and 6).
      0: Int   1: c   2: c (cached type: Int)   3: (c c)   4: #0
      5: let x := Int in #0   6: let y := Int in #0 *)
Definition hints_store : store :=
  [ mk_cell (NValue int_type_value) 41 4 false;
    mk_cell (NConstant (Name "c") None) 7 2 false;
    mk_cell (NConstant (Name "c") (Some 0)) 7 2 false;
    mk_cell (NApp [1; 2]) 11 1 false;
    mk_cell (NVar 0) 0 3 false;
    mk_cell (NLet (Name "x") None 0 4) 13 2 false;
    mk_cell (NLet (Name "y") None 0 4) 13 2 false ].

(** A store with two shared applications that differ in their argument;
    the constants [a] and [b] happen to have the same hash code.
      0: f   1: a   2: b   3: (f a)   4: (f b) *)
Definition reuse_store : store :=
  [ mk_cell (NConstant (Name "f") None) 3 3 false;
    mk_cell (NConstant (Name "a") None) 5 2 false;
    mk_cell (NConstant (Name "b") None) 5 2 false;
    mk_cell (NApp [0; 1]) 9 2 false;
    mk_cell (NApp [0; 2]) 9 2 false ].

(** ** Statements about maximal sharing *)

(** What a cell is but for its flag and its counter. *)
Definition skel (h : store) : list (node * N) :=
  map (fun c => (m_node c, m_hash c)) h.

(** [h'] has the cells of [h], then maybe more, and every flag set in [h]
    is set in [h']. *)
Definition extends (h h' : store) : Prop :=
  (exists more, skel h' = skel h ++ more)
  /\ (forall p c, nth_error h p = Some c -> m_max_shared c = true ->
                  exists c', nth_error h' p = Some c' /\ m_max_shared c' = true).

(** The state of [imp]: a well-formed store with consistent hash codes and
    a cache of flagged cells. *)
Definition inv (st : max_sharing_fn.imp) : Prop :=
  wf_store (fst st) = true
  /\ hash_okP (fst st)
  /\ (forall c, In c (snd st) ->
        exists cc, nth_error (fst st) c = Some cc /\ m_max_shared cc = true).

(** What one call of [apply] on [a] in state [st] is to deliver. *)
Definition shares (a : ptr) (st : max_sharing_fn.imp)
    (res : option (ptr * max_sharing_fn.imp)) : Prop :=
  exists r st',
    res = Some (r, st')
    /\ inv st'
    /\ extends (fst st) (fst st')
    /\ (exists cr, nth_error (fst st') r = Some cr /\ m_max_shared cr = true)
    /\ tree_eqb (denote (fst st') r) (denote (fst st) a) = true.

(** ** The environment, the normalizer and the type checker *)

(** The kernel exceptions of [kernel_exception.h], with the data they
    carry but for the environment and the context.  [max_steps_exceeded]
    is the step budget of the specification, [not_modelled] marks what the
    specification leaves out: the expression kinds without rules, and a
    builtin whose [normalize] hook does not return. *)
Inductive kernel_exception : Type :=
| unknown_universe_variable_exception (n : name)
| unknown_object_exception (n : name)
| already_declared_universe_exception (n : name)
| already_declared_object_exception (n : name)
| read_only_environment_exception
| app_type_mismatch_exception (app : expr) (pos : nat) (expected given : expr)
| function_expected_exception (e : expr)
| type_expected_exception (e : expr)
| def_type_mismatch_exception (n : name) (ty v vty : expr)
| max_steps_exceeded
| not_modelled.

Inductive result (A : Type) : Type :=
| Ok (a : A)
| Err (ex : kernel_exception).

Arguments Ok {A} a.
Arguments Err {A} ex.

Definition bind {A B : Type} (r : result A) (k : A -> result B) : result B :=
  match r with
  | Ok a => k a
  | Err ex => Err ex
  end.

Notation "'do' x <- r ; k" := (bind r (fun x => k))
  (at level 10, x name, r at level 100, k at level 200).

(** Modelled from the spec: the environment objects ([kernel/object.h] is
    not among the sources). *)
Inductive object : Type :=
| UVarConstraint (n : name) (bound : level)
| Postulate (n : name) (ty : expr)
| DefinitionObj (n : name) (ty : expr) (v : expr) (opaque : bool)
| Builtin (n : name) (v : value)
| Neutral (payload : string).

Definition object_name (o : object) : option name :=
  match o with
  | UVarConstraint _ _ | Neutral _ => None
  | Postulate n _ | DefinitionObj n _ _ _ | Builtin n _ => Some n
  end.

(** Modelled from the spec: [find_object] over the objects that an
    environment sees, its own first and then those of its ancestors. *)
Fixpoint find_object (objs : list object) (n : name) : option object :=
  match objs with
  | [] => None
  | o :: rest =>
      match object_name o with
      | Some m => if name_eqb m n then Some o else find_object rest n
      | None => find_object rest n
      end
  end.

(** Modelled from the spec: the bound under which a universe variable
    was declared. *)
Fixpoint find_uvar (objs : list object) (n : name) : option level :=
  match objs with
  | [] => None
  | UVarConstraint m b :: rest =>
      if name_eqb m n then Some b else find_uvar rest n
  | _ :: rest => find_uvar rest n
  end.

(** Modelled from the spec: [is_ge(l1, l2)], the order on levels that the
    constraints [u >= bound] of the universe variables generate. *)
Fixpoint is_ge (objs : list object) (fuel : nat) (l1 l2 : level) : bool :=
  match fuel with
  | O => false
  | S fuel' =>
      match l2 with
      | Zero => true
      | Max a b => is_ge objs fuel' l1 a && is_ge objs fuel' l1 b
      | _ =>
          level_eqb l1 l2
          || match l1 with
             | Zero => false
             | Succ a =>
                 match l2 with
                 | Succ b => is_ge objs fuel' a b
                 | _ => is_ge objs fuel' a l2
                 end
             | Max a b => is_ge objs fuel' a l2 || is_ge objs fuel' b l2
             | UVar u =>
                 match find_uvar objs u with
                 | Some bound => is_ge objs fuel' bound l2
                 | None => false
                 end
             end
      end
  end.

(** The step budget of the model. *)
Definition max_steps : nat := 64.

(** Modelled from the spec: [normalize(e)] ([kernel/normalizer.cpp] is not
    among the sources).  A constant that names a definition which is not
    opaque is unfolded, a constant that names nothing is an error; an
    application is reduced by beta when its head is a lambda and by the
    [normalize] hook when its head is a value; a [Let] is instantiated.
    Where the hook does not return the normalizer has no result either,
    which the model reports as [not_modelled]. *)
Fixpoint normalize_fuel (objs : list object) (fuel : nat) (e : expr)
  : result expr :=
  match fuel with
  | O => Err max_steps_exceeded
  | S fuel' =>
      let norm := normalize_fuel objs fuel' in
      let fix norm_list (l : list expr) : result (list expr) :=
        match l with
        | [] => Ok []
        | x :: r =>
            do x' <- norm x; do r' <- norm_list r; Ok (x' :: r')
        end in
      match e with
      | Var _ | TypeE _ | Value _ | MetaVar _ _ => Ok e
      | Constant n _ =>
          match find_object objs n with
          | None => Err (unknown_object_exception n)
          | Some (DefinitionObj _ _ v false) => norm v
          | Some _ => Ok e
          end
      | App [] => Ok e
      | App (f :: args) =>
          do f' <- norm f;
          do args' <- norm_list args;
          match f' with
          | Abst KLambda _ _ _ =>
              match apply_beta f' args' with
              | Some r => norm r
              | None => Ok (mk_app (f' :: args'))
              end
          | Value v =>
              match value_normalize v (f' :: args') with
              | hook_true r => Ok r
              | hook_false => Ok (mk_app (f' :: args'))
              | hook_fault => Err not_modelled
              end
          | _ => Ok (mk_app (f' :: args'))
          end
      | HEq l r => do l' <- norm l; do r' <- norm r; Ok (HEq l' r')
      | Pair a b t =>
          do a' <- norm a; do b' <- norm b; do t' <- norm t; Ok (Pair a' b' t')
      | Proj first a =>
          do a' <- norm a;
          match a' with
          | Pair x y _ => Ok (if first then x else y)
          | _ => Ok (Proj first a')
          end
      | Abst k n d b => do d' <- norm d; do b' <- norm b; Ok (Abst k n d' b')
      | Let _ _ v b => do v' <- norm v; norm (instantiate b [v'])
      end
  end.

(** Modelled from the spec: [normalize(e, env)] within the step budget. *)
Definition normalize (objs : list object) (e : expr) : result expr :=
  normalize_fuel objs max_steps e.

(** Modelled from the spec: [is_convertible(given, expected)] compares the
    normal forms; a sort is below a sort when the levels are in order, and
    the order goes through the codomain of a [Pi]. *)
Fixpoint convertible_nf (objs : list object) (given expected : expr) : bool :=
  match given, expected with
  | TypeE u, TypeE v => is_ge objs max_steps v u
  | Abst KPi _ d1 b1, Abst KPi _ d2 b2 =>
      tree_eqb d1 d2 && convertible_nf objs b1 b2
  | _, _ => tree_eqb given expected
  end.

(** Modelled from the spec: [is_convertible] on expressions that are yet
    to be normalized. *)
Definition is_convertible (objs : list object) (given expected : expr)
  : result bool :=
  do g <- normalize objs given;
  do x <- normalize objs expected;
  Ok (convertible_nf objs g x).

(** [value::get_type()] of the builtin values. *)
Definition arrow (a b : expr) : expr := Pi (Name "_") a b.
Definition BoolT : expr := Value bool_type_value.

Definition value_get_type (v : value) : expr :=
  match v with
  | int_type_value => TypeE Zero
  | int_value_value _ => Int
  | int_bin_op _ => arrow Int (arrow Int Int)
  | int_le_value => arrow Int (arrow Int BoolT)
  | bool_type_value => TypeE Zero
  | bool_value_value _ => BoolT
  end.

(** The type that an object gives to its name. *)
Definition object_type (o : object) : option expr :=
  match o with
  | Postulate _ ty | DefinitionObj _ ty _ _ => Some ty
  | Builtin _ v => Some (value_get_type v)
  | UVarConstraint _ _ | Neutral _ => None
  end.

(** Modelled from the spec: [infer(e, ctx)] ([kernel/type_checker.cpp] is not
    among the sources); [ctx] lists the domains of the binders crossed,
    the innermost first. *)
Fixpoint infer_fuel (objs : list object) (fuel : nat) (ctx : list expr)
    (e : expr) : result expr :=
  match fuel with
  | O => Err max_steps_exceeded
  | S fuel' =>
      let infer := infer_fuel objs fuel' in
      let fix infer_args (app : expr) (pos : nat) (t : expr) (args : list expr)
        : result expr :=
        match args with
        | [] => Ok t
        | a :: rest =>
            do t' <- normalize objs t;
            match t' with
            | Abst KPi _ dom body =>
                do given <- infer ctx a;
                do ok <- is_convertible objs given dom;
                if ok then infer_args app (S pos) (instantiate body [a]) rest
                else Err (app_type_mismatch_exception app pos dom given)
            | _ => Err (function_expected_exception app)
            end
        end in
      let sort_of (t : expr) : result level :=
        do ty <- infer ctx t;
        do ty' <- normalize objs ty;
        match ty' with
        | TypeE l => Ok l
        | _ => Err (type_expected_exception t)
        end in
      match e with
      | Var i =>
          match nth_error ctx (N.to_nat i) with
          | Some ty => Ok (lift_free_vars ty (i + 1))
          | None => Err not_modelled
          end
      | Constant n _ =>
          match find_object objs n with
          | Some o =>
              match object_type o with
              | Some ty => Ok ty
              | None => Err (unknown_object_exception n)
              end
          | None => Err (unknown_object_exception n)
          end
      | TypeE u => Ok (TypeE (Succ u))
      | Value v => Ok (value_get_type v)
      | App [] => Err not_modelled
      | App (f :: args) => do t <- infer ctx f; infer_args e 1 t args
      | Abst KLambda n d b =>
          do _ <- sort_of d;
          do tb <- infer (d :: ctx) b;
          Ok (Pi n d tb)
      | Abst KPi _ d b =>
          do u <- sort_of d;
          do tb <- infer (d :: ctx) b;
          do tb' <- normalize objs tb;
          match tb' with
          | TypeE v => Ok (TypeE (Max u v))
          | _ => Err (type_expected_exception b)
          end
      | _ => Err not_modelled
      end
  end.

(** Modelled from the spec: [infer_type(e, env)], in the empty context. *)
Definition infer_type (objs : list object) (e : expr) : result expr :=
  infer_fuel objs max_steps [] e.

(** *** Environments *)

(** Modelled from the spec: an environment is a cell with its objects, its
    parent and the count of its living children
    ([kernel/environment.cpp] is not among the sources).  The cells live
    in a table; an [environment] of the program is a position in it. *)
Record env_cell : Type := mk_env {
  m_parent : option nat;
  m_num_children : nat;
  m_objects : list object   (* the latest first *)
}.

Abbreviation environments := (list env_cell).

Definition empty_env : env_cell := mk_env None 0 [].

(** The table with the cell [e] changed by [f]. *)
Fixpoint update_cell (s : environments) (e : nat) (f : env_cell -> env_cell)
  : environments :=
  match s, e with
  | [], _ => []
  | c :: r, O => f c :: r
  | c :: r, S e' => c :: update_cell r e' f
  end.

(** Modelled from the spec: [has_children()] and [has_parent()]. *)
Definition has_children (s : environments) (e : nat) : bool :=
  match nth_error s e with
  | Some c => 0 <? m_num_children c
  | None => false
  end.

Definition has_parent (s : environments) (e : nat) : bool :=
  match nth_error s e with
  | Some c => match m_parent c with Some _ => true | None => false end
  | None => false
  end.

(** Modelled from the spec: the objects that [e] sees, its own and then
    those of its ancestors. *)
Fixpoint visible_fuel (s : environments) (fuel : nat) (e : nat) : list object :=
  match fuel with
  | O => []
  | S fuel' =>
      match nth_error s e with
      | None => []
      | Some c =>
          m_objects c
          ++ match m_parent c with
             | Some p => visible_fuel s fuel' p
             | None => []
             end
      end
  end.

(** Modelled from the spec: a cell comes after its ancestors, so its
    position bounds the length of the chain. *)
Definition visible (s : environments) (e : nat) : list object :=
  visible_fuel s (S e) e.

(** Modelled from the spec: [mk_child()]; the parent counts one child
    more, the child is a new cell. *)
Definition mk_child (s : environments) (e : nat) : environments * nat :=
  (update_cell s e (fun c => mk_env (m_parent c) (S (m_num_children c)) (m_objects c))
   ++ [mk_env (Some e) 0 []],
   length s).

(** Modelled from the spec: the end of the life of the child [c]; its
    parent counts one child less. *)
Definition drop_child (s : environments) (c : nat) : environments :=
  match nth_error s c with
  | Some cc =>
      match m_parent cc with
      | Some p =>
          update_cell s p
            (fun pc => mk_env (m_parent pc) (pred (m_num_children pc)) (m_objects pc))
      | None => s
      end
  | None => s
  end.

(** Modelled from the spec: the insertion of an object, and the checks
    that come before it: no living child, a name that is new, a type that
    is a type. *)
Definition add_object (s : environments) (e : nat) (o : object) : environments :=
  update_cell s e (fun c => mk_env (m_parent c) (m_num_children c) (o :: m_objects c)).

Definition check_no_children (s : environments) (e : nat) : result unit :=
  if has_children s e then Err read_only_environment_exception else Ok tt.

Definition check_name (s : environments) (e : nat) (n : name) : result unit :=
  match find_object (visible s e) n with
  | Some _ => Err (already_declared_object_exception n)
  | None => Ok tt
  end.

Definition check_is_type (s : environments) (e : nat) (t : expr) : result unit :=
  do ty <- infer_type (visible s e) t;
  do ty' <- normalize (visible s e) ty;
  match ty' with
  | TypeE _ => Ok tt
  | _ => Err (type_expected_exception t)
  end.

(** Modelled from the spec: [add_var], [add_definition] and
    [define_uvar]. *)
Definition add_var (s : environments) (e : nat) (n : name) (t : expr)
  : result environments :=
  do _ <- check_no_children s e;
  do _ <- check_name s e n;
  do _ <- check_is_type s e t;
  Ok (add_object s e (Postulate n t)).

Definition add_definition (s : environments) (e : nat) (n : name)
    (t v : expr) (opaque : bool) : result environments :=
  do _ <- check_no_children s e;
  do _ <- check_name s e n;
  do _ <- check_is_type s e t;
  do vt <- infer_type (visible s e) v;
  do ok <- is_convertible (visible s e) vt t;
  if ok then Ok (add_object s e (DefinitionObj n t v opaque))
  else Err (def_type_mismatch_exception n t v vt).

Definition define_uvar (s : environments) (e : nat) (n : name) (bound : level)
  : result environments :=
  do _ <- check_no_children s e;
  match find_uvar (visible s e) n with
  | Some _ => Err (already_declared_universe_exception n)
  | None => Ok (add_object s e (UVarConstraint n bound))
  end.

(** The scenarios of [tests/kernel/environment.cpp]. *)
Definition env_ab : result environments :=
  do s1 <- add_definition [empty_env] 0 (Name "a") Int (iAdd (iVal 1) (iVal 2)) false;
  add_definition s1 0 (Name "b") Int (iMul (iVal 2) (Const "a")) false.


Definition env_uw : result environments :=
  do s1 <- define_uvar [empty_env] 0 (Name "u") (Succ Zero);
  do s2 <- define_uvar s1 0 (Name "w") (Succ (UVar (Name "u")));
  add_var s2 0 (Name "f")
    (arrow (TypeE (UVar (Name "u"))) (TypeE (UVar (Name "u")))).

(** Every cell has its parent before it. *)
Fixpoint wf_envs_from (base : nat) (s : environments) : bool :=
  match s with
  | [] => true
  | c :: rest =>
      match m_parent c with
      | Some p => p <? base
      | None => true
      end && wf_envs_from (S base) rest
  end.

Definition wf_envs (s : environments) : bool := wf_envs_from 0 s.

Definition is_ok {A : Type} (r : result A) : bool :=
  match r with
  | Ok _ => true
  | Err _ => false
  end.


(** The environment of [tst1] once [u] is declared. *)
Definition env_u : environments :=
  [mk_env None 0 [UVarConstraint (Name "u") (Succ Zero)]].

(** ** The metavariable environment ([metavar.h]) *)

(** Modelled from the spec: [expr mk_metavar(unsigned idx)] and
    [metavar_idx], which the header declares: the metavariable with index
    [idx], named by its index. *)
Definition metavar_prefix : name := mk_string (mk_string anonymous "library") "metavar".

Definition mk_metavar_idx (idx : nat) : expr :=
  MetaVar (mk_numeral metavar_prefix (N.of_nat idx)) [].

Definition is_metavar_idx (idx : nat) (n : name) : bool :=
  name_eqb n (mk_numeral metavar_prefix (N.of_nat idx)).

(** The metavariable [idx] occurs in [e]. *)
Fixpoint occurs (idx : nat) (e : expr) : bool :=
  match e with
  | Var _ | Value _ | TypeE _ => false
  | Constant _ ty => match ty with Some t => occurs idx t | None => false end
  | App args => existsb (occurs idx) args
  | HEq l r => occurs idx l || occurs idx r
  | Pair f s t => occurs idx f || occurs idx s || occurs idx t
  | Proj _ a => occurs idx a
  | Abst _ _ d b => occurs idx d || occurs idx b
  | Let _ ty v b =>
      match ty with Some t => occurs idx t | None => false end
      || occurs idx v || occurs idx b
  | MetaVar n lctx =>
      is_metavar_idx idx n
      || existsb (fun le => match le with
                            | LiftEntry _ _ => false
                            | InstEntry _ v => occurs idx v
                            end) lctx
  end.

(** A context: the binders in scope, the outermost first, each with its
    name and its type. *)
Abbreviation context := (list (name * expr)).

Definition occurs_ctx (idx : nat) (ctx : context) : bool :=
  existsb (fun entry => occurs idx (snd entry)) ctx.

(** [ctx1] is the beginning of [ctx2]. *)
Definition is_prefix (ctx1 ctx2 : context) : Prop :=
  exists rest, ctx2 = ctx1 ++ rest.

Module metavar_env.

Inductive state : Type := Unprocessed | Processing | Processed.

(** [struct cell] of the header; [m_expr] is the assignment, if any. *)
Record cell : Type := mk_cell {
  m_expr : option expr;
  m_context : context;
  m_find : nat;
  m_rank : nat;
  m_state : state
}.

(** [std::vector<cell> m_cells]. *)
Abbreviation t := (list cell).

(** Modelled from the spec: [mk_metavar(ctx)] pushes the cell
    [(None, ctx, find = self, rank = 0, Unprocessed)] and returns the
    metavariable of its index ([metavar.cpp] is not among the sources). *)
Definition mk_metavar (menv : t) (ctx : context) : t * expr :=
  (menv ++ [mk_cell None ctx (length menv) 0 Unprocessed],
   mk_metavar_idx (length menv)).

(** The cells with the cell [i] changed by [f]. *)
Fixpoint update (menv : t) (i : nat) (f : cell -> cell) : t :=
  match menv, i with
  | [], _ => []
  | c :: r, O => f c :: r
  | c :: r, S i' => c :: update r i' f
  end.

(** Modelled from the spec: [root_midx] follows the [find] links. *)
Fixpoint root_midx_fuel (menv : t) (fuel : nat) (midx : nat) : nat :=
  match fuel with
  | O => midx
  | S fuel' =>
      match nth_error menv midx with
      | Some c => if m_find c =? midx then midx
                  else root_midx_fuel menv fuel' (m_find c)
      | None => midx
      end
  end.

Definition root_midx (menv : t) (midx : nat) : nat :=
  root_midx_fuel menv (length menv) midx.

(** Modelled from the spec: [assign_term] records the assignment at the
    cell. *)
Definition assign_term (menv : t) (r : nat) (s : expr) : t :=
  update menv r
    (fun c => mk_cell (Some s) (m_context c) (m_find c) (m_rank c) Processed).

(** Modelled from the spec: [assign(?m, s)]: the root of [?m] is looked
    up, [s] must not mention it, [s] must have no free variable beyond
    the context of the root; then the assignment is recorded at the
    root.  [None] is the failure. *)
Definition assign (menv : t) (midx : nat) (s : expr) : option t :=
  let r := root_midx menv midx in
  match nth_error menv r with
  | None => None
  | Some c =>
      if occurs r s then None
      else if has_free_var_ge s (N.of_nat (length (m_context c))) then None
      else Some (assign_term menv r s)
  end.

(** Modelled from the spec: the union of two classes, as [unify] does it:
    the root [r1] is linked below the root [r2], whose rank becomes
    [rank]. *)
Definition union (menv : t) (r1 r2 rank : nat) : t :=
  update
    (update menv r1
       (fun c => mk_cell (m_expr c) (m_context c) r2 (m_rank c) (m_state c)))
    r2
    (fun c => mk_cell (m_expr c) (m_context c) (m_find c) rank (m_state c)).

(** The states that the public operations reach from the empty
    environment: [mk_metavar] with a context of the caller's, [assign],
    and the assignments and unions that [unify] performs. *)
Inductive reachable : t -> Prop :=
| reach_empty : reachable []
| reach_mk_metavar menv ctx :
    reachable menv -> reachable (fst (mk_metavar menv ctx))
| reach_assign menv midx s menv' :
    reachable menv -> assign menv midx s = Some menv' -> reachable menv'
| reach_union menv r1 r2 rank :
    reachable menv -> reachable (union menv r1 r2 rank).

(** The context of the metavariable [i]. *)
Definition context_of (menv : t) (i : nat) : option context :=
  option_map m_context (nth_error menv i).

(** 1) A metavariable does not occur in its own context. *)
Definition not_in_own_context (menv : t) : Prop :=
  forall i ctx, context_of menv i = Some ctx -> occurs_ctx i ctx = false.

(** 2) If [?m1] occurs in the context of [?m2], the context of [?m1] is
    a prefix of that of [?m2]. *)
Definition contexts_nested (menv : t) : Prop :=
  forall i j ctx1 ctx2,
    context_of menv i = Some ctx1 ->
    context_of menv j = Some ctx2 ->
    occurs_ctx i ctx2 = true ->
    is_prefix ctx1 ctx2.

(** What the caller owes: the context mentions only metavariables that
    exist, and begins with the context of each of them. *)
Definition context_by_construction (menv : t) (ctx : context) : Prop :=
  forall i, occurs_ctx i ctx = true ->
            exists ctx1, context_of menv i = Some ctx1 /\ is_prefix ctx1 ctx.

Inductive reachable_by_construction : t -> Prop :=
| reachc_empty : reachable_by_construction []
| reachc_mk_metavar menv ctx :
    reachable_by_construction menv ->
    context_by_construction menv ctx ->
    reachable_by_construction (fst (mk_metavar menv ctx))
| reachc_assign menv midx s menv' :
    reachable_by_construction menv ->
    assign menv midx s = Some menv' ->
    reachable_by_construction menv'
| reachc_union menv r1 r2 rank :
    reachable_by_construction menv ->
    reachable_by_construction (union menv r1 r2 rank).

(** The contexts mention only metavariables that exist. *)
Definition contexts_closed (menv : t) : Prop :=
  forall i j ctx, context_of menv j = Some ctx -> occurs_ctx i ctx = true ->
                  i < length menv.

(** The example of the header: [fun (A : Type) (?m1 : A) (?m2 : B), C]. *)
Definition ctx_m1 : context := [(Name "A", TypeE Zero)].
Definition ctx_m2 : context := [(Name "A", TypeE Zero); (Name "m1", mk_metavar_idx 0)].
Definition header_example : t :=
  fst (mk_metavar (fst (mk_metavar [] ctx_m1)) ctx_m2).

(** A context that mentions the metavariable about to be made. *)
Definition self_context : context := [(Name "x", mk_metavar_idx 0)].

End metavar_env.

(** ** Further functions of the sources *)

(** *** [beta_reduce] of [kernel/instantiate.cpp] *)

(** The callback of [beta_reduce]: a head-beta redex is handed to
    [head_beta_reduce], every other expression is handed back ([None]).
    It does not look at the offset.  An application of the program has an
    argument besides its function, so the assertion of [apply_beta]
    holds on every redex; on a list that is no application of the program
    the callback hands its argument back. *)
Definition beta_reduce_fn (m : expr) (offset : N) : option expr :=
  if is_head_beta m then head_beta_reduce m else None.

(** [beta_reduce(t, menv)]: the traversal is repeated until it gives an
    expression that [operator==] takes for equal to the one it started
    from.  The loop need not end; [fuel] bounds the number of passes, and
    [None] says that the bound is reached. *)
Fixpoint beta_reduce (fuel : nat) (t : expr) : option expr :=
  match fuel with
  | O => None
  | S fuel' =>
      let new_t := replace beta_reduce_fn t in
      if tree_eqb new_t t then Some new_t else beta_reduce fuel' new_t
  end.

(** No expression that the traversal reaches is a head-beta redex. *)
Fixpoint no_head_beta (e : expr) : bool :=
  negb (is_head_beta e)
  && match e with
     | App args => forallb no_head_beta args
     | HEq l r => no_head_beta l && no_head_beta r
     | Pair a b t => no_head_beta a && no_head_beta b && no_head_beta t
     | Proj _ a => no_head_beta a
     | Abst _ _ d b => no_head_beta d && no_head_beta b
     | Let _ ty v b =>
         match ty with Some t => no_head_beta t | None => true end
         && no_head_beta v && no_head_beta b
     | Var _ | Constant _ _ | Value _ | TypeE _ | MetaVar _ _ => true
     end.

(** No expression that the traversal reaches is a metavariable. *)
Fixpoint metavar_free (e : expr) : bool :=
  match e with
  | MetaVar _ _ => false
  | Var _ | Constant _ _ | Value _ | TypeE _ => true
  | App args => forallb metavar_free args
  | HEq l r => metavar_free l && metavar_free r
  | Pair a b t => metavar_free a && metavar_free b && metavar_free t
  | Proj _ a => metavar_free a
  | Abst _ _ d b => metavar_free d && metavar_free b
  | Let _ ty v b =>
      match ty with Some t => metavar_free t | None => true end
      && metavar_free v && metavar_free b
  end.

(** The traversal started at [m] under [d] binders meets no metavariable
    and stays, with [k] to spare, within the unsigned range. *)
Definition in_range (k : N) (m : expr) (d : N) : Prop :=
  metavar_free m = true /\ indices_ok m = true
  /\ (d + k + binder_depth m < UINT_MODULUS)%N.

(** *** The pretty printer, [frontends/lean/pp.cpp] *)

(** Modelled from the spec: [mk_constant(n)] of [kernel/expr.h], the
    constant of name [n] with no cached type. *)
Definition mk_constant (n : name) : expr := Constant n None.

(** Modelled from the spec: [has_free_var(e, low, high)] of
    [kernel/free_vars.cpp], which is not among the sources: [e] has a free
    variable with an index in [[low, high)], the binders crossed counted;
    a metavariable counts as possibly having one. *)
Fixpoint has_free_var (e : expr) (low high : N) : bool :=
  match e with
  | Var i => (low <=? i)%N && (i <? high)%N
  | Constant _ _ | Value _ | TypeE _ => false
  | App args => existsb (fun a => has_free_var a low high) args
  | HEq l r => has_free_var l low high || has_free_var r low high
  | Pair f s t =>
      has_free_var f low high || has_free_var s low high
      || has_free_var t low high
  | Proj _ a => has_free_var a low high
  | Abst _ _ d b =>
      has_free_var d low high || has_free_var b (low + 1) (high + 1)
  | Let _ ty v b =>
      match ty with Some t => has_free_var t low high | None => false end
      || has_free_var v low high || has_free_var b (low + 1) (high + 1)
  | MetaVar _ _ => true
  end.

Definition is_pi (e : expr) : bool :=
  match e with Abst KPi _ _ _ => true | _ => false end.

(** [num_args] and [arg] of [kernel/expr.h] on an application. *)
Definition num_args (e : expr) : N :=
  match e with
  | App args => N.of_nat (length args)
  | _ => 0
  end.

Definition arg (e : expr) (i : N) : expr :=
  match e with
  | App args => nth (N.to_nat i) args (Var 0)
  | _ => Var 0
  end.

Module pp.

Section GetUnusedName.
(** [occurs(n, b)] of [kernel/occurs.h], which is not among the sources:
    taken as a parameter. *)
Variable occurs : name -> expr -> bool.

(** The loop [while (occurs(n1, b)) { n1 = name(n, i); i++; }]; [None]
    when [fuel] rounds do not end it. *)
Fixpoint get_unused_name_loop (fuel : nat) (n : name) (b : expr) (n1 : name)
    (i : N) : option name :=
  match fuel with
  | O => None
  | S fuel' =>
      if occurs n1 b then
        get_unused_name_loop fuel' n b (mk_numeral n i) (uadd i 1)
      else Some n1
  end.

(** [get_unused_name(e)], with [n1 = n] and [i = 1] at the start; [None]
    also where [lean_assert(is_abstraction(e) || is_let(e))] fails. *)
Definition get_unused_name (fuel : nat) (e : expr) : option name :=
  match e with
  | Abst _ n _ b => get_unused_name_loop fuel n b n 1
  | Let n _ _ b => get_unused_name_loop fuel n b n 1
  | _ => None
  end.
End GetUnusedName.

(** The callback of [replace_var_with_name]: the free variable [0]
    becomes the constant [c], every other free variable loses one. *)
Definition replace_var_with_name_fn (c : expr) (m : expr) (offset : N)
  : option expr :=
  match m with
  | Var vidx =>
      if (offset <=? vidx)%N then
        Some (if (vidx =? offset)%N then c else mk_var (usub vidx 1))
      else None
  | _ => None
  end.

Definition replace_var_with_name (a : expr) (n : name) : expr :=
  replace (replace_var_with_name_fn (mk_constant n)) a.

End pp.

Module pp_fn.

(** The prefixes for the names of local aliases. *)
Definition g_a : name := Name "a".
Definition g_b : name := Name "b".
Definition g_c : name := Name "c".

Section FindUnusedPrefix.
(** [uses_prefix(e, prefix)] goes through [find] and [is_prefix_of], which
    are not among the sources: taken as a parameter. *)
Variable uses_prefix : expr -> name -> bool.

(** The loop [while (uses_prefix(e, n)) { i++; n = name(g_c, i); }]. *)
Fixpoint find_unused_prefix_loop (fuel : nat) (e : expr) (i : N) (n : name)
  : option name :=
  match fuel with
  | O => None
  | S fuel' =>
      if uses_prefix e n then
        find_unused_prefix_loop fuel' e (uadd i 1) (mk_numeral g_c (uadd i 1))
      else Some n
  end.

Definition find_unused_prefix (fuel : nat) (e : expr) : option name :=
  if negb (uses_prefix e g_a) then Some g_a
  else if negb (uses_prefix e g_b) then Some g_b
  else find_unused_prefix_loop fuel e 1 (mk_numeral g_c 1).
End FindUnusedPrefix.

Section GetArrowStartingAt.
(** [has_free_var] of [kernel/free_vars.h], taken as a parameter. *)
Variable has_free_var : expr -> N -> N -> bool.

(** The inner loop, entered with [e2] the body of a [Pi] and
    [num_vars = 1]: it ends with [ok]. *)
Fixpoint arrow_tail (e2 : expr) : bool :=
  if has_free_var e2 0%N 1%N then false
  else
    match e2 with
    | Abst KPi _ _ b => arrow_tail b
    | _ => true
    end.

(** The outer loop [while (is_pi(e))]. *)
Fixpoint get_arrow_starting_at_loop (e : expr) (pos : N) : N :=
  match e with
  | Abst KPi _ _ b =>
      if arrow_tail b then pos
      else get_arrow_starting_at_loop b (uadd pos 1)
  | _ => UINT_MAX
  end.

Definition get_arrow_starting_at (e : expr) : N :=
  if negb (is_pi e) then UINT_MAX else get_arrow_starting_at_loop e 0.
End GetArrowStartingAt.

Module application.

(** The fields of [struct application] that [get_num_args] and [get_arg]
    read: the application and the flags of the implicit arguments of its
    function ([None] for the null pointer). *)
Record t : Type := mk {
  m_app : expr;
  m_implicit_args : option (list bool)
}.

(** The test of both loops: position [i] lies beyond the flags or is not
    flagged. *)
Definition shown (mask : list bool) (i : N) : bool :=
  (N.of_nat (length mask) <=? i)%N || negb (nth (N.to_nat i) mask false).

(** [for (unsigned i = 0; i < num_args(m_app) - 1; i++) if (...) r++;] *)
Fixpoint get_num_args_loop (mask : list bool) (steps : nat) (i r : N) : N :=
  match steps with
  | O => r
  | S steps' =>
      get_num_args_loop mask steps' (uadd i 1)
        (if shown mask i then uadd r 1 else r)
  end.

Definition get_num_args (a : t) : N :=
  match m_implicit_args a with
  | Some mask =>
      get_num_args_loop mask (N.to_nat (usub (num_args (m_app a)) 1)) 0 0
  | None => usub (num_args (m_app a)) 1
  end.

(** [for (unsigned j = 1; j < n; j++)] of [get_arg]; [None] is
    [lean_unreachable()]. *)
Fixpoint get_arg_loop (mask : list bool) (app : expr) (steps : nat) (j i : N)
  : option expr :=
  match steps with
  | O => None
  | S steps' =>
      if shown mask (usub j 1) then
        if (i =? 0)%N then Some (arg app j)
        else get_arg_loop mask app steps' (uadd j 1) (usub i 1)
      else get_arg_loop mask app steps' (uadd j 1) i
  end.

Definition get_arg (a : t) (i : N) : option expr :=
  match m_implicit_args a with
  | Some mask =>
      get_arg_loop mask (m_app a) (N.to_nat (num_args (m_app a) - 1)) 1 i
  | None => Some (arg (m_app a) (uadd i 1))
  end.

End application.
End pp_fn.

(** *** Statements about the pretty printer *)

(** The first position from [j] on whose candidate [c j] is not in use,
    looked for in [fuel] candidates. *)
Fixpoint first_free (u : name -> bool) (c : nat -> name) (fuel j : nat)
  : option nat :=
  match fuel with
  | O => None
  | S fuel' => if u (c j) then first_free u c fuel' (S j) else Some j
  end.

(** The candidates of [get_unused_name]: [n], then [n.1], [n.2], ... *)
Definition unused_name_candidate (n : name) (j : nat) : name :=
  match j with
  | O => n
  | S _ => mk_numeral n (N.of_nat j)
  end.

(** The candidates of the loop of [find_unused_prefix]: [c.1], [c.2], ... *)
Definition unused_prefix_candidate (j : nat) : name :=
  mk_numeral pp_fn.g_c (N.of_nat (S j)).

(** The number of [Pi]s that open [e]. *)
Fixpoint num_pis (e : expr) : nat :=
  match e with
  | Abst KPi _ _ b => S (num_pis b)
  | _ => 0
  end.

(** From the [p]-th on, no leading [Pi] of [e] has its variable in its
    body: each can be printed as an arrow. *)
Definition arrows_from (has_free_var : expr -> N -> N -> bool) (e : expr)
    (p : nat) : Prop :=
  forall j, p <= j < num_pis e ->
            has_free_var (strip_binders (S j) e) 0%N 1%N = false.

(** The arguments that are not flagged implicit; those beyond the flags
    are all shown. *)
Fixpoint explicit_args (mask : list bool) (args : list expr) {struct args}
  : list expr :=
  match args with
  | [] => []
  | x :: rest =>
      match mask with
      | [] => x :: rest
      | true :: mask' => explicit_args mask' rest
      | false :: mask' => x :: explicit_args mask' rest
      end
  end.

(** The flags [mask] are the flags [mask0] from position [i0] on. *)
Definition flags_from (mask0 : list bool) (i0 : nat) (mask : list bool) : Prop :=
  forall k, pp_fn.application.shown mask0 (N.of_nat (i0 + k))
            = pp_fn.application.shown mask (N.of_nat k).

(** *** Statements about the cache of maximal sharing *)

(** The number of nodes that the equality test looks at. *)
Fixpoint esize (e : expr) : nat :=
  match e with
  | Var _ | Constant _ _ | Value _ | TypeE _ => 1
  | App args => S (list_sum (map esize args))
  | HEq l r => S (esize l + esize r)
  | Pair f s t => S (esize f + esize s + esize t)
  | Proj _ a => S (esize a)
  | Abst _ _ d b => S (esize d + esize b)
  | Let _ ty v b =>
      S (match ty with Some t => esize t | None => 0 end + esize v + esize b)
  | MetaVar _ lctx =>
      S (list_sum (map (fun le => match le with
                                  | InstEntry _ v => S (esize v)
                                  | LiftEntry _ _ => 1
                                  end) lctx))
  end.

Definition no_type (n : node) : bool :=
  match n with
  | NConstant _ (Some _) => false
  | _ => true
  end.

(** No constant of the store carries a cached type. *)
Definition no_cached_types (h : store) : bool :=
  forallb no_type (map m_node h).

(** The cache holds at most one cell of each class of equal cells. *)
Definition canonical (st : max_sharing_fn.imp) : Prop :=
  forall c1 c2,
    In c1 (snd st) -> In c2 (snd st) ->
    aeq (fst st) c1 c2 = true -> c1 = c2.

(** From [st] to [st']: the cache has grown by cells that stand for trees
    of at most [bound] nodes, and holds one cell of each class still. *)
Definition canon_step (bound : nat) (st st' : max_sharing_fn.imp) : Prop :=
  canonical st'
  /\ no_cached_types (fst st') = true
  /\ incl (snd st) (snd st')
  /\ (forall c, In c (snd st') ->
                In c (snd st) \/ esize (denote (fst st') c) <= bound).

(** What one call of [apply] on [a] in state [st] does to the cache: the
    cell returned is in it. *)
Definition canon_result (a : ptr) (st : max_sharing_fn.imp)
    (res : option (ptr * max_sharing_fn.imp)) : Prop :=
  exists r st',
    res = Some (r, st')
    /\ In r (snd st')
    /\ canon_step (esize (denote (fst st) a)) st st'.

(** * Properties *)

Ltac Zify.zify_post_hook ::= Z.to_euclidean_division_equations.

Ltac unfold_unsigned :=
  unfold uadd, usub, wrap, UINT_MODULUS, UINT_MAX in *.

(** Side conditions that say a sum or a difference stays in range. *)
Ltac small := unfold UINT_MODULUS in *; lia.

(** ** Closed substitutions *)

Lemma lift_free_vars_at_closed (e : expr) :
  forall c d, has_free_var_ge e c = false -> lift_free_vars_at e c d = e.
Proof.
  induction e using expr_rect_nested; intros c d Hc; simpl in *;
    try reflexivity; try discriminate.
  - destruct (c <=? i)%N; [discriminate | reflexivity].
  - unfold mk_app. f_equal.
    induction H as [| a args Ha Hargs IH]; simpl in *; [reflexivity |].
    apply orb_false_iff in Hc as [Hc1 Hc2].
    rewrite Ha by assumption. rewrite IH by assumption. reflexivity.
  - apply orb_false_iff in Hc as [Hc1 Hc2].
    rewrite IHe1, IHe2 by assumption. reflexivity.
  - apply orb_false_iff in Hc as [Hc1 Hc3].
    apply orb_false_iff in Hc1 as [Hc1 Hc2].
    rewrite IHe1, IHe2, IHe3 by assumption. reflexivity.
  - rewrite IHe by assumption. reflexivity.
  - apply orb_false_iff in Hc as [Hc1 Hc2].
    rewrite IHe1, IHe2 by assumption. reflexivity.
  - apply orb_false_iff in Hc as [Hc1 Hc3].
    apply orb_false_iff in Hc1 as [Hc1 Hc2].
    rewrite IHe1, IHe2 by assumption.
    destruct ty as [t |]; simpl in *; [rewrite H by assumption |]; reflexivity.
Qed.

Lemma lift_free_vars_closed (e : expr) (d : N) :
  closed e = true -> lift_free_vars e d = e.
Proof.
  unfold closed, lift_free_vars. intros Hc.
  apply negb_true_iff in Hc.
  destruct (d =? 0)%N; [reflexivity |].
  now apply lift_free_vars_at_closed.
Qed.

(** *** Unsigned arithmetic *)

Lemma wrap_lt (x : N) : (wrap x < UINT_MODULUS)%N.
Proof. unfold_unsigned. lia. Qed.

Lemma wrap_small (x : N) : (x < UINT_MODULUS)%N -> wrap x = x.
Proof. unfold_unsigned. lia. Qed.

Lemma uadd_small (a b : N) : (a + b < UINT_MODULUS)%N -> uadd a b = (a + b)%N.
Proof. unfold_unsigned. lia. Qed.

Lemma usub_small (v a : N) :
  (a <= v)%N -> (v < UINT_MODULUS)%N -> usub v a = (v - a)%N.
Proof. unfold_unsigned. lia. Qed.

Lemma usub_usub (v s offset : N) :
  usub (usub v s) offset = usub v (uadd offset s).
Proof.
  unfold usub, uadd, wrap.
  rewrite N.Div0.mod_mod.
  rewrite (N.Div0.add_mod offset s).
  assert (Hs := N.mod_upper_bound s UINT_MODULUS).
  assert (Ho := N.mod_upper_bound offset UINT_MODULUS).
  generalize dependent (s mod UINT_MODULUS)%N.
  generalize dependent (offset mod UINT_MODULUS)%N.
  unfold UINT_MODULUS. intros. lia.
Qed.

(** The index that [instantiate_core] computes for [subst] lies within the
    array, whatever the unsigned values involved. *)
Lemma subst_index_in_range (offset s n vidx : N) :
  (uadd offset s <= vidx)%N ->
  (vidx < uadd (uadd offset s) n)%N ->
  (usub (usub n (usub (usub vidx s) offset)) 1 < n)%N.
Proof.
  intros H1 H2. rewrite (usub_usub vidx s offset).
  set (A := uadd offset s) in *.
  assert (HA : (A < UINT_MODULUS)%N) by apply wrap_lt.
  assert (Hv : (vidx < UINT_MODULUS)%N).
  { eapply N.lt_trans; [exact H2 | apply wrap_lt]. }
  rewrite (usub_small H1 Hv).
  clearbody A. unfold_unsigned. lia.
Qed.

Lemma subst_at_closed (subst : list expr) (k : N) :
  Forall (fun e => closed e = true) subst ->
  (k < N.of_nat (length subst))%N ->
  closed (subst_at subst k) = true.
Proof.
  intros Hall Hk. unfold subst_at.
  rewrite Forall_forall in Hall. apply Hall. apply nth_In. lia.
Qed.

Lemma add_insts_closed (offset s n : N) (rest : list expr) :
  Forall (fun e => closed e = true) rest ->
  forall i r,
    add_insts true offset s n i rest r = add_insts false offset s n i rest r.
Proof.
  induction 1 as [| x rest Hx Hrest IH]; intros i r; simpl; [reflexivity |].
  rewrite lift_free_vars_closed by assumption. apply IH.
Qed.

Lemma instantiate_fn_closed (s : N) (subst : list expr) (m : expr) (offset : N) :
  Forall (fun e => closed e = true) subst ->
  instantiate_fn true s (N.of_nat (length subst)) subst m offset
  = instantiate_fn false s (N.of_nat (length subst)) subst m offset.
Proof.
  intros Hall. destruct m; simpl; try reflexivity.
  - destruct (uadd offset s <=? idx)%N eqn:E1; [| reflexivity].
    destruct (idx <? uadd (uadd offset s) (N.of_nat (length subst)))%N eqn:E2;
      [| reflexivity].
    apply N.leb_le in E1. apply N.ltb_lt in E2.
    rewrite lift_free_vars_closed; [reflexivity |].
    apply subst_at_closed; [assumption |].
    now apply subst_index_in_range.
  - f_equal. now apply add_insts_closed.
Qed.

Lemma replace_at_ext (f g : expr -> N -> option expr) :
  (forall m offset, f m offset = g m offset) ->
  forall e offset, replace_at f e offset = replace_at g e offset.
Proof.
  intros Hfg.
  induction e using expr_rect_nested; intros offset; simpl;
    rewrite <- Hfg; destruct (f _ offset); try reflexivity.
  - f_equal. induction H as [| a args Ha Hargs IH]; simpl; [reflexivity |].
    now rewrite Ha, IH.
  - now rewrite IHe1, IHe2.
  - now rewrite IHe1, IHe2, IHe3.
  - now rewrite IHe.
  - now rewrite IHe1, IHe2.
  - rewrite IHe1, IHe2.
    destruct ty as [t |]; simpl in *; [rewrite H |]; reflexivity.
Qed.

(** C9: on closed substitutions the fast path that does not lift agrees with
    the general instantiation: [instantiate_with_closed e s = instantiate e s]
    whenever every entry of [s] has no free variable. *)
Theorem instantiate_with_closed_eq_instantiate (e : expr) (s : list expr) :
  Forall (fun x => closed x = true) s ->
  instantiate_with_closed e s = instantiate e s.
Proof.
  intros Hall.
  unfold instantiate_with_closed, instantiate, instantiate_from,
    instantiate_core, replace.
  apply replace_at_ext. intros m offset.
  now apply instantiate_fn_closed.
Qed.

(** Witness of C9: one closed argument under a binder. *)
Lemma instantiate_with_closed_eq_instantiate_witness :
  Forall (fun x => closed x = true) [Value (int_value_value 7)]
  /\ instantiate_with_closed
       (Lambda (Name "x") (Value int_type_value) (App [Var 1; Var 0]))
       [Value (int_value_value 7)]
     = instantiate
       (Lambda (Name "x") (Value int_type_value) (App [Var 1; Var 0]))
       [Value (int_value_value 7)].
Proof.
  split.
  - repeat constructor.
  - apply instantiate_with_closed_eq_instantiate. repeat constructor.
Defined.

(** ** Instantiation against its specification *)

Lemma add_insts_spec (d s n : N) (rest : list expr) :
  forall i r,
    (d + s + n < UINT_MODULUS)%N ->
    (i + N.of_nat (length rest) = n)%N ->
    add_insts false d s n i rest r = record_insts_spec d s n i rest r.
Proof.
  induction rest as [| x rest IH]; intros i r Hb Hi; [reflexivity |].
  cbn [add_insts record_insts_spec].
  cbn [length] in Hi.
  assert (E1 : usub (usub (uadd d n) i) 1 = (d + n - 1 - i)%N).
  { rewrite (uadd_small d n) by small.
    rewrite (usub_small (v := (d + n)%N) (a := i)) by small.
    rewrite (usub_small (v := (d + n - i)%N) (a := 1%N)) by small.
    lia. }
  assert (E2 : usub (usub (uadd (uadd d s) n) i) 1 = (d + s + n - 1 - i)%N).
  { rewrite (uadd_small d s) by small.
    rewrite (uadd_small (d + s) n) by small.
    rewrite (usub_small (v := (d + s + n)%N) (a := i)) by small.
    rewrite (usub_small (v := (d + s + n - i)%N) (a := 1%N)) by small.
    lia. }
  rewrite E1, E2. apply IH; [assumption | lia].
Qed.

Lemma instantiate_fn_var (s : N) (subst : list expr) (d v : N) :
  (d + s + N.of_nat (length subst) < UINT_MODULUS)%N ->
  (v < UINT_MODULUS)%N ->
  match instantiate_fn false s (N.of_nat (length subst)) subst (Var v) d with
  | Some r => r
  | None => Var v
  end = instantiate_var_spec s subst d v.
Proof.
  intros Hb Hv. unfold instantiate_fn, instantiate_var_spec.
  set (n := N.of_nat (length subst)) in *.
  rewrite (uadd_small d s) by small.
  rewrite (uadd_small (d + s) n) by small.
  destruct (d + s <=? v)%N eqn:E1.
  - apply N.leb_le in E1.
    destruct (v <? d)%N eqn:E0; [apply N.ltb_lt in E0; lia |].
    destruct (v - d <? s)%N eqn:E2; [apply N.ltb_lt in E2; lia |].
    replace (v - d <? s + n)%N with (v <? d + s + n)%N
      by (apply eq_true_iff_eq; rewrite !N.ltb_lt; lia).
    destruct (v <? d + s + n)%N eqn:E3.
    + apply N.ltb_lt in E3. f_equal. f_equal.
      rewrite (usub_usub v s d).
      rewrite (uadd_small d s) by small.
      rewrite (usub_small E1 Hv).
      rewrite (usub_small (v := n) (a := (v - (d + s))%N)) by small.
      rewrite (usub_small (v := (n - (v - (d + s)))%N) (a := 1%N)) by small.
      lia.
    + apply N.ltb_ge in E3. unfold mk_var. f_equal.
      apply usub_small; [lia | assumption].
  - apply N.leb_gt in E1.
    destruct (v <? d)%N eqn:E0; [reflexivity |].
    apply N.ltb_ge in E0.
    destruct (v - d <? s)%N eqn:E2; [reflexivity |].
    apply N.ltb_ge in E2. lia.
Qed.

Lemma fold_right_max_le (args : list expr) (a : expr) :
  In a args ->
  (binder_depth a <= fold_right (fun x acc => N.max (binder_depth x) acc) 0 args)%N.
Proof.
  induction args as [| x args IH]; simpl; [tauto |].
  intros [-> | Hin]; [lia |]. specialize (IH Hin). lia.
Qed.

Lemma instantiate_core_spec_at (s : N) (subst : list expr) (e : expr) :
  forall d,
    indices_ok e = true ->
    (d + s + N.of_nat (length subst) + binder_depth e < UINT_MODULUS)%N ->
    replace_at (instantiate_fn false s (N.of_nat (length subst)) subst) e d
    = instantiate_spec s subst d e.
Proof.
  induction e using expr_rect_nested; intros d Hok Hb; simpl in Hok, Hb.
  - cbn [replace_at instantiate_spec].
    rewrite <- instantiate_fn_var; [| lia | now apply N.ltb_lt].
    destruct (instantiate_fn _ _ _ _ _ _); reflexivity.
  - reflexivity.
  - reflexivity.
  - reflexivity.
  - cbn [replace_at instantiate_fn instantiate_spec]. f_equal.
    apply map_ext_in. intros a Hin.
    rewrite Forall_forall in H. apply H; [assumption | |].
    + rewrite forallb_forall in Hok. now apply Hok.
    + pose proof (fold_right_max_le args a Hin). lia.
  - cbn [replace_at instantiate_fn instantiate_spec].
    apply andb_true_iff in Hok as [Hok1 Hok2].
    rewrite IHe1, IHe2 by (assumption || lia). reflexivity.
  - cbn [replace_at instantiate_fn instantiate_spec].
    apply andb_true_iff in Hok as [Hok1 Hok3].
    apply andb_true_iff in Hok1 as [Hok1 Hok2].
    rewrite IHe1, IHe2, IHe3 by (assumption || lia). reflexivity.
  - cbn [replace_at instantiate_fn instantiate_spec].
    rewrite IHe by (assumption || lia). reflexivity.
  - cbn [replace_at instantiate_fn instantiate_spec].
    apply andb_true_iff in Hok as [Hok1 Hok2].
    rewrite (uadd_small d 1) by small.
    rewrite IHe1, IHe2 by (assumption || lia). reflexivity.
  - cbn [replace_at instantiate_fn instantiate_spec].
    apply andb_true_iff in Hok as [Hok1 Hok3].
    apply andb_true_iff in Hok1 as [Hok1 Hok2].
    rewrite (uadd_small d 1) by small.
    rewrite IHe1, IHe2 by (assumption || lia).
    destruct ty as [t |]; simpl in *; [rewrite H by (assumption || lia) |];
      reflexivity.
  - cbn [replace_at instantiate_fn instantiate_spec].
    apply add_insts_spec; lia.
Qed.

(** C1 (amended): as long as the indices involved stay within the unsigned
    range, [instantiate(e, s, n, subst)] replaces each free [Var(s+i)],
    [i < n], by [subst[n-1-i]] lifted by the binders crossed, takes [n]
    off every free variable from [s+n] on and leaves the variables below
    [s] (and the bound ones) as they are. *)
Theorem instantiate_meets_spec (e : expr) (s : N) (subst : list expr) :
  indices_ok e = true ->
  (s + N.of_nat (length subst) + binder_depth e < UINT_MODULUS)%N ->
  instantiate_from e s subst = instantiate_spec s subst 0 e.
Proof.
  intros Hok Hb. unfold instantiate_from, instantiate_core, replace.
  apply instantiate_core_spec_at; [assumption | lia].
Qed.

(** Witness of C1: the body of [fun x => (#1 x) #2] instantiated at index
    [0] with one argument. *)
Lemma instantiate_meets_spec_witness :
  instantiate_from
    (Lambda (Name "x") Int (App [Var 1; Var 0; Var 2])) 0 [iVal 7]
  = instantiate_spec 0 [iVal 7] 0
      (Lambda (Name "x") Int (App [Var 1; Var 0; Var 2])).
Proof.
  apply instantiate_meets_spec; [reflexivity | vm_compute; reflexivity].
Defined.

(** C1 as stated fails where the unsigned sums wrap: with [s = UINT_MAX]
    and one substitution, [offset + s + n] is [0], so the variable
    [UINT_MAX] is decremented instead of being replaced by [subst[0]]. *)
Lemma instantiate_wraps_counterexample :
  instantiate_from (Var 4294967295) 4294967295 [iVal 7] = Var 4294967294
  /\ instantiate_from (Var 4294967295) 4294967295 [iVal 7]
     <> instantiate_spec 4294967295 [iVal 7] 0 (Var 4294967295).
Proof. split; vm_compute; [reflexivity | discriminate]. Qed.

(** ** Beta application *)

Lemma beta_loop_spec (body : expr) :
  forall m a : nat,
    m <= a ->
    beta_loop body (N.of_nat m) (N.of_nat a)
    = (strip_binders (Nat.min (num_lambdas body) (a - m)) body,
       N.of_nat (m + Nat.min (num_lambdas body) (a - m))).
Proof.
  induction body using expr_rect_nested; intros m a Hm;
    try (cbn; rewrite Nat.add_0_r; reflexivity).
  destruct k; try (cbn; rewrite Nat.add_0_r; reflexivity).
  cbn [beta_loop num_lambdas].
  destruct (N.of_nat m <? N.of_nat a)%N eqn:E.
  - apply N.ltb_lt in E.
    replace (N.of_nat m + 1)%N with (N.of_nat (S m)) by lia.
    rewrite IHbody2 by lia.
    replace (a - m) with (S (a - S m)) by lia.
    rewrite <- Nat.succ_min_distr. cbn [strip_binders abst_body].
    f_equal. lia.
  - apply N.ltb_ge in E.
    replace (a - m) with 0 by lia.
    rewrite Nat.min_0_r, Nat.add_0_r. reflexivity.
Qed.

Lemma instantiate_is_lambda (e : expr) (s : list expr) :
  is_lambda e = true -> is_lambda (instantiate e s) = true.
Proof.
  destruct e; try discriminate. destruct k; try discriminate.
  intros _. reflexivity.
Qed.

Lemma strip_binders_is_lambda (e : expr) :
  forall k, k < num_lambdas e -> is_lambda (strip_binders k e) = true.
Proof.
  induction e using expr_rect_nested; intros j Hj; cbn in Hj; try lia.
  destruct k; cbn in Hj; try lia.
  destruct j as [| j]; [reflexivity |].
  cbn [strip_binders abst_body]. apply IHe2. lia.
Qed.

Lemma apply_beta_lambda (f : expr) (args : list expr) :
  is_lambda f = true ->
  args <> [] ->
  let m := Nat.min (num_lambdas f) (length args) in
  apply_beta f args
  = Some (if length args <=? num_lambdas f
          then instantiate (strip_binders m f) args
          else mk_app (instantiate (strip_binders m f) (firstn m args)
                       :: skipn m args)).
Proof.
  intros Hf Hargs m. unfold apply_beta. rewrite Hf. cbn [negb].
  destruct f; try discriminate. destruct k; try discriminate.
  cbn [abst_body].
  assert (Hlen : 1 <= length args).
  { destruct args; [congruence | cbn; lia]. }
  change 1%N with (N.of_nat 1).
  rewrite beta_loop_spec by assumption.
  cbn [num_lambdas] in m. cbn [num_lambdas].
  set (t := Nat.min (num_lambdas f2) (length args - 1)).
  assert (Hm : m = S t).
  { subst m t. replace (length args) with (S (length args - 1)) at 1 by lia.
    now rewrite <- Nat.succ_min_distr. }
  rewrite Hm. cbn [strip_binders abst_body].
  replace (1 + t) with (S t) by lia.
  destruct (N.of_nat (S t) <=? N.of_nat (length args))%N eqn:E1;
    [| apply N.leb_gt in E1; lia].
  rewrite Nat2N.id.
  destruct (N.of_nat (S t) =? N.of_nat (length args))%N eqn:E2.
  - apply N.eqb_eq in E2. apply Nat2N.inj in E2.
    rewrite E2, firstn_all.
    destruct (length args <=? S (num_lambdas f2)) eqn:E3; [reflexivity |].
    apply Nat.leb_gt in E3. lia.
  - apply N.eqb_neq in E2.
    destruct (length args <=? S (num_lambdas f2)) eqn:E3; [| reflexivity].
    apply Nat.leb_le in E3. exfalso. apply E2. f_equal. lia.
Qed.

(** C2 (amended): on a lambda [f] and a non-empty argument list,
    [apply_beta] succeeds and instantiates the body under the leading
    lambdas with as many arguments as there are such lambdas, at most all of
    them; arguments in excess are applied to the instantiated body, and with
    fewer arguments than lambdas the result is still a lambda. *)
Theorem apply_beta_cases (f : expr) (args : list expr) :
  is_lambda f = true ->
  args <> [] ->
  let k := num_lambdas f in
  let a := length args in
  (k < a ->
   apply_beta f args
   = Some (mk_app (instantiate (strip_binders k f) (firstn k args)
                   :: skipn k args)))
  /\ (k = a -> apply_beta f args = Some (instantiate (strip_binders k f) args))
  /\ (a < k ->
      apply_beta f args = Some (instantiate (strip_binders a f) args)
      /\ is_lambda (instantiate (strip_binders a f) args) = true).
Proof.
  intros Hf Hargs k a. subst k a.
  pose proof (apply_beta_lambda f Hf Hargs) as H. cbv zeta in H.
  split; [| split]; intros Hk; [| | split].
  - rewrite H, Nat.min_l by lia.
    destruct (length args <=? num_lambdas f) eqn:E; [| reflexivity].
    apply Nat.leb_le in E. lia.
  - rewrite H, Nat.min_l by lia.
    destruct (length args <=? num_lambdas f) eqn:E; [reflexivity |].
    apply Nat.leb_gt in E. lia.
  - rewrite H, Nat.min_r by lia.
    destruct (length args <=? num_lambdas f) eqn:E; [reflexivity |].
    apply Nat.leb_gt in E. lia.
  - apply instantiate_is_lambda. now apply strip_binders_is_lambda.
Qed.

(** Witness of C2: two lambdas applied to three arguments. *)
Lemma apply_beta_cases_witness :
  apply_beta
    (Lambda (Name "x") Int (Lambda (Name "y") Int (App [Var 1; Var 0])))
    [iVal 1; iVal 2; iVal 3]
  = Some (mk_app [App [iVal 1; iVal 2]; iVal 3]).
Proof.
  refine (proj1 (@apply_beta_cases
    (Lambda (Name "x") Int (Lambda (Name "y") Int (App [Var 1; Var 0])))
    [iVal 1; iVal 2; iVal 3] _ _) _).
  - reflexivity.
  - discriminate.
  - cbn. lia.
Defined.

(** C2 as stated fails on the empty argument list: the count [m] starts
    at [1] and [lean_assert(m <= num_args)] does not hold. *)
Lemma apply_beta_no_args_counterexample :
  apply_beta (Lambda (Name "x") Int (Var 0)) [] = None.
Proof. reflexivity. Qed.

(** ** Builtin integer operators *)

Lemma is_int_value_inv (e : expr) :
  is_int_value e = true -> e = mk_int_value (int_value_numeral e).
Proof.
  destruct e as [| | v | | | | | | | |]; try discriminate.
  destruct v; try discriminate. reflexivity.
Qed.

(** The hook of the template, whatever the evaluator: it returns [true]
    exactly on three entries whose last two are integer literals on which
    the evaluator returns, with the literal of what the evaluator
    returns; it returns [false] exactly on every other list of entries. *)
Lemma int_bin_op_normalize_cases (F : Z -> Z -> option Z) (args : list expr) :
  (forall r,
     int_bin_op_normalize F args = hook_true r
     <-> exists f v1 v2 v,
           args = [f; mk_int_value v1; mk_int_value v2]
           /\ F v1 v2 = Some v /\ r = mk_int_value v)
  /\ (int_bin_op_normalize F args = hook_false
      <-> ~ exists f v1 v2, args = [f; mk_int_value v1; mk_int_value v2]).
Proof.
  unfold int_bin_op_normalize.
  destruct args as [| f [| a1 [| a2 [| x rest]]]];
    try (split;
         [ intros r; split;
           [ discriminate | intros (? & ? & ? & ? & ? & _); discriminate ]
         | split; [ intros _ (? & ? & ? & ?); discriminate | reflexivity ] ]).
  destruct (is_int_value a1) eqn:E1; cbn [andb].
  - destruct (is_int_value a2) eqn:E2.
    + rewrite (is_int_value_inv a1 E1), (is_int_value_inv a2 E2).
      cbn [int_value_numeral mk_int_value].
      set (v1 := int_value_numeral a1). set (v2 := int_value_numeral a2).
      split.
      * intros r. split.
        -- destruct (F v1 v2) as [v |] eqn:EF; [| discriminate].
           intros [= <-]. now exists f, v1, v2, v.
        -- intros (f' & w1 & w2 & v & [= _ <- <-] & EF & ->).
           now rewrite EF.
      * split.
        -- destruct (F v1 v2); discriminate.
        -- intros H. exfalso. apply H. now exists f, v1, v2.
    + split.
      * intros r. split; [discriminate |].
        intros (f' & w1 & w2 & v & [= _ _ ->] & _). discriminate.
      * split; [| reflexivity].
        intros _ (f' & w1 & w2 & [= _ _ ->]). discriminate.
  - split.
    + intros r. split; [discriminate |].
      intros (f' & w1 & w2 & v & [= _ -> _] & _). discriminate.
    + split; [| reflexivity].
      intros _ (f' & w1 & w2 & [= _ -> _]). discriminate.
Qed.

(** C10 (amended): the [normalize] hook of [+], [-], [*] and [div]
    produces a result exactly when it is called with three entries whose
    last two are integer literals and, for [div], the second literal is
    not zero; the result is then the literal of the sum, the difference,
    the product, or the quotient truncated toward zero.  On any other
    number of entries and on an argument that is no literal it returns
    [false]. *)
Theorem int_bin_op_normalize_iff (args : list expr) (r : expr) :
  (value_normalize (int_bin_op OpAdd) args = hook_true r
   <-> exists f v1 v2,
         args = [f; mk_int_value v1; mk_int_value v2]
         /\ r = mk_int_value (v1 + v2)%Z)
  /\ (value_normalize (int_bin_op OpSub) args = hook_true r
      <-> exists f v1 v2,
            args = [f; mk_int_value v1; mk_int_value v2]
            /\ r = mk_int_value (v1 - v2)%Z)
  /\ (value_normalize (int_bin_op OpMul) args = hook_true r
      <-> exists f v1 v2,
            args = [f; mk_int_value v1; mk_int_value v2]
            /\ r = mk_int_value (v1 * v2)%Z)
  /\ (value_normalize (int_bin_op OpDiv) args = hook_true r
      <-> exists f v1 v2,
            args = [f; mk_int_value v1; mk_int_value v2]
            /\ v2 <> 0%Z
            /\ r = mk_int_value (Z.quot v1 v2))
  /\ (forall op,
        value_normalize (int_bin_op op) args = hook_false
        <-> ~ exists f v1 v2, args = [f; mk_int_value v1; mk_int_value v2]).
Proof.
  cbn [value_normalize int_op_eval].
  repeat split;
    try (intros H;
         apply (proj1 (int_bin_op_normalize_cases _ args)) in H;
         destruct H as (f & v1 & v2 & v & -> & EF & ->);
         exists f, v1, v2).
  - injection EF as <-. now split.
  - intros (f & v1 & v2 & -> & ->). reflexivity.
  - injection EF as <-. now split.
  - intros (f & v1 & v2 & -> & ->). reflexivity.
  - injection EF as <-. now split.
  - intros (f & v1 & v2 & -> & ->). reflexivity.
  - unfold int_div_eval in EF.
    destruct (v2 =? 0)%Z eqn:E0; [discriminate |].
    injection EF as <-. apply Z.eqb_neq in E0. now repeat split.
  - intros (f & v1 & v2 & -> & Hne & ->).
    cbn. unfold int_div_eval. apply Z.eqb_neq in Hne. now rewrite Hne.
  - apply (proj2 (int_bin_op_normalize_cases _ args)).
  - apply (proj2 (int_bin_op_normalize_cases _ args)).
Qed.

(** C10 as stated fails for [div] on the divisor [0]: both arguments are
    integer literals, and the hook neither produces a result nor returns
    [false]. *)
Lemma int_div_by_zero_counterexample :
  value_normalize (int_bin_op OpDiv)
    [Value (int_bin_op OpDiv); mk_int_value 7; mk_int_value 0]
  = hook_fault
  /\ forall r,
       value_normalize (int_bin_op OpDiv)
         [Value (int_bin_op OpDiv); mk_int_value 7; mk_int_value 0]
       <> hook_true r.
Proof. split; [reflexivity | discriminate]. Qed.

(** ** The store and its trees *)

Lemma trees_from_app (cs1 cs2 : list expr_cell) :
  forall acc, trees_from acc (cs1 ++ cs2) = trees_from (trees_from acc cs1) cs2.
Proof. induction cs1 as [| c cs1 IH]; intros acc; simpl; [reflexivity | apply IH]. Qed.

Lemma trees_from_prefix (cells : list expr_cell) :
  forall acc, exists ext,
    trees_from acc cells = acc ++ ext /\ length ext = length cells.
Proof.
  induction cells as [| c cells IH]; intros acc; simpl.
  - exists []. now rewrite app_nil_r.
  - destruct (IH (acc ++ [build acc (m_node c)])) as (ext & E & L).
    exists (build acc (m_node c) :: ext). rewrite E, <- app_assoc. simpl.
    split; [reflexivity | now rewrite L].
Qed.

Lemma trees_length (h : store) : length (trees h) = length h.
Proof.
  unfold trees. destruct (trees_from_prefix h []) as (ext & E & L).
  now rewrite E.
Qed.

Lemma build_ext (ts ts' : list expr) (n : node) :
  (forall q, In q (node_children n) -> tree_of ts q = tree_of ts' q) ->
  build ts n = build ts' n.
Proof.
  intros H. destruct n; simpl in *; try reflexivity.
  - destruct ty; simpl in *; [rewrite H by auto |]; reflexivity.
  - f_equal. apply map_ext_in. auto.
  - rewrite !H by auto. reflexivity.
  - rewrite !H by auto. reflexivity.
  - rewrite !H by auto. reflexivity.
  - rewrite !H by auto. reflexivity.
  - rewrite (H v), (H b) by (apply in_or_app; simpl; auto).
    destruct ty; simpl in *; [rewrite H by auto |]; reflexivity.
  - f_equal. apply map_ext_in. intros le Hle.
    destruct le; simpl; [reflexivity |]. f_equal. apply H.
    apply in_flat_map. exists (InstEntry s v). simpl. auto.
Qed.

Lemma wf_cells_app (cs1 cs2 : list expr_cell) :
  forall base,
    wf_cells base (cs1 ++ cs2)
    = wf_cells base cs1 && wf_cells (base + length cs1) cs2.
Proof.
  induction cs1 as [| c cs1 IH]; intros base; simpl.
  - now rewrite Nat.add_0_r.
  - rewrite IH, andb_assoc. now rewrite Nat.add_succ_r.
Qed.

(** The children of a cell of a well-formed store lie below it, and the cell
    stands for the tree built from theirs. *)
Lemma denote_cell (h : store) (p : ptr) (c : expr_cell) :
  wf_store h = true ->
  nth_error h p = Some c ->
  (forall q, In q (node_children (m_node c)) -> q < p)
  /\ denote h p = build (trees h) (m_node c).
Proof.
  intros Hwf Hp.
  destruct (nth_error_split h p Hp) as (pre & post & -> & Hlen).
  unfold wf_store in Hwf. rewrite wf_cells_app in Hwf.
  apply andb_true_iff in Hwf as [_ Hwf]. simpl in Hwf.
  apply andb_true_iff in Hwf as [Hch _].
  rewrite forallb_forall in Hch.
  assert (Hlt : forall q, In q (node_children (m_node c)) -> q < p).
  { intros q Hq. specialize (Hch q Hq). apply Nat.ltb_lt in Hch. lia. }
  split; [exact Hlt |].
  unfold denote, trees. rewrite trees_from_app. simpl.
  set (T := trees_from [] pre).
  assert (HT : length T = p).
  { subst T. destruct (trees_from_prefix pre []) as (ext & E & L).
    rewrite E. simpl. lia. }
  destruct (trees_from_prefix post (T ++ [build T (m_node c)]))
    as (ext & E & L).
  rewrite E. unfold tree_of at 1.
  rewrite <- app_assoc. rewrite app_nth2 by lia.
  rewrite HT, Nat.sub_diag. simpl.
  apply build_ext. intros q Hq. unfold tree_of.
  rewrite app_nth1 by (specialize (Hlt q Hq); lia). reflexivity.
Qed.

(** ** The equality of the program on trees *)

Lemma tree_eqb_App (l1 l2 : list expr) :
  tree_eqb (App l1) (App l2) = forall2b tree_eqb l1 l2.
Proof.
  revert l2. induction l1 as [| x l1 IH]; intros [| y l2]; try reflexivity.
  cbn [forall2b]. rewrite <- IH. reflexivity.
Qed.

Lemma tree_eqb_MetaVar (n1 n2 : name) (l1 l2 : list local_entry) :
  tree_eqb (MetaVar n1 l1) (MetaVar n2 l2)
  = name_eqb n1 n2 && forall2b entry_tree_eqb l1 l2.
Proof.
  cbn [tree_eqb]. f_equal.
  revert l2. induction l1 as [| x l1 IH]; intros [| y l2]; try reflexivity.
  cbn [forall2b]. rewrite <- IH. reflexivity.
Qed.

Lemma tree_eqb_Let n1 t1 v1 b1 n2 t2 v2 b2 :
  tree_eqb (Let n1 t1 v1 b1) (Let n2 t2 v2 b2)
  = opt_tree_eqb t1 t2 && tree_eqb v1 v2 && tree_eqb b1 b2.
Proof. reflexivity. Qed.

Lemma name_eqb_eq (a b : name) : name_eqb a b = true <-> a = b.
Proof. unfold name_eqb. destruct (name_eq_dec a b); split; congruence. Qed.

Lemma level_eqb_eq (a b : level) : level_eqb a b = true <-> a = b.
Proof. unfold level_eqb. destruct (level_eq_dec a b); split; congruence. Qed.

Lemma value_eqb_eq (a b : value) : value_eqb a b = true <-> a = b.
Proof. unfold value_eqb. destruct (value_eq_dec a b); split; congruence. Qed.

Lemma abst_kind_eqb_eq (a b : abst_kind) : abst_kind_eqb a b = true <-> a = b.
Proof. destruct a, b; simpl; split; congruence. Qed.

Lemma expr_kind_eqb_eq (a b : expr_kind) : expr_kind_eqb a b = true <-> a = b.
Proof. unfold expr_kind_eqb. destruct (expr_kind_eq_dec a b); split; congruence. Qed.

Lemma tree_eqb_tree_eq (a : expr) :
  forall e', tree_eqb a e' = true <-> tree_eq a e'.
Proof.
  unfold tree_eq.
  induction a using expr_rect_nested; intros e'.
  - destruct e'; cbn; try (split; [discriminate | congruence]).
    rewrite N.eqb_eq. split; congruence.
  - destruct e'; cbn; try (split; [discriminate | congruence]).
    rewrite name_eqb_eq. split; congruence.
  - destruct e'; cbn; try (split; [discriminate | congruence]).
    rewrite value_eqb_eq. split; congruence.
  - destruct e'; cbn; try (split; [discriminate | congruence]).
    rewrite level_eqb_eq. split; congruence.
  - destruct e' as [| | | | args2 | | | | | |];
      try (cbn; split; [discriminate | congruence]).
    rewrite tree_eqb_App. cbn [erase_skipped].
    revert args2. induction H as [| x args Hx Hargs IH]; intros [| y args2];
      cbn; try (split; [discriminate | congruence]); [tauto |].
    rewrite andb_true_iff, Hx, IH. split.
    + intros [E1 E2]. congruence.
    + intros E. split; congruence.
  - destruct e'; cbn; try (split; [discriminate | congruence]).
    rewrite andb_true_iff, IHa1, IHa2. split.
    + intros [E1 E2]. congruence.
    + intros E. split; congruence.
  - destruct e'; cbn; try (split; [discriminate | congruence]).
    rewrite !andb_true_iff, IHa1, IHa2, IHa3. split.
    + intros [[E1 E2] E3]. congruence.
    + intros E. repeat split; congruence.
  - destruct e'; cbn; try (split; [discriminate | congruence]).
    rewrite andb_true_iff, IHa, eqb_true_iff. split.
    + intros [E1 E2]. congruence.
    + intros E. split; congruence.
  - destruct e'; cbn; try (split; [discriminate | congruence]).
    rewrite !andb_true_iff, IHa1, IHa2, abst_kind_eqb_eq. split.
    + intros [[E1 E2] E3]. congruence.
    + intros E. repeat split; congruence.
  - destruct e' as [| | | | | | | | | n2 ty2 v2 b2 |];
      try (cbn; split; [discriminate | congruence]).
    rewrite tree_eqb_Let. cbn [erase_skipped].
    rewrite !andb_true_iff, IHa1, IHa2.
    assert (Hty : opt_tree_eqb ty ty2 = true
                  <-> option_map erase_skipped ty = option_map erase_skipped ty2).
    { destruct ty as [t |], ty2 as [t2 |]; cbn in *;
        try (split; [discriminate | congruence]); [| tauto].
      rewrite H. split; congruence. }
    rewrite Hty. split.
    + intros [[E1 E2] E3]. congruence.
    + intros E. repeat split; congruence.
  - destruct e' as [| | | | | | | | | | n2 lctx2];
      try (cbn; split; [discriminate | congruence]).
    rewrite tree_eqb_MetaVar. cbn [erase_skipped].
    rewrite andb_true_iff, name_eqb_eq.
    assert (Hl : forall2b entry_tree_eqb lctx lctx2 = true
                 <-> map (entry_map erase_skipped) lctx
                     = map (entry_map erase_skipped) lctx2).
    { clear n n2. revert lctx2.
      induction H as [| x l Hx Hl IH]; intros [| y l2];
        cbn; try (split; [discriminate | congruence]); [tauto |].
      rewrite andb_true_iff, IH.
      assert (Hxy : entry_tree_eqb x y = true
                    <-> entry_map erase_skipped x = entry_map erase_skipped y).
      { destruct x, y; cbn in *; try (split; [discriminate | congruence]).
        - rewrite andb_true_iff, !N.eqb_eq. split.
          + intros [E1 E2]. congruence.
          + intros E. split; congruence.
        - rewrite andb_true_iff, N.eqb_eq, Hx. split.
          + intros [E1 E2]. congruence.
          + intros E. split; congruence. }
      rewrite Hxy. split.
      - intros [E1 E2]. congruence.
      - intros E. split; congruence. }
    rewrite Hl. split.
    + intros [E1 E2]. congruence.
    + intros E. split; congruence.
Qed.

Lemma tree_eqb_refl (a : expr) : tree_eqb a a = true.
Proof. apply tree_eqb_tree_eq. reflexivity. Qed.

(** ** The equality test *)


Lemma forall2b_map {A B : Type} (f : B -> B -> bool) (g : A -> B) (l1 l2 : list A) :
  forall2b f (map g l1) (map g l2) = forall2b (fun x y => f (g x) (g y)) l1 l2.
Proof.
  revert l2. induction l1 as [| x l1 IH]; intros [| y l2]; cbn; try reflexivity.
  now rewrite IH.
Qed.

Lemma forall2b_length {A B : Type} (f : A -> B -> bool) (l1 : list A) (l2 : list B) :
  length l1 <> length l2 -> forall2b f l1 l2 = false.
Proof.
  revert l2. induction l1 as [| x l1 IH]; intros [| y l2] H; cbn in *;
    try reflexivity; try congruence.
  rewrite IH by congruence. apply andb_false_r.
Qed.

Lemma pair_mem_In (p : ptr * ptr) (V : visited) :
  pair_mem p V = true <-> In p V.
Proof.
  unfold pair_mem. rewrite existsb_exists. split.
  - intros ((x, y) & Hin & E). apply andb_true_iff in E as [E1 E2].
    apply Nat.eqb_eq in E1, E2. destruct p; cbn in *. now subst.
  - intros Hin. exists p. split; [assumption |].
    now rewrite !Nat.eqb_refl.
Qed.

Lemma hash_ok_spec (h : store) : hash_ok h = true -> hash_okP h.
Proof.
  unfold hash_ok. intros H i j ci cj Hi Hj Ha.
  rewrite forallb_forall in H.
  assert (Hi' : In i (seq 0 (length h))).
  { apply in_seq. assert (i < length h) by (apply nth_error_Some; congruence). lia. }
  assert (Hj' : In j (seq 0 (length h))).
  { apply in_seq. assert (j < length h) by (apply nth_error_Some; congruence). lia. }
  specialize (H i Hi'). rewrite forallb_forall in H. specialize (H j Hj').
  rewrite Hi, Hj, Ha in H. cbn in H. now apply N.eqb_eq.
Qed.

Section ExprEqCorrect.
Variable UseHash : bool.
Variable h : store.
Hypothesis Hwf : wf_store h = true.
Hypothesis Hhash : hash_okP h.

Lemma ext_lt_refl V k : ext_lt h V V k.
Proof. intros x y Hin. now left. Qed.

Lemma ext_lt_trans V1 V2 V3 k :
  ext_lt h V1 V2 k -> ext_lt h V2 V3 k -> ext_lt h V1 V3 k.
Proof.
  intros H12 H23 x y Hin. destruct (H23 x y Hin) as [H | H]; [| now right].
  now apply H12.
Qed.

Lemma inv_lt_ext V V' k : inv_lt h V k -> ext_lt h V V' k -> inv_lt h V' k.
Proof.
  intros Hinv Hext x y Hin Hx. destruct (Hext x y Hin) as [H | [_ H]];
    [now apply Hinv | assumption].
Qed.

Lemma answers_pure (r : bool) V k : answers h (Some (r, V)) r V k.
Proof. exists V. split; [reflexivity | intros _; apply ext_lt_refl]. Qed.

Lemma answers_and_then r1 k e1 e2 V a :
  inv_lt h V a ->
  answers h r1 e1 V a ->
  (e1 = true -> forall V1, inv_lt h V1 a -> answers h (k V1) e2 V1 a) ->
  answers h (and_then r1 k) (e1 && e2) V a.
Proof.
  intros Hinv (V1 & -> & Hext1) Hk. destruct e1; cbn.
  - specialize (Hext1 eq_refl).
    destruct (Hk eq_refl V1 (inv_lt_ext Hinv Hext1)) as (V2 & -> & Hext2).
    exists V2. split; [reflexivity |]. intros He2.
    eapply ext_lt_trans; eauto.
  - exists V1. split; [reflexivity | discriminate].
Qed.

Lemma answers_fresh_eq ap a c d V :
  child_ok h ap a -> c < a -> d < length h ->
  answers h (fresh_eq ap c d V) (aeq h c d) V a.
Proof.
  intros Hap Hc Hd. unfold fresh_eq.
  destruct (Hap c d [] Hc Hd) as (V' & -> & _).
  { intros x y []. }
  apply answers_pure.
Qed.

Lemma answers_apply_args ap a (l1 : list ptr) :
  child_ok h ap a ->
  forall l2 V,
    (forall q, In q l1 -> q < a) ->
    (forall q, In q l2 -> q < length h) ->
    length l1 = length l2 ->
    inv_lt h V a ->
    answers h (expr_eq_fn.apply_args ap l1 l2 V) (forall2b (aeq h) l1 l2) V a.
Proof.
  intros Hap. induction l1 as [| x l1 IH]; intros [| y l2] V H1 H2 Hlen Hinv;
    cbn in Hlen; try discriminate.
  - apply answers_pure.
  - cbn [expr_eq_fn.apply_args forall2b]. apply answers_and_then; [assumption | |].
    + apply Hap; [apply H1 | apply H2 | assumption]; now left.
    + intros _ V1 Hinv1. apply IH; try assumption.
      * intros q Hq. apply H1. now right.
      * intros q Hq. apply H2. now right.
      * congruence.
Qed.

Lemma answers_apply_entry ap a e1 e2 V :
  child_ok h ap a ->
  (forall q, In q (entry_children e1) -> q < a) ->
  (forall q, In q (entry_children e2) -> q < length h) ->
  inv_lt h V a ->
  answers h (expr_eq_fn.apply_entry ap e1 e2 V) (entry_aeq h e1 e2) V a.
Proof.
  intros Hap H1 H2 Hinv. unfold entry_aeq.
  destruct e1 as [s1 n1 | s1 v1], e2 as [s2 n2 | s2 v2]; cbn;
    try apply answers_pure.
  - destruct (s1 =? s2)%N; cbn; apply answers_pure.
  - destruct (s1 =? s2)%N; cbn; [| apply answers_pure].
    apply Hap; [apply H1 | apply H2 | assumption]; cbn; auto.
Qed.

Lemma answers_compare ap a (l1 : list (local_entry_of ptr)) :
  child_ok h ap a ->
  forall l2 V,
    (forall q, In q (flat_map entry_children l1) -> q < a) ->
    (forall q, In q (flat_map entry_children l2) -> q < length h) ->
    inv_lt h V a ->
    answers h (expr_eq_fn.compare ap l1 l2 V) (forall2b (entry_aeq h) l1 l2) V a.
Proof.
  intros Hap. induction l1 as [| x l1 IH]; intros [| y l2] V H1 H2 Hinv;
    cbn [expr_eq_fn.compare forall2b]; try apply answers_pure.
  cbn [flat_map] in H1, H2.
  apply answers_and_then; [assumption | |].
  - apply answers_apply_entry; try assumption.
    + intros q Hq. apply H1. apply in_or_app. now left.
    + intros q Hq. apply H2. apply in_or_app. now left.
  - intros _ V1 Hinv1. apply IH; try assumption.
    + intros q Hq. apply H1. apply in_or_app. now right.
    + intros q Hq. apply H2. apply in_or_app. now right.
Qed.

Lemma answers_apply_opt ap a o1 o2 V :
  child_ok h ap a ->
  (forall q, In q (opt_children o1) -> q < a) ->
  (forall q, In q (opt_children o2) -> q < length h) ->
  inv_lt h V a ->
  answers h (expr_eq_fn.apply_opt ap o1 o2 V) (opt_aeq h o1 o2) V a.
Proof.
  intros Hap H1 H2 Hinv. unfold opt_aeq.
  destruct o1 as [x |], o2 as [y |]; cbn; try apply answers_pure.
  apply Hap; [apply H1 | apply H2 | assumption]; cbn; auto.
Qed.

Ltac in_children H1 H2 :=
  try assumption;
  try (apply H1; cbn; tauto);
  try (apply H2; cbn; tauto).

Lemma answers_apply_switch ap a na nb V :
  child_ok h ap a ->
  kind na = kind nb ->
  kind na <> KindVar ->
  (forall q, In q (node_children na) -> q < a) ->
  (forall q, In q (node_children nb) -> q < length h) ->
  inv_lt h V a ->
  answers h (expr_eq_fn.apply_switch ap na nb V)
          (tree_eqb (build (trees h) na) (build (trees h) nb)) V a.
Proof.
  intros Hap Hk Hnv H1 H2 Hinv.
  destruct na, nb; cbn in Hk, Hnv; try discriminate; try congruence;
    cbn [expr_eq_fn.apply_switch build]; cbn [node_children] in H1, H2.
  - (* Constant *) apply answers_pure.
  - (* Value *) apply answers_pure.
  - (* Type *) apply answers_pure.
  - (* App *)
    rewrite tree_eqb_App, forall2b_map.
    destruct (length args =? length args0) eqn:E; cbn [negb].
    + apply Nat.eqb_eq in E.
      change (answers h (expr_eq_fn.apply_args ap args args0 V) (forall2b (aeq h) args args0) V a).
      apply answers_apply_args; try assumption.
    + apply Nat.eqb_neq in E. rewrite forall2b_length by assumption.
      apply answers_pure.
  - (* HEq *)
    cbn [tree_eqb]. apply answers_and_then; [assumption | |].
    + apply answers_fresh_eq; in_children H1 H2.
    + intros _ V1 _. apply answers_fresh_eq; in_children H1 H2.
  - (* Pair *)
    cbn [tree_eqb]. rewrite <- andb_assoc.
    apply answers_and_then; [assumption | |].
    + apply answers_fresh_eq; in_children H1 H2.
    + intros _ V1 Hinv1. apply answers_and_then; [assumption | |].
      * apply answers_fresh_eq; in_children H1 H2.
      * intros _ V2 _. apply answers_fresh_eq; in_children H1 H2.
  - (* Proj *)
    cbn [tree_eqb]. destruct (Bool.eqb first first0); cbn.
    + apply answers_fresh_eq; in_children H1 H2.
    + apply answers_pure.
  - (* Abst *)
    cbn [tree_eqb]. injection Hk as ->.
    replace (abst_kind_eqb k0 k0) with true
      by (symmetry; now apply abst_kind_eqb_eq).
    cbn [andb]. apply answers_and_then; [assumption | |].
    + apply Hap; in_children H1 H2.
    + intros _ V1 Hinv1. apply Hap; in_children H1 H2.
  - (* Let *)
    rewrite tree_eqb_Let, <- andb_assoc.
    apply answers_and_then; [assumption | |].
    + apply answers_apply_opt; try assumption.
      * intros q Hq. apply H1. apply in_or_app. now left.
      * intros q Hq. apply H2. apply in_or_app. now left.
    + intros _ V1 Hinv1. apply answers_and_then; [assumption | |].
      * apply Hap; [apply H1 | apply H2 | assumption];
          apply in_or_app; right; cbn; auto.
      * intros _ V2 Hinv2.
        apply Hap; [apply H1 | apply H2 | assumption];
          apply in_or_app; right; cbn; auto.
  - (* MetaVar *)
    rewrite tree_eqb_MetaVar, forall2b_map.
    destruct (name_eqb n n0); cbn [andb].
    + now apply answers_compare.
    + apply answers_pure.
Qed.

Lemma tree_eqb_build_kind (ts : list expr) (na nb : node) :
  tree_eqb (build ts na) (build ts nb) = true -> kind na = kind nb.
Proof.
  destruct na, nb; cbn; intros H; try discriminate; try reflexivity.
  apply andb_true_iff in H as [H _]. apply andb_true_iff in H as [H _].
  apply abst_kind_eqb_eq in H. now subst.
Qed.

Lemma apply_answers (fuel : nat) :
  forall a b V,
    a < fuel -> a < length h -> b < length h -> inv_le h V a ->
    exists V',
      expr_eq_fn.apply UseHash h fuel a b V = Some (aeq h a b, V')
      /\ (aeq h a b = true -> ext_le h V V' a).
Proof.
  induction fuel as [| fuel IH]; intros a b V Hf Ha Hb Hinv; [lia |].
  cbn [expr_eq_fn.apply].
  destruct (a =? b) eqn:Eab.
  { apply Nat.eqb_eq in Eab. subst b. exists V. unfold aeq.
    rewrite tree_eqb_refl. split; [reflexivity |].
    intros _ x y Hin. now left. }
  destruct (nth_error h a) as [ca |] eqn:Eca;
    [| apply nth_error_None in Eca; lia].
  destruct (nth_error h b) as [cb |] eqn:Ecb;
    [| apply nth_error_None in Ecb; lia].
  destruct (denote_cell h a Hwf Eca) as [Hcha Hda].
  destruct (denote_cell h b Hwf Ecb) as [Hchb Hdb].
  assert (Haeq : aeq h a b = tree_eqb (build (trees h) (m_node ca))
                                     (build (trees h) (m_node cb))).
  { unfold aeq. now rewrite Hda, Hdb. }
  destruct (UseHash && negb (m_hash ca =? m_hash cb)%N) eqn:Eh.
  { apply andb_true_iff in Eh as [_ Eh]. apply negb_true_iff in Eh.
    apply N.eqb_neq in Eh.
    destruct (aeq h a b) eqn:E.
    - exfalso. apply Eh. eapply Hhash; eauto.
    - exists V. split; [reflexivity | discriminate]. }
  destruct (expr_kind_eqb (kind (m_node ca)) (kind (m_node cb))) eqn:Ek;
    cbn [negb].
  2:{ destruct (aeq h a b) eqn:E.
      - symmetry in Haeq. apply tree_eqb_build_kind in Haeq.
        apply expr_kind_eqb_eq in Haeq. congruence.
      - exists V. split; [reflexivity | discriminate]. }
  apply expr_kind_eqb_eq in Ek.
  assert (Hchild : child_ok h (expr_eq_fn.apply UseHash h fuel) a).
  { intros c d V0 Hc Hd Hinv0.
    destruct (IH c d V0) as (V' & E & Hext); try lia.
    - intros x y Hin Hx. apply Hinv0; [assumption | lia].
    - exists V'. split; [assumption |]. intros Ht x y Hin.
      destruct (Hext Ht x y Hin) as [H | [H1 H2]]; [now left | right].
      split; [lia | assumption]. }
  assert (Hrest :
    kind (m_node ca) <> KindVar ->
    exists V',
      (let sh := is_shared ca && is_shared cb in
       if sh && pair_mem (a, b) V then Some (true, V)
       else expr_eq_fn.apply_switch (expr_eq_fn.apply UseHash h fuel) (m_node ca) (m_node cb)
              (if sh then (a, b) :: V else V))
      = Some (aeq h a b, V')
      /\ (aeq h a b = true -> ext_le h V V' a)).
  { intros Hnv. cbv zeta.
    destruct (is_shared ca && is_shared cb) eqn:Esh; cbn [andb].
    - destruct (pair_mem (a, b) V) eqn:Emem.
      + apply pair_mem_In in Emem.
        rewrite (Hinv a b Emem (le_n a)).
        exists V. split; [reflexivity |]. intros _ x y Hin. now left.
      + destruct (@answers_apply_switch (expr_eq_fn.apply UseHash h fuel) a
                    (m_node ca) (m_node cb) ((a, b) :: V))
          as (V' & E & Hext); try assumption.
        * intros q Hq. specialize (Hchb q Hq). lia.
        * intros x y [Hin | Hin] Hx; [injection Hin as <- <-; lia |].
          apply Hinv; [assumption | lia].
        * rewrite <- Haeq in E, Hext. exists V'. split; [assumption |].
          intros Ht x y Hin.
          destruct (Hext Ht x y Hin) as [[H | H] | [H1 H2]].
          -- injection H as <- <-. right. split; [lia | assumption].
          -- now left.
          -- right. split; [lia | assumption].
    - destruct (@answers_apply_switch (expr_eq_fn.apply UseHash h fuel) a
                  (m_node ca) (m_node cb) V)
        as (V' & E & Hext); try assumption.
      + intros q Hq. specialize (Hchb q Hq). lia.
      + intros x y Hin Hx. apply Hinv; [assumption | lia].
      + rewrite <- Haeq in E, Hext. exists V'. split; [assumption |].
        intros Ht x y Hin.
        destruct (Hext Ht x y Hin) as [H | [H1 H2]]; [now left | right].
        split; [lia | assumption]. }
  destruct (m_node ca) eqn:Ena; try (apply Hrest; cbn; discriminate).
  destruct (m_node cb) eqn:Enb; cbn in Ek; try discriminate.
  rewrite Haeq. cbn. exists V. split; [reflexivity |].
  intros _ x y Hin. now left.
Qed.
End ExprEqCorrect.

Lemma apply_visited (UseHash : bool) (h : store) (fuel : nat) (a b : ptr)
    (ca cb : expr_cell) (V : visited) :
  a <> b ->
  nth_error h a = Some ca ->
  nth_error h b = Some cb ->
  m_hash ca = m_hash cb ->
  kind (m_node ca) = kind (m_node cb) ->
  kind (m_node ca) <> KindVar ->
  is_shared ca = true ->
  is_shared cb = true ->
  In (a, b) V ->
  expr_eq_fn.apply UseHash h (S fuel) a b V = Some (true, V).
Proof.
  intros Hab Hca Hcb Hh Hk Hnv Hsa Hsb Hin.
  cbn [expr_eq_fn.apply].
  apply Nat.eqb_neq in Hab. rewrite Hab, Hca, Hcb, Hh, N.eqb_refl.
  rewrite andb_false_r.
  apply expr_kind_eqb_eq in Hk. rewrite Hk. cbn [negb].
  apply pair_mem_In in Hin. rewrite Hsa, Hsb, Hin. cbn [andb].
  destruct (m_node ca); try reflexivity. now cbn in Hnv.
Qed.

Lemma erase_skipped_erase_abst_names (e : expr) :
  erase_skipped (erase_abst_names e) = erase_skipped e.
Proof.
  induction e using expr_rect_nested; cbn [erase_abst_names erase_skipped];
    try reflexivity.
  - f_equal. rewrite map_map.
    induction H as [| a args Ha Hargs IH]; [reflexivity |].
    cbn [map]. now rewrite Ha, IH.
  - now rewrite IHe1, IHe2.
  - now rewrite IHe1, IHe2, IHe3.
  - now rewrite IHe.
  - now rewrite IHe1, IHe2.
  - rewrite IHe1, IHe2. f_equal.
    destruct ty as [t |]; cbn in *; [now rewrite H | reflexivity].
  - f_equal. rewrite map_map.
    induction H as [| x lctx Hx Hl IH]; [reflexivity |].
    cbn [map]. rewrite IH. f_equal.
    destruct x as [s0 n0 | s0 v]; cbn in *; [reflexivity | now rewrite Hx].
Qed.

(** Expressions equal as the specification words it are equal for the
    program. *)
Lemma hint_eq_tree_eq (a b : expr) : hint_eq a b -> tree_eq a b.
Proof.
  unfold hint_eq, tree_eq. intros H.
  rewrite <- (erase_skipped_erase_abst_names a),
          <- (erase_skipped_erase_abst_names b).
  now rewrite H.
Qed.

(** C4 (amended): on a well-formed store whose hash codes agree on equal
    cells, the test answers [true] at once on one and the same cell,
    [false] on two cells with different hash codes, and [true] at once
    on a pair of shared cells that is in the visited set.  Started with a
    visited set that holds only pairs of equal cells (the empty one of a
    new object, or the one left by comparisons that answered [true]), it
    terminates and answers [true] exactly when the two expressions agree
    in everything but the names of their [Lambda], [Pi], [Sigma] and
    [Let] binders and the types cached in their constants; after the
    answer [true] the visited set is again of that kind.  Expressions
    that differ in name hints of [Lambda], [Pi] and [Sigma] only are
    answered [true]. *)
Theorem expr_eq_decides_tree_eq (UseHash : bool) (h : store) (a b : ptr) :
  wf_store h = true ->
  hash_ok h = true ->
  a < length h ->
  b < length h ->
  (forall V, expr_eq_fn.expr_eq UseHash h a a V = Some (true, V))
  /\ (forall ca cb V,
        a <> b ->
        nth_error h a = Some ca ->
        nth_error h b = Some cb ->
        m_hash ca <> m_hash cb ->
        expr_eq_fn.expr_eq true h a b V = Some (false, V))
  /\ (forall ca cb V,
        a <> b ->
        nth_error h a = Some ca ->
        nth_error h b = Some cb ->
        m_hash ca = m_hash cb ->
        kind (m_node ca) = kind (m_node cb) ->
        kind (m_node ca) <> KindVar ->
        is_shared ca = true ->
        is_shared cb = true ->
        In (a, b) V ->
        expr_eq_fn.expr_eq UseHash h a b V = Some (true, V))
  /\ (forall V,
        visited_ok h V ->
        exists r V',
          expr_eq_fn.expr_eq UseHash h a b V = Some (r, V')
          /\ (r = true <-> tree_eq (denote h a) (denote h b))
          /\ (r = true -> visited_ok h V'))
  /\ (hint_eq (denote h a) (denote h b) ->
      exists V', expr_eq_fn.expr_eq UseHash h a b [] = Some (true, V')).
Proof.
  intros Hwf Hhash Ha Hb.
  assert (H4 : forall V,
        visited_ok h V ->
        exists r V',
          expr_eq_fn.expr_eq UseHash h a b V = Some (r, V')
          /\ (r = true <-> tree_eq (denote h a) (denote h b))
          /\ (r = true -> visited_ok h V')).
  { intros V HV.
    destruct (@apply_answers UseHash h Hwf (hash_ok_spec h Hhash) (S a) a b V)
      as (V' & E & Hext); try lia.
    { intros x y Hin _. now apply HV. }
    exists (aeq h a b), V'. split; [exact E |]. split.
    - unfold aeq. apply tree_eqb_tree_eq.
    - intros Hr x y Hin. destruct (Hext Hr x y Hin) as [Hold | [_ Hnew]];
        [now apply HV | exact Hnew]. }
  split; [| split; [| split; [| split]]].
  - intros V. unfold expr_eq_fn.expr_eq. cbn [expr_eq_fn.apply].
    now rewrite Nat.eqb_refl.
  - intros ca cb V Hab Hca Hcb Hh.
    unfold expr_eq_fn.expr_eq. cbn [expr_eq_fn.apply].
    apply Nat.eqb_neq in Hab. rewrite Hab, Hca, Hcb.
    apply N.eqb_neq in Hh. rewrite Hh. reflexivity.
  - intros ca cb V Hab Hca Hcb Hh Hk Hnv Hsa Hsb Hin.
    unfold expr_eq_fn.expr_eq. now apply (@apply_visited UseHash h a a b ca cb).
  - exact H4.
  - intros Hhint. destruct (H4 []) as (r & V' & E & Hr & _).
    { intros x y []. }
    exists V'. rewrite E. f_equal. f_equal.
    apply Hr. now apply hint_eq_tree_eq.
Qed.

(** Witness of C4: the cells 5 and 6 of [example_store] differ in the
    names of their lambdas only. *)
Lemma expr_eq_decides_tree_eq_witness :
  exists V', expr_eq_fn.expr_eq true example_store 5 6 [] = Some (true, V').
Proof.
  destruct (@expr_eq_decides_tree_eq true example_store 5 6)
    as (_ & _ & _ & _ & H).
  - vm_compute. reflexivity.
  - vm_compute. reflexivity.
  - cbn. lia.
  - cbn. lia.
  - apply H. vm_compute. reflexivity.
Defined.

(** C4 as stated fails in two ways.  The test is not exact on every
    component other than the names of [Lambda], [Pi] and [Sigma]: it
    answers [true] on the constant [c] without and with a cached type and
    on [let x := Int in #0] against [let y := Int in #0].  And the pair
    of two shared cells enters the visited set before their children are
    compared, so that after the answer [false] on [(f a)] and [(f b)] the
    same object, asked again, answers [true]. *)
Lemma expr_eq_coarser_counterexample :
  wf_store hints_store = true
  /\ hash_ok hints_store = true
  /\ wf_store reuse_store = true
  /\ hash_ok reuse_store = true
  /\ (exists V, expr_eq_fn.expr_eq true hints_store 1 2 [] = Some (true, V))
  /\ ~ hint_eq (denote hints_store 1) (denote hints_store 2)
  /\ (exists V, expr_eq_fn.expr_eq true hints_store 5 6 [] = Some (true, V))
  /\ ~ hint_eq (denote hints_store 5) (denote hints_store 6)
  /\ expr_eq_fn.expr_eq true reuse_store 3 4 []
     = Some (false, [(1, 2); (3, 4)])
  /\ expr_eq_fn.expr_eq true reuse_store 3 4 [(1, 2); (3, 4)]
     = Some (true, [(1, 2); (3, 4)])
  /\ ~ tree_eq (denote reuse_store 3) (denote reuse_store 4).
Proof.
  split; [vm_compute; reflexivity |].
  split; [vm_compute; reflexivity |].
  split; [vm_compute; reflexivity |].
  split; [vm_compute; reflexivity |].
  split; [eexists; vm_compute; reflexivity |].
  split; [vm_compute; discriminate |].
  split; [eexists; vm_compute; reflexivity |].
  split; [vm_compute; discriminate |].
  split; [vm_compute; reflexivity |].
  split; [vm_compute; reflexivity |].
  vm_compute. discriminate.
Qed.

(** ** Stores that grow *)

Lemma skel_nodes (h h' : store) :
  skel h = skel h' -> map m_node h = map m_node h'.
Proof.
  unfold skel. intros E. apply (f_equal (map fst)) in E.
  rewrite !map_map in E. exact E.
Qed.

Lemma trees_from_nodes (cells : list expr_cell) :
  forall cells' acc,
    map m_node cells = map m_node cells' ->
    trees_from acc cells = trees_from acc cells'.
Proof.
  induction cells as [| c cells IH]; intros [| c' cells'] acc E;
    cbn in E; try discriminate; [reflexivity |].
  injection E as E1 E2. cbn. rewrite E1. now apply IH.
Qed.

Lemma wf_cells_nodes (cells : list expr_cell) :
  forall cells' base,
    map m_node cells = map m_node cells' ->
    wf_cells base cells = wf_cells base cells'.
Proof.
  induction cells as [| c cells IH]; intros [| c' cells'] base E;
    cbn in E; try discriminate; [reflexivity |].
  injection E as E1 E2. cbn. rewrite E1. f_equal. now apply IH.
Qed.

Lemma skel_length (h : store) : length (skel h) = length h.
Proof. unfold skel. apply length_map. Qed.

Lemma extends_length (h h' : store) : extends h h' -> length h <= length h'.
Proof.
  intros [(more & E) _]. apply (f_equal (@length _)) in E.
  rewrite length_app, !skel_length in E. lia.
Qed.

Lemma extends_cell (h h' : store) (p : ptr) (c : expr_cell) :
  extends h h' ->
  nth_error h p = Some c ->
  exists c', nth_error h' p = Some c'
             /\ m_node c' = m_node c /\ m_hash c' = m_hash c.
Proof.
  intros [(more & E) _] Hp.
  assert (Hs : nth_error (skel h') p = Some (m_node c, m_hash c)).
  { rewrite E, nth_error_app1.
    - unfold skel. rewrite nth_error_map, Hp. reflexivity.
    - rewrite skel_length. apply nth_error_Some. congruence. }
  unfold skel in Hs. rewrite nth_error_map in Hs.
  destruct (nth_error h' p) as [c' |]; [| discriminate].
  cbn in Hs. injection Hs as E1 E2. now exists c'.
Qed.

Lemma extends_trees (h h' : store) :
  extends h h' -> exists ext, trees h' = trees h ++ ext.
Proof.
  intros [(more & E) _].
  assert (Hsplit : h' = firstn (length h) h' ++ skipn (length h) h')
    by (symmetry; apply firstn_skipn).
  assert (Hn : map m_node (firstn (length h) h') = map m_node h).
  { apply skel_nodes. unfold skel in *. rewrite <- firstn_map, E.
    rewrite <- (length_map (fun c => (m_node c, m_hash c)) h).
    rewrite firstn_app, Nat.sub_diag, firstn_all. cbn. apply app_nil_r. }
  unfold trees. rewrite Hsplit, trees_from_app.
  rewrite (trees_from_nodes _ h [] Hn).
  destruct (trees_from_prefix (skipn (length h) h') (trees_from [] h))
    as (ext & Eext & _).
  exists ext. exact Eext.
Qed.

Lemma extends_denote (h h' : store) (p : ptr) :
  extends h h' -> p < length h -> denote h' p = denote h p.
Proof.
  intros Hext Hp. destruct (extends_trees Hext) as (ext & E).
  unfold denote, tree_of. rewrite E. apply app_nth1.
  now rewrite trees_length.
Qed.

Lemma extends_refl (h : store) : extends h h.
Proof.
  split.
  - exists []. now rewrite app_nil_r.
  - intros p c Hp Hc. now exists c.
Qed.

Lemma extends_trans (h1 h2 h3 : store) :
  extends h1 h2 -> extends h2 h3 -> extends h1 h3.
Proof.
  intros [(m1 & E1) F1] [(m2 & E2) F2]. split.
  - exists (m1 ++ m2). now rewrite E2, E1, app_assoc.
  - intros p c Hp Hc. destruct (F1 p c Hp Hc) as (c' & Hp' & Hc').
    now apply (F2 p c').
Qed.

Lemma skel_set_max_shared (h : store) :
  forall p, skel (set_max_shared h p) = skel h.
Proof.
  induction h as [| c h IH]; intros [| p]; cbn; try reflexivity.
  f_equal. apply IH.
Qed.

Lemma set_max_shared_flag (h : store) :
  forall p c, nth_error h p = Some c ->
    exists c', nth_error (set_max_shared h p) p = Some c'
               /\ m_max_shared c' = true.
Proof.
  induction h as [| c0 h IH]; intros [| p] c Hp; cbn in *; try discriminate.
  - eexists. split; reflexivity.
  - now apply (IH p c).
Qed.

Lemma set_max_shared_keeps (h : store) :
  forall p q c, nth_error h q = Some c -> m_max_shared c = true ->
    exists c', nth_error (set_max_shared h p) q = Some c'
               /\ m_max_shared c' = true.
Proof.
  induction h as [| c0 h IH]; intros [| p] [| q] c Hq Hc; cbn in *;
    try discriminate.
  - eexists. split; reflexivity.
  - now exists c.
  - now exists c.
  - now apply (IH p q c).
Qed.

Lemma extends_set_max_shared (h : store) (p : ptr) :
  extends h (set_max_shared h p).
Proof.
  split.
  - exists []. now rewrite skel_set_max_shared, app_nil_r.
  - intros q c. apply set_max_shared_keeps.
Qed.

Lemma extends_app (h : store) (more : list expr_cell) : extends h (h ++ more).
Proof.
  split.
  - exists (skel more). unfold skel. apply map_app.
  - intros p c Hp Hc. exists c. split; [| assumption].
    rewrite nth_error_app1; [assumption |].
    apply nth_error_Some. congruence.
Qed.

(** *** The equality of the program is an equivalence *)

Lemma tree_eqb_sym (a b : expr) : tree_eqb a b = true -> tree_eqb b a = true.
Proof. rewrite !tree_eqb_tree_eq. unfold tree_eq. congruence. Qed.

Lemma tree_eqb_trans (a b c : expr) :
  tree_eqb a b = true -> tree_eqb b c = true -> tree_eqb a c = true.
Proof. rewrite !tree_eqb_tree_eq. unfold tree_eq. congruence. Qed.

(** *** Well-formedness and hash codes along an extension *)

Lemma wf_store_skel (h h' : store) :
  skel h = skel h' -> wf_store h = wf_store h'.
Proof. intros E. apply wf_cells_nodes. now apply skel_nodes. Qed.

Lemma hash_okP_skel (h h' : store) :
  skel h = skel h' -> hash_okP h -> hash_okP h'.
Proof.
  intros E H i j ci cj Hi Hj Ha.
  assert (Ht : trees h' = trees h).
  { unfold trees. apply trees_from_nodes. symmetry. now apply skel_nodes. }
  assert (Hc : forall p c', nth_error h' p = Some c' ->
            exists c, nth_error h p = Some c /\ m_hash c = m_hash c').
  { intros p c' Hp.
    assert (Hs : nth_error (skel h) p = Some (m_node c', m_hash c')).
    { rewrite E. unfold skel. rewrite nth_error_map, Hp. reflexivity. }
    unfold skel in Hs. rewrite nth_error_map in Hs.
    destruct (nth_error h p) as [c |]; [| discriminate].
    cbn in Hs. injection Hs as E1 E2. now exists c. }
  destruct (Hc i ci Hi) as (ci0 & Hi0 & <-).
  destruct (Hc j cj Hj) as (cj0 & Hj0 & <-).
  apply (H i j ci0 cj0 Hi0 Hj0).
  unfold denote in *. now rewrite <- Ht.
Qed.

(** ** Maximal sharing *)

Ltac invert_Forall2 :=
  repeat match goal with
         | H : Forall2 _ _ (_ :: _) |- _ => inversion H; subst; clear H
         | H : Forall2 _ _ [] |- _ => inversion H; subst; clear H
         | H : Forall2 _ (_ :: _) _ |- _ => inversion H; subst; clear H
         | H : Forall2 _ [] _ |- _ => inversion H; subst; clear H
         end.

Lemma forall2b_Forall2 {A B : Type} (f : A -> B -> bool) (l1 : list A) (l2 : list B) :
  forall2b f l1 l2 = true <-> Forall2 (fun x y => f x y = true) l1 l2.
Proof.
  revert l2. induction l1 as [| x l1 IH]; intros [| y l2]; cbn.
  - split; [constructor | reflexivity].
  - split; [discriminate | intros H; inversion H].
  - split; [discriminate | intros H; inversion H].
  - rewrite andb_true_iff, IH. split.
    + intros [H1 H2]. now constructor.
    + intros H. inversion H; subst. now split.
Qed.

Lemma forall2b_eqb_eq (l1 l2 : list nat) :
  forall2b Nat.eqb l1 l2 = true -> l1 = l2.
Proof.
  rewrite forall2b_Forall2. induction 1 as [| x y l1 l2 Hxy Hl IH];
    [reflexivity |].
  apply Nat.eqb_eq in Hxy. congruence.
Qed.

Lemma with_entries_children (lctx : list (local_entry_of ptr)) :
  forall cs,
    length cs = length (flat_map entry_children lctx) ->
    flat_map entry_children (with_entries lctx cs) = cs.
Proof.
  induction lctx as [| [s n | s v] lctx IH]; intros cs Hlen; cbn in *.
  - now destruct cs.
  - now apply IH.
  - destruct cs as [| c cs]; [discriminate |]. cbn. f_equal. apply IH.
    cbn in Hlen. lia.
Qed.

Lemma node_children_with_children (n : node) (cs : list ptr) :
  length cs = length (node_children n) ->
  node_children (with_children n cs) = cs.
Proof.
  destruct n; cbn; intros Hlen;
    repeat (match goal with
            | o : option ptr |- _ => destruct o; cbn in *
            end);
    try (now apply with_entries_children);
    try reflexivity;
    repeat (destruct cs as [| ? cs]; cbn in *; try discriminate; try lia);
    reflexivity.
Qed.

Lemma tree_eq_with_entries (T T' : list expr) (lctx : list (local_entry_of ptr)) :
  forall cs,
    Forall2 (fun c' c => tree_eqb (tree_of T c') (tree_of T' c) = true)
            cs (flat_map entry_children lctx) ->
    forall2b entry_tree_eqb
      (map (entry_map (tree_of T)) (with_entries lctx cs))
      (map (entry_map (tree_of T')) lctx) = true.
Proof.
  induction lctx as [| [s n | s v] lctx IH]; intros cs H; cbn in *.
  - reflexivity.
  - rewrite !N.eqb_refl. cbn. now apply IH.
  - inversion H as [| c' c cs' l' Hc Hrest]; subst. cbn.
    rewrite N.eqb_refl, Hc. cbn. now apply IH.
Qed.

Lemma name_eqb_refl (n : name) : name_eqb n n = true.
Proof. now apply name_eqb_eq. Qed.

Lemma abst_kind_eqb_refl (k : abst_kind) : abst_kind_eqb k k = true.
Proof. now destruct k. Qed.

(** A cell rebuilt over children equal to the old ones is equal to the old
    cell. *)
Lemma tree_eq_build_with_children (T T' : list expr) (n : node) (cs : list ptr) :
  Forall2 (fun c' c => tree_eqb (tree_of T c') (tree_of T' c) = true)
          cs (node_children n) ->
  tree_eqb (build T (with_children n cs)) (build T' n) = true.
Proof.
  destruct n; cbn [node_children]; intros H.
  - apply N.eqb_refl.
  - destruct ty; cbn in H; invert_Forall2; cbn; apply name_eqb_refl.
  - cbn. now apply value_eqb_eq.
  - cbn. now apply level_eqb_eq.
  - cbn [with_children build]. rewrite tree_eqb_App.
    apply forall2b_Forall2.
    induction H; cbn; constructor; assumption.
  - invert_Forall2. cbn.
    repeat match goal with H : tree_eqb _ _ = true |- _ => rewrite H; clear H end.
    reflexivity.
  - invert_Forall2. cbn.
    repeat match goal with H : tree_eqb _ _ = true |- _ => rewrite H; clear H end.
    reflexivity.
  - invert_Forall2. cbn.
    repeat match goal with H : tree_eqb _ _ = true |- _ => rewrite H; clear H end.
    now rewrite eqb_reflx.
  - invert_Forall2. cbn.
    repeat match goal with H : tree_eqb _ _ = true |- _ => rewrite H; clear H end.
    now rewrite abst_kind_eqb_refl.
  - destruct ty; cbn in H; invert_Forall2; cbn;
      repeat match goal with H : tree_eqb _ _ = true |- _ => rewrite H; clear H end;
      reflexivity.
  - cbn [with_children build]. rewrite tree_eqb_MetaVar, name_eqb_refl.
    cbn. now apply tree_eq_with_entries.
Qed.

(** *** The cache *)

Lemma cache_find_sound (st : max_sharing_fn.imp) (a r : ptr) :
  inv st ->
  a < length (fst st) ->
  max_sharing_fn.cache_find st a = Some r ->
  In r (snd st)
  /\ tree_eqb (denote (fst st) r) (denote (fst st) a) = true.
Proof.
  intros (Hwf & Hhash & Hcache) Ha Hfind.
  unfold max_sharing_fn.cache_find in Hfind.
  apply find_some in Hfind as [Hin Heq]. split; [assumption |].
  unfold max_sharing_fn.cache_eq in Heq.
  destruct (Hcache r Hin) as (cr & Hr & _). rewrite Hr in Heq.
  destruct (nth_error (fst st) a); [| discriminate].
  apply andb_true_iff in Heq as [_ Heq].
  assert (Hrl : r < length (fst st)) by (apply nth_error_Some; congruence).
  destruct (@apply_answers true (fst st) Hwf Hhash (S r) r a [])
    as (V' & E & _); try lia.
  { intros x y []. }
  unfold expr_eq_fn.expr_eq in Heq. rewrite E in Heq.
  unfold aeq in Heq. destruct (tree_eqb _ _); [reflexivity | discriminate].
Qed.

Lemma fst_cache_insert (st : max_sharing_fn.imp) (a : ptr) :
  fst (max_sharing_fn.cache_insert st a) = fst st.
Proof.
  unfold max_sharing_fn.cache_insert.
  destruct (max_sharing_fn.cache_find st a); reflexivity.
Qed.

Lemma inv_cache_insert (st : max_sharing_fn.imp) (a : ptr) (ca : expr_cell) :
  inv st ->
  nth_error (fst st) a = Some ca ->
  m_max_shared ca = true ->
  inv (max_sharing_fn.cache_insert st a).
Proof.
  intros (Hwf & Hhash & Hcache) Ha Hf.
  unfold max_sharing_fn.cache_insert.
  destruct (max_sharing_fn.cache_find st a); [now repeat split |].
  cbn. repeat split; try assumption.
  intros c [<- | Hin]; [now exists ca | now apply Hcache].
Qed.

Lemma inv_extends (h h' : store) (cache : list ptr) :
  inv (h, cache) ->
  extends h h' ->
  wf_store h' = true ->
  hash_okP h' ->
  inv (h', cache).
Proof.
  intros (_ & _ & Hcache) Hext Hwf Hhash. cbn in *.
  repeat split; try assumption. cbn.
  intros c Hin. destruct (Hcache c Hin) as (cc & Hc & Hf).
  now apply (proj2 Hext c cc).
Qed.

(** Setting the flag of the result and caching it. *)
Lemma cache_ok (st : max_sharing_fn.imp) (r : ptr) (cr : expr_cell) :
  inv st ->
  nth_error (fst st) r = Some cr ->
  let st' := max_sharing_fn.cache st r in
  inv st'
  /\ extends (fst st) (fst st')
  /\ (exists cr', nth_error (fst st') r = Some cr' /\ m_max_shared cr' = true).
Proof.
  intros Hinv Hr st'. subst st'. unfold max_sharing_fn.cache.
  destruct st as [h cache]. cbn [fst snd] in *.
  set (h' := set_max_shared h r).
  assert (Hext : extends h h') by apply extends_set_max_shared.
  assert (Hskel : skel h = skel h')
    by (symmetry; apply skel_set_max_shared).
  destruct (@set_max_shared_flag h r cr Hr) as (cr' & Hr' & Hf').
  assert (Hinv' : inv (h', cache)).
  { apply (@inv_extends h h' cache Hinv Hext).
    - rewrite <- (@wf_store_skel h h' Hskel). apply Hinv.
    - apply (@hash_okP_skel h h' Hskel). apply Hinv. }
  rewrite fst_cache_insert. cbn [fst].
  split; [| split].
  - now apply (@inv_cache_insert (h', cache) r cr').
  - assumption.
  - now exists cr'.
Qed.

(** A new cell over children equal to those of [a] keeps the store well
    formed and the hash codes consistent. *)
Lemma alloc_ok (h0 h : store) (a : ptr) (ca : expr_cell) (cs' : list ptr) :
  wf_store h0 = true ->
  nth_error h0 a = Some ca ->
  extends h0 h ->
  wf_store h = true ->
  hash_okP h ->
  Forall2 (fun c' c => c' < length h
                       /\ tree_eqb (denote h c') (denote h0 c) = true)
          cs' (node_children (m_node ca)) ->
  let cnew := mk_cell (with_children (m_node ca) cs') (m_hash ca) 1 false in
  let h' := h ++ [cnew] in
  wf_store h' = true
  /\ hash_okP h'
  /\ nth_error h' (length h) = Some cnew
  /\ tree_eqb (denote h' (length h)) (denote h0 a) = true.
Proof.
  intros Hwf0 Ha Hext Hwf Hhash Hcs cnew h'.
  assert (Hlen : length cs' = length (node_children (m_node ca)))
    by (eapply Forall2_length; eauto).
  assert (Hext' : extends h h') by apply extends_app.
  assert (Hnew : nth_error h' (length h) = Some cnew).
  { subst h'. rewrite nth_error_app2, Nat.sub_diag by lia. reflexivity. }
  assert (Hwf' : wf_store h' = true).
  { subst h'. unfold wf_store. rewrite wf_cells_app.
    apply andb_true_iff. split; [exact Hwf |].
    cbn. rewrite andb_true_r. apply forallb_forall. intros q Hq.
    subst cnew. cbn [m_node] in Hq.
    rewrite node_children_with_children in Hq by assumption.
    apply Nat.ltb_lt.
    clear - Hcs Hq. induction Hcs as [| c' c l l' [Hc _] _ IH];
      [destruct Hq |]. destruct Hq as [<- | Hq]; [assumption | now apply IH]. }
  destruct (@denote_cell h0 a ca Hwf0 Ha) as [Hcha Hda].
  assert (Hal : a < length h0) by (apply nth_error_Some; congruence).
  assert (Halpha : tree_eqb (denote h' (length h)) (denote h0 a) = true).
  { destruct (@denote_cell h' (length h) cnew Hwf' Hnew) as [_ Hdn].
    rewrite Hdn, Hda. subst cnew. cbn [m_node].
    apply tree_eq_build_with_children.
    eapply Forall2_impl; [| exact Hcs].
    intros c' c [Hc' Hc]. cbn beta in *.
    change (tree_of (trees h') c') with (denote h' c').
    change (tree_of (trees h0) c) with (denote h0 c).
    now rewrite (@extends_denote h h' c' Hext' Hc'). }
  split; [assumption |]. split; [| split; assumption].
  (* hash codes *)
  destruct (@extends_cell h0 h a ca Hext Ha) as (ca1 & Ha1 & _ & Hh1).
  assert (Hal1 : a < length h) by (apply nth_error_Some; congruence).
  assert (Hold : forall p c, p < length h -> nth_error h' p = Some c ->
                             nth_error h p = Some c).
  { intros p c Hp Hc. subst h'. now rewrite nth_error_app1 in Hc. }
  assert (Hcases : forall p c, nth_error h' p = Some c ->
            (p < length h /\ nth_error h p = Some c)
            \/ (p = length h /\ c = cnew)).
  { intros p c Hc.
    assert (p < length h') by (apply nth_error_Some; congruence).
    subst h'. rewrite length_app in H. cbn in H.
    destruct (Nat.eq_dec p (length h)) as [-> | Hne].
    - right. split; [reflexivity | congruence].
    - left. split; [lia |]. apply Hold; [lia | assumption]. }
  assert (Hda' : denote h' a = denote h0 a).
  { rewrite (@extends_denote h h' a Hext' Hal1). now apply extends_denote. }
  intros i j ci cj Hi Hj Hij.
  destruct (Hcases i ci Hi) as [[Hil Hi'] | [-> ->]];
    destruct (Hcases j cj Hj) as [[Hjl Hj'] | [-> ->]].
  - apply (Hhash i j ci cj Hi' Hj').
    now rewrite <- (@extends_denote h h' i Hext' Hil), <- (@extends_denote h h' j Hext' Hjl).
  - unfold cnew. cbn [m_hash]. rewrite <- Hh1. apply (Hhash i a ci ca1 Hi' Ha1).
    rewrite <- (@extends_denote h h' i Hext' Hil), <- (@extends_denote h h' a Hext' Hal1).
    rewrite Hda'. eapply tree_eqb_trans; eassumption.
  - unfold cnew. cbn [m_hash]. rewrite <- Hh1. apply (Hhash a j ca1 cj Ha1 Hj').
    rewrite <- (@extends_denote h h' j Hext' Hjl), <- (@extends_denote h h' a Hext' Hal1).
    rewrite Hda'. eapply tree_eqb_trans; [| eassumption].
    now apply tree_eqb_sym.
  - reflexivity.
Qed.

Lemma Forall2_impl_right {A B : Type} (R1 R2 : A -> B -> Prop) (l1 : list A)
    (l2 : list B) :
  (forall a b, In b l2 -> R1 a b -> R2 a b) ->
  Forall2 R1 l1 l2 -> Forall2 R2 l1 l2.
Proof.
  intros H HF. induction HF as [| a b l1 l2 Hab HF IH]; constructor.
  - apply H; [now left | assumption].
  - apply IH. intros x y Hy. apply H. now right.
Qed.

Lemma apply_list_ok (ap : ptr -> max_sharing_fn.imp -> option (ptr * max_sharing_fn.imp))
    (A : nat) :
  (forall c st, c < A -> c < length (fst st) -> inv st -> shares c st (ap c st)) ->
  forall cs st,
    (forall c, In c cs -> c < A /\ c < length (fst st)) ->
    inv st ->
    exists cs' st',
      max_sharing_fn.apply_list ap cs st = Some (cs', st')
      /\ inv st'
      /\ extends (fst st) (fst st')
      /\ Forall2 (fun c' c =>
                    c' < length (fst st')
                    /\ tree_eqb (denote (fst st') c') (denote (fst st) c) = true)
                 cs' cs.
Proof.
  intros Hap. induction cs as [| c cs IH]; intros st Hcs Hinv.
  - exists [], st. cbn.
    split; [reflexivity |]. split; [assumption |].
    split; [apply extends_refl | constructor].
  - destruct (Hcs c (or_introl eq_refl)) as [HcA Hcl].
    destruct (Hap c st HcA Hcl Hinv)
      as (c' & st1 & E1 & Hinv1 & Hext1 & (cr & Hcr & Hf) & Hal1).
    assert (Hlen1 := extends_length Hext1).
    destruct (IH st1) as (cs' & st2 & E2 & Hinv2 & Hext2 & Hall);
      [| assumption |].
    { intros q Hq. destruct (Hcs q (or_intror Hq)).
      split; [assumption | eapply Nat.lt_le_trans; eassumption]. }
    assert (Hlen2 := extends_length Hext2).
    assert (Hc'l : c' < length (fst st1)) by (apply nth_error_Some; congruence).
    exists (c' :: cs'), st2. cbn [max_sharing_fn.apply_list].
    rewrite E1, E2. split; [reflexivity |]. split; [assumption |].
    split; [eapply extends_trans; eassumption |].
    { constructor.
      * split; [eapply Nat.lt_le_trans; eassumption |].
        now rewrite (@extends_denote (fst st1) (fst st2) c' Hext2 Hc'l).
      * eapply Forall2_impl_right; [| exact Hall].
        intros q' q Hq [Hq'l Hqa]. cbn beta in *. split; [assumption |].
        destruct (Hcs q (or_intror Hq)) as [_ Hql].
        now rewrite <- (@extends_denote (fst st) (fst st1) q Hext1 Hql). }
Qed.

Lemma apply_ok (fuel : nat) :
  forall a st,
    a < fuel -> a < length (fst st) -> inv st ->
    shares a st (max_sharing_fn.apply fuel a st).
Proof.
  induction fuel as [| fuel IH]; intros a st Hf Ha Hinv; [lia |].
  cbn [max_sharing_fn.apply].
  destruct (max_sharing_fn.cache_find st a) as [r |] eqn:Efind.
  { destruct (cache_find_sound Hinv Ha Efind) as [Hin Hal].
    exists r, st. split; [reflexivity |]. split; [assumption |].
    split; [apply extends_refl |]. split; [| assumption].
    now apply (proj2 (proj2 Hinv)). }
  destruct (nth_error (fst st) a) as [ca |] eqn:Eca;
    [| apply nth_error_None in Eca; lia].
  destruct (m_max_shared ca) eqn:Eflag.
  { exists a, (max_sharing_fn.cache_insert st a).
    rewrite fst_cache_insert. split; [reflexivity |].
    split; [now apply (@inv_cache_insert st a ca) |].
    split; [apply extends_refl |].
    split; [now exists ca | apply tree_eqb_refl]. }
  destruct Hinv as (Hwf & Hhash & Hcache).
  destruct (@denote_cell (fst st) a ca Hwf Eca) as [Hcha _].
  destruct (@apply_list_ok (max_sharing_fn.apply fuel) a) with
    (cs := node_children (m_node ca)) (st := st)
    as (cs' & st1 & E1 & Hinv1 & Hext1 & Hall).
  { intros c st0 Hc Hcl Hinv0. apply IH; [lia | assumption | assumption]. }
  { intros c Hc. specialize (Hcha c Hc). split; lia. }
  { split; [assumption |]. split; assumption. }
  rewrite E1. clear E1.
  assert (Hlen1 := extends_length Hext1).
  destruct (@extends_cell (fst st) (fst st1) a ca Hext1 Eca)
    as (ca1 & Eca1 & _ & _).
  unfold max_sharing_fn.update.
  destruct (forall2b Nat.eqb cs' (node_children (m_node ca))) eqn:Esame.
  - (* no child has changed: the cell itself *)
    destruct (@cache_ok st1 a ca1 Hinv1 Eca1) as (Hinv2 & Hext2 & Hres).
    exists a, (max_sharing_fn.cache st1 a). split; [reflexivity |].
    split; [assumption |].
    assert (Hext : extends (fst st) (fst (max_sharing_fn.cache st1 a)))
      by (eapply extends_trans; eassumption).
    split; [assumption |]. split; [assumption |].
    rewrite (@extends_denote _ _ a Hext Ha). apply tree_eqb_refl.
  - (* a new cell *)
    destruct st1 as [h1 cache1]. cbn [fst snd] in *.
    destruct (@alloc_ok (fst st) h1 a ca cs' Hwf Eca Hext1
                (proj1 Hinv1) (proj1 (proj2 Hinv1)) Hall)
      as (Hwf' & Hhash' & Hnew & Hal).
    set (cnew := mk_cell (with_children (m_node ca) cs') (m_hash ca) 1 false) in *.
    set (h' := h1 ++ [cnew]) in *.
    assert (Hext' : extends h1 h') by apply extends_app.
    assert (Hinv' : inv (h', cache1))
      by (apply (@inv_extends h1 h' cache1 Hinv1 Hext' Hwf' Hhash')).
    destruct (@cache_ok (h', cache1) (length h1) cnew Hinv' Hnew)
      as (Hinv2 & Hext2 & Hres).
    cbn [fst] in Hext2.
    exists (length h1), (max_sharing_fn.cache (h', cache1) (length h1)).
    split; [reflexivity |]. split; [assumption |].
    split; [eapply extends_trans; [exact Hext1 |];
            eapply extends_trans; eassumption |].
    split; [assumption |].
    assert (Hl : length h1 < length h').
    { unfold h'. rewrite length_app. cbn. lia. }
    now rewrite (@extends_denote _ _ (length h1) Hext2 Hl).
Qed.

(** C3 (amended): the cell that [max_sharing(e)] returns carries the
    [max_shared] flag and stands for an expression equal to [e] by the
    program's equality, that is in everything but the names of binders
    and the types cached in constants; the cells that were there stand
    for what they stood for; and [max_sharing] applied to the result hands
    that very cell back with the store untouched, as it does on every
    cell that carries the flag. *)
Theorem max_sharing_equal_and_idempotent (h : store) (a : ptr) :
  wf_store h = true ->
  hash_ok h = true ->
  a < length h ->
  exists r h' cr,
    max_sharing h a = Some (r, h')
    /\ nth_error h' r = Some cr
    /\ m_max_shared cr = true
    /\ tree_eq (denote h' r) (denote h a)
    /\ (forall p, p < length h -> denote h' p = denote h p)
    /\ max_sharing h' r = Some (r, h')
    /\ (forall h2 c2,
          nth_error h2 r = Some c2 -> m_max_shared c2 = true ->
          max_sharing h2 r = Some (r, h2)).
Proof.
  intros Hwf Hhash Ha.
  assert (Hstop : forall r h2 c2,
            nth_error h2 r = Some c2 -> m_max_shared c2 = true ->
            max_sharing h2 r = Some (r, h2)).
  { intros r h2 c2 H1 H2. unfold max_sharing. now rewrite H1, H2. }
  unfold max_sharing at 1.
  destruct (nth_error h a) as [ca |] eqn:Eca;
    [| apply nth_error_None in Eca; lia].
  destruct (m_max_shared ca) eqn:Eflag.
  - exists a, h, ca. split; [reflexivity |]. split; [exact Eca |].
    split; [exact Eflag |]. split; [reflexivity |].
    split; [reflexivity |].
    split; [now apply (Hstop a h ca) | apply Hstop].
  - destruct (@apply_ok (S a) a (h, []))
      as (r & st' & E & Hinv & Hext & (cr & Hcr & Hf) & Hal); cbn [fst]; try lia.
    { split; [assumption |]. split; [now apply hash_ok_spec |].
      intros c []. }
    rewrite E. exists r, (fst st'), cr. split; [reflexivity |].
    split; [exact Hcr |]. split; [exact Hf |].
    split; [now apply tree_eqb_tree_eq |].
    split; [intros p Hp; now apply extends_denote |].
    split; [now apply (Hstop r (fst st') cr) | apply Hstop].
Qed.

(** Witness of C3: the cell 7 of [example_store] applies two cells that
    differ in a binder name; no flag is set in that store. *)
Lemma max_sharing_equal_and_idempotent_witness :
  exists r h' cr,
    max_sharing example_store 7 = Some (r, h')
    /\ nth_error h' r = Some cr
    /\ m_max_shared cr = true
    /\ tree_eq (denote h' r) (denote example_store 7)
    /\ (forall p, p < length example_store ->
                  denote h' p = denote example_store p)
    /\ max_sharing h' r = Some (r, h')
    /\ (forall h2 c2,
          nth_error h2 r = Some c2 -> m_max_shared c2 = true ->
          max_sharing h2 r = Some (r, h2)).
Proof.
  apply max_sharing_equal_and_idempotent.
  - vm_compute. reflexivity.
  - vm_compute. reflexivity.
  - cbn. lia.
Defined.

(** C3 as stated fails where two constants of one name differ in their
    cached type: the cache takes them for equal, so [max_sharing] of
    [(c c)] whose second [c] carries the cached type [Int] returns a new
    cell [(c c)] whose second [c] carries none.  The result is equal to
    the argument for the program, and not structurally. *)
Lemma max_sharing_cached_type_counterexample :
  wf_store hints_store = true
  /\ hash_ok hints_store = true
  /\ denote hints_store 3
     = App [Constant (Name "c") None; Constant (Name "c") (Some Int)]
  /\ exists h',
       max_sharing hints_store 3 = Some (7, h')
       /\ denote h' 7 = App [Constant (Name "c") None; Constant (Name "c") None]
       /\ ~ hint_eq (denote h' 7) (denote hints_store 3).
Proof.
  split; [vm_compute; reflexivity |].
  split; [vm_compute; reflexivity |].
  split; [vm_compute; reflexivity |].
  eexists. split; [vm_compute; reflexivity |].
  split; [vm_compute; reflexivity |].
  vm_compute. discriminate.
Qed.

(** ** Environments *)

Lemma update_cell_length (s : environments) (f : env_cell -> env_cell) :
  forall e, length (update_cell s e f) = length s.
Proof.
  induction s as [| c s IH]; intros [| e]; cbn; try reflexivity.
  now rewrite IH.
Qed.

Lemma nth_error_update_cell_same (s : environments) (f : env_cell -> env_cell) :
  forall e c, nth_error s e = Some c ->
              nth_error (update_cell s e f) e = Some (f c).
Proof.
  induction s as [| c0 s IH]; intros [| e] c H; cbn in *; try discriminate.
  - now injection H as ->.
  - now apply IH.
Qed.

Lemma nth_error_update_cell_other (s : environments) (f : env_cell -> env_cell) :
  forall e p, p <> e -> nth_error (update_cell s e f) p = nth_error s p.
Proof.
  induction s as [| c0 s IH]; intros [| e] [| p] H; cbn; try reflexivity;
    try congruence.
  apply IH. congruence.
Qed.

Lemma update_cell_id (s : environments) (f : env_cell -> env_cell) :
  forall e, (forall c, nth_error s e = Some c -> f c = c) ->
            update_cell s e f = s.
Proof.
  induction s as [| c0 s IH]; intros [| e] H; cbn; try reflexivity.
  - f_equal. now apply H.
  - f_equal. apply IH. intros c Hc. now apply H.
Qed.

Lemma update_cell_twice (s : environments) (f g : env_cell -> env_cell) :
  forall e, update_cell (update_cell s e f) e g = update_cell s e (fun c => g (f c)).
Proof.
  induction s as [| c0 s IH]; intros [| e]; cbn; try reflexivity.
  now rewrite IH.
Qed.

Lemma update_cell_app (s more : environments) (f : env_cell -> env_cell) :
  forall e, e < length s ->
            update_cell (s ++ more) e f = update_cell s e f ++ more.
Proof.
  induction s as [| c0 s IH]; intros [| e] H; cbn in *; try lia;
    try reflexivity.
  f_equal. apply IH. lia.
Qed.

(** A child that is made and dropped leaves the table as it was, but for
    the cell of the child. *)
Lemma drop_mk_child (s : environments) (e : nat) :
  e < length s ->
  drop_child (fst (mk_child s e)) (snd (mk_child s e))
  = s ++ [mk_env (Some e) 0 []].
Proof.
  intros He. unfold mk_child, drop_child. cbn [fst snd].
  rewrite nth_error_app2 by (rewrite update_cell_length; lia).
  rewrite update_cell_length, Nat.sub_diag. cbn [nth_error m_parent].
  rewrite update_cell_app by (rewrite update_cell_length; lia).
  f_equal. rewrite update_cell_twice. apply update_cell_id.
  intros [p k objs] _. reflexivity.
Qed.

Lemma has_children_mk_child (s : environments) (e : nat) :
  e < length s -> has_children (fst (mk_child s e)) e = true.
Proof.
  intros He. unfold mk_child, has_children. cbn [fst].
  destruct (nth_error s e) as [c |] eqn:Ec;
    [| apply nth_error_None in Ec; lia].
  rewrite nth_error_app1 by (rewrite update_cell_length; lia).
  rewrite (nth_error_update_cell_same _ _ _ Ec). reflexivity.
Qed.

Lemma has_children_app (s more : environments) (e : nat) :
  e < length s -> has_children (s ++ more) e = has_children s e.
Proof.
  intros He. unfold has_children. now rewrite nth_error_app1.
Qed.

Lemma wf_envs_parent (s : environments) :
  forall base e c p,
    wf_envs_from base s = true ->
    nth_error s e = Some c ->
    m_parent c = Some p ->
    p < base + e.
Proof.
  induction s as [| c0 s IH]; intros base [| e] c p Hwf He Hp; cbn in *;
    try discriminate.
  - injection He as ->. rewrite Hp in Hwf.
    apply andb_true_iff in Hwf as [Hwf _]. apply Nat.ltb_lt in Hwf. lia.
  - apply andb_true_iff in Hwf as [_ Hwf].
    specialize (IH (S base) e c p Hwf He Hp). lia.
Qed.

Lemma visible_fuel_app (s more : environments) :
  wf_envs s = true ->
  forall fuel e,
    e < length s ->
    visible_fuel (s ++ more) fuel e = visible_fuel s fuel e.
Proof.
  intros Hwf. induction fuel as [| fuel IH]; intros e He; [reflexivity |].
  cbn [visible_fuel]. rewrite nth_error_app1 by assumption.
  destruct (nth_error s e) as [c |] eqn:Ec; [| reflexivity].
  destruct (m_parent c) as [p |] eqn:Ep; [| reflexivity].
  f_equal. apply IH.
  pose proof (wf_envs_parent s 0 e Hwf Ec Ep). lia.
Qed.

Lemma visible_app (s more : environments) (e : nat) :
  wf_envs s = true -> e < length s -> visible (s ++ more) e = visible s e.
Proof. intros Hwf He. now apply visible_fuel_app. Qed.

Lemma read_only_with_children (s : environments) (e : nat) :
  has_children s e = true ->
  (forall n t, add_var s e n t = Err read_only_environment_exception)
  /\ (forall n t v o,
        add_definition s e n t v o = Err read_only_environment_exception)
  /\ (forall n l, define_uvar s e n l = Err read_only_environment_exception).
Proof.
  intros H. split; [| split].
  - intros n t. unfold add_var, check_no_children. now rewrite H.
  - intros n t v o. unfold add_definition, check_no_children. now rewrite H.
  - intros n l. unfold define_uvar, check_no_children. now rewrite H.
Qed.



(** C7: with [a := 1 + 2] and [b := 2 * a], [b] normalizes to [6]; a child
    environment with [c := a] normalizes [c] to [3], and its parent does
    not know [c]. *)
Theorem arithmetic_reduction_scenario :
  exists s,
    env_ab = Ok s
    /\ normalize (visible s 0) (Const "b") = Ok (iVal 6)
    /\ exists s2,
         add_definition (fst (mk_child s 0)) (snd (mk_child s 0))
           (Name "c") Int (Const "a") false = Ok s2
         /\ normalize (visible s2 (snd (mk_child s 0))) (Const "c") = Ok (iVal 3)
         /\ normalize (visible s2 0) (Const "c")
            = Err (unknown_object_exception (Name "c")).
Proof.
  eexists. split; [vm_compute; reflexivity |].
  split; [vm_compute; reflexivity |].
  eexists. split; [vm_compute; reflexivity |].
  split; vm_compute; reflexivity.
Qed.

(** C8: with [u >= 1], [w >= u + 1] and [f : Type u -> Type u], the type
    of [f Int] is [Type u] and [f (Type w)] is an application type
    mismatch at its argument. *)
Theorem universe_cumulativity_scenario :
  exists s,
    env_uw = Ok s
    /\ infer_type (visible s 0) (App [Const "f"; Int])
       = Ok (TypeE (UVar (Name "u")))
    /\ infer_type (visible s 0) (App [Const "f"; TypeE (UVar (Name "w"))])
       = Err (app_type_mismatch_exception
                (App [Const "f"; TypeE (UVar (Name "w"))]) 1
                (TypeE (UVar (Name "u")))
                (TypeE (Succ (UVar (Name "w"))))).
Proof.
  eexists. split; [vm_compute; reflexivity |].
  split; vm_compute; reflexivity.
Qed.

(** ** The metavariable environment *)

Import metavar_env.

Lemma update_contexts (menv : t) (f : cell -> cell) :
  (forall c, m_context (f c) = m_context c) ->
  forall i, map m_context (update menv i f) = map m_context menv.
Proof.
  intros Hf. induction menv as [| c menv IH]; intros [| i]; cbn;
    try reflexivity.
  - now rewrite Hf.
  - now rewrite IH.
Qed.

Lemma context_of_map (menv menv' : t) :
  map m_context menv' = map m_context menv ->
  forall i, context_of menv' i = context_of menv i.
Proof.
  intros E i. unfold context_of.
  rewrite <- !nth_error_map. now rewrite E.
Qed.

Lemma assign_contexts (menv menv' : t) (midx : nat) (s : expr) :
  assign menv midx s = Some menv' ->
  map m_context menv' = map m_context menv.
Proof.
  unfold assign. destruct (nth_error menv (root_midx menv midx)); [| discriminate].
  destruct (occurs _ s); [discriminate |].
  destruct (has_free_var_ge _ _); [discriminate |].
  intros [= <-]. now apply update_contexts.
Qed.

Lemma union_contexts (menv : t) (r1 r2 rank : nat) :
  map m_context (union menv r1 r2 rank) = map m_context menv.
Proof.
  unfold union. rewrite !update_contexts; reflexivity.
Qed.

Lemma context_of_mk_metavar (menv : t) (ctx : context) (i : nat) (c : context) :
  context_of (fst (mk_metavar menv ctx)) i = Some c ->
  (i < length menv /\ context_of menv i = Some c)
  \/ (i = length menv /\ c = ctx).
Proof.
  unfold mk_metavar, context_of. cbn [fst]. intros H.
  destruct (Nat.lt_ge_cases i (length menv)) as [Hi | Hi].
  - left. split; [assumption |]. now rewrite nth_error_app1 in H.
  - right. rewrite nth_error_app2 in H by assumption.
    destruct (i - length menv) as [| k] eqn:Ek.
    + cbn in H. injection H as <-. split; [lia | reflexivity].
    + cbn in H. destruct k; discriminate.
Qed.

Lemma context_of_bound (menv : t) (i : nat) (c : context) :
  context_of menv i = Some c -> i < length menv.
Proof.
  unfold context_of. intros H. apply nth_error_Some.
  destruct (nth_error menv i); [discriminate | discriminate H].
Qed.

Lemma invariants_same_contexts (menv menv' : t) :
  map m_context menv' = map m_context menv ->
  not_in_own_context menv /\ contexts_nested menv /\ contexts_closed menv ->
  not_in_own_context menv' /\ contexts_nested menv' /\ contexts_closed menv'.
Proof.
  intros E (H1 & H2 & H3).
  pose proof (context_of_map menv menv' E) as Hc.
  assert (Hl : length menv' = length menv).
  { apply (f_equal (@length _)) in E. now rewrite !length_map in E. }
  split; [| split].
  - intros i ctx Hi. rewrite Hc in Hi. now apply H1.
  - intros i j c1 c2 Hi Hj Ho. rewrite Hc in Hi, Hj. now apply (H2 i j).
  - intros i j ctx Hj Ho. rewrite Hc in Hj. rewrite Hl. now apply (H3 i j ctx).
Qed.

Lemma invariants_by_construction (menv : t) :
  reachable_by_construction menv ->
  not_in_own_context menv /\ contexts_nested menv /\ contexts_closed menv.
Proof.
  induction 1 as [| menv ctx Hr IH Hctx | menv midx s menv' Hr IH Ha
                  | menv r1 r2 rank Hr IH].
  - repeat split.
    + intros i ctx H. destruct i; discriminate.
    + intros i j c1 c2 H. destruct i; discriminate.
    + intros i j ctx H. destruct j; discriminate.
  - destruct IH as (H1 & H2 & H3).
    assert (Hlen : length (fst (mk_metavar menv ctx)) = S (length menv)).
    { unfold mk_metavar. cbn [fst]. rewrite length_app. cbn. lia. }
    assert (Hold : forall i c, context_of menv i = Some c ->
                     context_of (fst (mk_metavar menv ctx)) i = Some c).
    { intros i c Hi. pose proof (context_of_bound _ _ Hi) as Hb.
      unfold context_of, mk_metavar in *. cbn [fst].
      now rewrite nth_error_app1. }
    split; [| split].
    + intros i c Hi.
      destruct (context_of_mk_metavar _ _ _ Hi) as [[Hb Hi'] | [-> ->]].
      * now apply H1.
      * destruct (occurs_ctx (length menv) ctx) eqn:E; [| reflexivity].
        destruct (Hctx _ E) as (c1 & Hc1 & _).
        apply context_of_bound in Hc1. lia.
    + intros i j c1 c2 Hi Hj Ho.
      destruct (context_of_mk_metavar _ _ _ Hj) as [[Hjb Hj'] | [-> ->]].
      * destruct (context_of_mk_metavar _ _ _ Hi) as [[Hib Hi'] | [-> ->]].
        -- now apply (H2 i j).
        -- pose proof (H3 _ _ _ Hj' Ho). lia.
      * destruct (Hctx _ Ho) as (c1' & Hc1 & Hp).
        apply Hold in Hc1. rewrite Hc1 in Hi. now injection Hi as <-.
    + intros i j c Hj Ho. rewrite Hlen.
      destruct (context_of_mk_metavar _ _ _ Hj) as [[Hjb Hj'] | [-> ->]].
      * pose proof (H3 _ _ _ Hj' Ho). lia.
      * destruct (Hctx _ Ho) as (c1 & Hc1 & _).
        apply context_of_bound in Hc1. lia.
  - apply (@invariants_same_contexts menv menv'); [| assumption].
    now apply (@assign_contexts menv menv' midx s).
  - apply (@invariants_same_contexts menv (union menv r1 r2 rank));
      [| assumption].
    apply union_contexts.
Qed.

(** C5 (amended): the two properties of contexts hold in every state
    reached through [mk_metavar], [assign] and the unions of [unify] as
    long as each context handed to [mk_metavar] is built as the header
    says, from metavariables that exist and over their contexts. *)
Theorem context_invariants_by_construction (menv : t) :
  reachable_by_construction menv ->
  not_in_own_context menv /\ contexts_nested menv.
Proof.
  intros H. destruct (invariants_by_construction H) as (H1 & H2 & _).
  now split.
Qed.

Lemma occurs_ctx_cases (i : nat) (ctx : context) :
  occurs_ctx i ctx = true ->
  exists entry, In entry ctx /\ occurs i (snd entry) = true.
Proof. unfold occurs_ctx. now rewrite existsb_exists. Qed.

(** Witness of C5: the two metavariables of the example of the header. *)
Lemma context_invariants_by_construction_witness :
  not_in_own_context header_example
  /\ contexts_nested header_example.
Proof.
  apply context_invariants_by_construction.
  unfold header_example.
  apply reachc_mk_metavar.
  - apply reachc_mk_metavar; [constructor |].
    intros i Ho. cbn in Ho. discriminate.
  - intros i Ho. cbn in Ho.
    rewrite !orb_false_r in Ho. unfold is_metavar_idx in Ho.
    apply name_eqb_eq in Ho. injection Ho as Ho.
    assert (i = 0) by lia. subst i.
    exists ctx_m1. split; [reflexivity |].
    now exists [(Name "m1", mk_metavar_idx 0)].
Defined.

(** C5 as stated fails: [mk_metavar] takes any context, also one that
    mentions the metavariable it is about to make. *)
Lemma context_invariant_counterexample :
  reachable (fst (mk_metavar [] self_context))
  /\ ~ not_in_own_context
         (fst (mk_metavar [] self_context)).
Proof.
  split.
  - apply reach_mk_metavar. constructor.
  - intros H. specialize (H 0 self_context eq_refl).
    vm_compute in H. discriminate.
Qed.

(** * Further properties of the sources *)

(** ** The traversal *)

(** A traversal whose callback hands back every expression it is shown
    changes nothing. *)
Lemma replace_at_unchanged (f : expr -> N -> option expr) (P : expr -> N -> Prop) :
  (forall m offset, P m offset -> f m offset = None) ->
  (forall args offset a, P (App args) offset -> In a args -> P a offset) ->
  (forall l r offset, P (HEq l r) offset -> P l offset /\ P r offset) ->
  (forall a b t offset, P (Pair a b t) offset ->
                        P a offset /\ P b offset /\ P t offset) ->
  (forall b a offset, P (Proj b a) offset -> P a offset) ->
  (forall k n d b offset, P (Abst k n d b) offset ->
                          P d offset /\ P b (uadd offset 1)) ->
  (forall n ty v b offset, P (Let n ty v b) offset ->
      match ty with Some t => P t offset | None => True end
      /\ P v offset /\ P b (uadd offset 1)) ->
  forall e offset, P e offset -> replace_at f e offset = e.
Proof.
  intros Hf HApp HHEq HPair HProj HAbst HLet.
  induction e using expr_rect_nested; intros offset HP;
    cbn [replace_at]; rewrite (Hf _ _ HP); try reflexivity.
  - unfold mk_app. f_equal.
    assert (Hall : forall a, In a args -> P a offset)
      by (intros a Ha; exact (HApp _ _ _ HP Ha)).
    clear HP. induction H as [| a args Ha Hargs IH]; [reflexivity |].
    cbn [map]. rewrite Ha by (apply Hall; now left).
    rewrite IH by (intros x Hx; apply Hall; now right). reflexivity.
  - destruct (HHEq _ _ _ HP). now rewrite IHe1, IHe2.
  - destruct (HPair _ _ _ _ HP) as (? & ? & ?). now rewrite IHe1, IHe2, IHe3.
  - now rewrite IHe by exact (HProj _ _ _ HP).
  - destruct (HAbst _ _ _ _ _ HP). now rewrite IHe1, IHe2.
  - destruct (HLet _ _ _ _ _ HP) as (Ht & ? & ?).
    rewrite IHe1, IHe2 by assumption.
    destruct ty as [t |]; cbn in *; [rewrite H by assumption |]; reflexivity.
Qed.

(** ** Instantiation: the empty substitution, closed expressions *)

Lemma uadd_0_r (a : N) : uadd (uadd a 0) 0 = uadd a 0.
Proof. unfold uadd, wrap. rewrite !N.add_0_r. now rewrite N.Div0.mod_mod. Qed.

Lemma usub_0_r (v : N) : (v < UINT_MODULUS)%N -> usub v 0 = v.
Proof. intros H. rewrite usub_small; [lia | lia | assumption]. Qed.

Lemma instantiate_fn_nil (ClosedSubst : bool) (s : N) (m : expr) (offset : N) :
  indices_ok m = true ->
  match instantiate_fn ClosedSubst s 0 [] m offset with
  | Some r => r = m
  | None => True
  end.
Proof.
  intros Hok. destruct m; cbn [instantiate_fn add_insts]; try exact I;
    [| reflexivity].
  destruct (uadd offset s <=? idx)%N eqn:E1; [| exact I].
  rewrite N.ltb_antisym. 
  replace (uadd (uadd offset s) 0) with (uadd offset s).
  2:{ unfold uadd, wrap. rewrite N.add_0_r. now rewrite N.Div0.mod_mod. }
  rewrite E1. cbn [negb]. unfold mk_var. f_equal.
  apply usub_0_r. now apply N.ltb_lt.
Qed.

Lemma replace_at_instantiate_fn_nil (ClosedSubst : bool) (s : N) (e : expr) :
  forall offset,
    indices_ok e = true ->
    replace_at (instantiate_fn ClosedSubst s 0 []) e offset = e.
Proof.
  induction e using expr_rect_nested; intros offset Hok;
    cbn [replace_at];
    match goal with
    | |- context [instantiate_fn ?c ?s0 0 [] ?m ?o] =>
        pose proof (@instantiate_fn_nil c s0 m o Hok) as Hfn;
        destruct (instantiate_fn c s0 0 [] m o) eqn:Efn;
        [exact Hfn | clear Hfn]
    end; try reflexivity; cbn [indices_ok] in Hok.
  - unfold mk_app. f_equal. rewrite forallb_forall in Hok.
    clear Efn. induction H as [| a args Ha Hargs IH]; [reflexivity |].
    cbn [map]. rewrite Ha by (apply Hok; now left).
    rewrite IH by (intros x Hx; apply Hok; now right). reflexivity.
  - apply andb_true_iff in Hok as [H1 H2]. now rewrite IHe1, IHe2.
  - apply andb_true_iff in Hok as [H1 H3]. apply andb_true_iff in H1 as [H1 H2].
    now rewrite IHe1, IHe2, IHe3.
  - now rewrite IHe.
  - apply andb_true_iff in Hok as [H1 H2]. now rewrite IHe1, IHe2.
  - apply andb_true_iff in Hok as [H1 H3]. apply andb_true_iff in H1 as [H1 H2].
    rewrite IHe1, IHe2 by assumption.
    destruct ty as [t |]; cbn in *; [rewrite H by assumption |]; reflexivity.
Qed.

(** X1: with no substitution at all [instantiate], in both variants and
    from every start index, hands back an expression equal to its
    argument, whatever variables and metavariables that holds. *)
Theorem instantiate_nothing (ClosedSubst : bool) (e : expr) (s : N) :
  indices_ok e = true ->
  instantiate_core ClosedSubst e s [] = e.
Proof.
  intros Hok. unfold instantiate_core, replace. cbn [length N.of_nat].
  now apply replace_at_instantiate_fn_nil.
Qed.

(** Witness of X1. *)
Lemma instantiate_nothing_witness :
  instantiate_core false
    (Lambda (Name "x") Int (App [Var 1; Var 0; MetaVar (Name "m") []])) 3 []
  = Lambda (Name "x") Int (App [Var 1; Var 0; MetaVar (Name "m") []]).
Proof. apply instantiate_nothing. reflexivity. Defined.

Lemma replace_at_instantiate_fn_below (ClosedSubst : bool) (s : N)
    (subst : list expr) (e : expr) :
  forall d,
    has_free_var_ge e (d + s) = false ->
    (d + s + binder_depth e < UINT_MODULUS)%N ->
    replace_at (instantiate_fn ClosedSubst s (N.of_nat (length subst)) subst) e d
    = e.
Proof.
  induction e using expr_rect_nested; intros d Hfv Hb;
    cbn [has_free_var_ge binder_depth] in Hfv, Hb;
    cbn [replace_at instantiate_fn]; try reflexivity; try discriminate.
  - rewrite (uadd_small d s) by small. now rewrite Hfv.
  - unfold mk_app. f_equal.
    assert (Hall : forall a, In a args ->
              has_free_var_ge a (d + s) = false
              /\ (d + s + binder_depth a < UINT_MODULUS)%N).
    { intros a Hin. split.
      - destruct (has_free_var_ge a (d + s)) eqn:E; [| reflexivity].
        rewrite <- Hfv. symmetry. apply existsb_exists. now exists a.
      - pose proof (fold_right_max_le args a Hin). lia. }
    clear Hfv Hb. induction H as [| a args Ha Hargs IH]; [reflexivity |].
    cbn [map]. destruct (Hall a (or_introl eq_refl)) as [H1 H2].
    rewrite Ha by assumption.
    rewrite IH by (intros x Hx; apply Hall; now right). reflexivity.
  - apply orb_false_iff in Hfv as [H1 H2].
    rewrite IHe1, IHe2 by (assumption || lia). reflexivity.
  - apply orb_false_iff in Hfv as [H1 H3]. apply orb_false_iff in H1 as [H1 H2].
    rewrite IHe1, IHe2, IHe3 by (assumption || lia). reflexivity.
  - rewrite IHe by (assumption || lia). reflexivity.
  - apply orb_false_iff in Hfv as [H1 H2].
    rewrite (uadd_small d 1) by small.
    rewrite IHe1 by (assumption || lia).
    rewrite IHe2; [reflexivity | | lia].
    now replace (d + 1 + s)%N with (d + s + 1)%N by lia.
  - apply orb_false_iff in Hfv as [H1 H3]. apply orb_false_iff in H1 as [H1 H2].
    rewrite (uadd_small d 1) by small.
    rewrite IHe1 by (assumption || lia).
    rewrite IHe2;
      [| now replace (d + 1 + s)%N with (d + s + 1)%N by lia | lia].
    destruct ty as [t |]; cbn in *; [rewrite H by (assumption || lia) |];
      reflexivity.
Qed.

(** X2: an expression that has no free variable from [s] on, and no
    metavariable, is left as it is by [instantiate] from [s], whatever the
    substitution. *)
Theorem instantiate_without_free_var (ClosedSubst : bool) (e : expr) (s : N)
    (subst : list expr) :
  has_free_var_ge e s = false ->
  (s + binder_depth e < UINT_MODULUS)%N ->
  instantiate_core ClosedSubst e s subst = e.
Proof.
  intros Hfv Hb. unfold instantiate_core, replace.
  apply replace_at_instantiate_fn_below; [exact Hfv | lia].
Qed.

(** Witness of X2: the variable [#1] under one binder is the free variable
    [0], below the start index [1]. *)
Lemma instantiate_without_free_var_witness :
  instantiate_core false
    (Lambda (Name "x") Int (App [Var 1; Var 0])) 1 [iVal 7; iVal 8]
  = Lambda (Name "x") Int (App [Var 1; Var 0]).
Proof.
  apply instantiate_without_free_var; [reflexivity | vm_compute; reflexivity].
Defined.

(** ** [replace_var_with_name] and instantiation *)

Lemma replace_var_with_name_fn_eq (c m : expr) (d : N) :
  metavar_free m = true ->
  indices_ok m = true ->
  (d + 1 < UINT_MODULUS)%N ->
  pp.replace_var_with_name_fn c m d = instantiate_fn true 0 1 [c] m d.
Proof.
  intros Hm Hok Hd. destruct m; try reflexivity; [| discriminate].
  cbn [pp.replace_var_with_name_fn instantiate_fn].
  cbn [indices_ok] in Hok. apply N.ltb_lt in Hok.
  rewrite (uadd_small d 0) by small. rewrite N.add_0_r.
  rewrite (uadd_small d 1) by small.
  destruct (d <=? idx)%N eqn:E1; [| reflexivity].
  apply N.leb_le in E1.
  destruct (idx =? d)%N eqn:E2.
  - apply N.eqb_eq in E2. subst idx.
    replace (d <? d + 1)%N with true by (symmetry; apply N.ltb_lt; lia).
    f_equal. rewrite (usub_small (v := d) (a := 0%N)) by small.
    rewrite N.sub_0_r.
    rewrite (usub_small (v := d) (a := d)) by small.
    rewrite N.sub_diag. reflexivity.
  - apply N.eqb_neq in E2.
    replace (idx <? d + 1)%N with false by (symmetry; apply N.ltb_ge; lia).
    reflexivity.
Qed.

(** Two callbacks that agree on every node shown give the same traversal. *)
Lemma replace_at_ext_on (f g : expr -> N -> option expr) (P : expr -> N -> Prop) :
  (forall m offset, P m offset -> f m offset = g m offset) ->
  (forall args offset a, P (App args) offset -> In a args -> P a offset) ->
  (forall l r offset, P (HEq l r) offset -> P l offset /\ P r offset) ->
  (forall a b t offset, P (Pair a b t) offset ->
                        P a offset /\ P b offset /\ P t offset) ->
  (forall b a offset, P (Proj b a) offset -> P a offset) ->
  (forall k n d b offset, P (Abst k n d b) offset ->
                          P d offset /\ P b (uadd offset 1)) ->
  (forall n ty v b offset, P (Let n ty v b) offset ->
      match ty with Some t => P t offset | None => True end
      /\ P v offset /\ P b (uadd offset 1)) ->
  forall e offset, P e offset -> replace_at f e offset = replace_at g e offset.
Proof.
  intros Hf HApp HHEq HPair HProj HAbst HLet.
  induction e using expr_rect_nested; intros offset HP;
    cbn [replace_at]; rewrite (Hf _ _ HP); destruct (g _ offset);
    try reflexivity.
  - unfold mk_app. f_equal.
    assert (Hall : forall a, In a args -> P a offset)
      by (intros a Ha; exact (HApp _ _ _ HP Ha)).
    clear HP. induction H as [| a args Ha Hargs IH]; [reflexivity |].
    cbn [map]. rewrite Ha by (apply Hall; now left).
    rewrite IH by (intros x Hx; apply Hall; now right). reflexivity.
  - destruct (HHEq _ _ _ HP). now rewrite IHe1, IHe2.
  - destruct (HPair _ _ _ _ HP) as (? & ? & ?). now rewrite IHe1, IHe2, IHe3.
  - now rewrite IHe by exact (HProj _ _ _ HP).
  - destruct (HAbst _ _ _ _ _ HP). now rewrite IHe1, IHe2.
  - destruct (HLet _ _ _ _ _ HP) as (Ht & ? & ?).
    rewrite IHe1, IHe2 by assumption.
    destruct ty as [t |]; cbn in *; [rewrite H by assumption |]; reflexivity.
Qed.

Lemma in_range_App k args d a : in_range k (App args) d -> In a args -> in_range k a d.
Proof.
  intros (H1 & H2 & H3) Hin. cbn in H1, H2, H3.
  rewrite forallb_forall in H1, H2.
  pose proof (fold_right_max_le args a Hin).
  repeat split; [now apply H1 | now apply H2 | lia].
Qed.

Lemma in_range_Abst k kd n d b o :
  in_range k (Abst kd n d b) o -> in_range k d o /\ in_range k b (uadd o 1).
Proof.
  intros (H1 & H2 & H3). cbn in H1, H2, H3.
  apply andb_true_iff in H1 as [? ?]. apply andb_true_iff in H2 as [? ?].
  rewrite (uadd_small o 1) by small.
  repeat split; try assumption; lia.
Qed.

Lemma in_range_Let k n ty v b o :
  in_range k (Let n ty v b) o ->
  match ty with Some t => in_range k t o | None => True end
  /\ in_range k v o /\ in_range k b (uadd o 1).
Proof.
  intros (H1 & H2 & H3). cbn in H1, H2, H3.
  apply andb_true_iff in H1 as [H1 ?]. apply andb_true_iff in H1 as [? ?].
  apply andb_true_iff in H2 as [H2 ?]. apply andb_true_iff in H2 as [? ?].
  rewrite (uadd_small o 1) by small.
  destruct ty; repeat split; try assumption; lia.
Qed.

(** X5: [replace_var_with_name(a, n)] puts the constant [n] for the free
    variable [0] of [a] as instantiation does: on an expression without
    metavariable it is [instantiate_with_closed(a, mk_constant(n))]. *)
Theorem replace_var_with_name_is_instantiate (a : expr) (n : name) :
  metavar_free a = true ->
  indices_ok a = true ->
  (binder_depth a + 1 < UINT_MODULUS)%N ->
  pp.replace_var_with_name a n = instantiate_with_closed a [mk_constant n].
Proof.
  intros Hm Hok Hb.
  unfold pp.replace_var_with_name, instantiate_with_closed, instantiate_core, replace.
  cbn [length N.of_nat].
  apply (@replace_at_ext_on _ _ (in_range 1)).
  - intros m d (H1 & H2 & H3). apply replace_var_with_name_fn_eq; try assumption. lia.
  - apply in_range_App.
  - intros l r o (H1 & H2 & H3). cbn in H1, H2, H3.
    apply andb_true_iff in H1 as [? ?]. apply andb_true_iff in H2 as [? ?].
    repeat split; try assumption; lia.
  - intros x y t o (H1 & H2 & H3). cbn in H1, H2, H3.
    apply andb_true_iff in H1 as [H1 ?]. apply andb_true_iff in H1 as [? ?].
    apply andb_true_iff in H2 as [H2 ?]. apply andb_true_iff in H2 as [? ?].
    repeat split; try assumption; lia.
  - intros b x o (H1 & H2 & H3). cbn in H1, H2, H3. now repeat split.
  - apply in_range_Abst.
  - apply in_range_Let.
  - repeat split; try assumption. lia.
Qed.

(** Witness of X5. *)
Lemma replace_var_with_name_is_instantiate_witness :
  pp.replace_var_with_name (Lambda (Name "y") Int (App [Var 1; Var 0; Var 2])) (Name "x")
  = instantiate_with_closed (Lambda (Name "y") Int (App [Var 1; Var 0; Var 2]))
      [mk_constant (Name "x")].
Proof.
  apply replace_var_with_name_is_instantiate;
    [reflexivity | reflexivity | vm_compute; reflexivity].
Defined.

(** ** [beta_reduce] *)

Lemma no_head_beta_unfold (e : expr) :
  no_head_beta e = true -> is_head_beta e = false.
Proof.
  destruct e; cbn [no_head_beta]; intros H;
    apply andb_true_iff in H as [H _]; now apply negb_true_iff in H.
Qed.

Lemma replace_beta_reduce_fn_normal :
  forall (e : expr) (offset : N),
    no_head_beta e = true -> replace_at beta_reduce_fn e offset = e.
Proof.
  apply (@replace_at_unchanged beta_reduce_fn
           (fun m _ => no_head_beta m = true)).
  - intros m o H. unfold beta_reduce_fn.
    now rewrite (no_head_beta_unfold m H).
  - intros args o a H Hin. cbn [no_head_beta] in H.
    apply andb_true_iff in H as [_ H].
    rewrite forallb_forall in H. now apply H.
  - intros l r o H. cbn in H. now apply andb_true_iff in H.
  - intros a b t o H. cbn in H.
    apply andb_true_iff in H as [H1 H3]. apply andb_true_iff in H1 as [H1 H2].
    now repeat split.
  - intros b a o H. cbn in H. exact H.
  - intros k n d b o H. cbn in H. now apply andb_true_iff in H.
  - intros n ty v b o H. cbn in H.
    apply andb_true_iff in H as [H1 H3]. apply andb_true_iff in H1 as [H1 H2].
    destruct ty; now repeat split.
Qed.

(** X3: [beta_reduce] hands back, after one pass, an expression in which
    the traversal meets no head-beta redex. *)
Theorem beta_reduce_normal (t : expr) (fuel : nat) :
  no_head_beta t = true ->
  beta_reduce (S fuel) t = Some t.
Proof.
  intros H. cbn [beta_reduce]. unfold replace.
  rewrite (replace_beta_reduce_fn_normal t 0 H).
  now rewrite tree_eqb_refl.
Qed.

(** Witness of X3. *)
Lemma beta_reduce_normal_witness :
  beta_reduce 1 (Lambda (Name "x") Int (App [Var 0; iVal 1]))
  = Some (Lambda (Name "x") Int (App [Var 0; iVal 1])).
Proof. apply beta_reduce_normal. reflexivity. Defined.

Lemma tree_eqb_head_beta (r t : expr) :
  tree_eqb r t = true -> is_head_beta t = true -> is_head_beta r = true.
Proof.
  intros Ha Ht.
  destruct t as [| | | | [| f args] | | | | | |]; try discriminate.
  destruct r as [| | | | [| g args'] | | | | | |]; try discriminate.
  cbn in Ha. apply andb_true_iff in Ha as [Ha _].
  cbn in Ht |- *.
  destruct f; try discriminate. destruct k; try discriminate.
  destruct g; try discriminate. cbn in Ha.
  destruct k; try discriminate. reflexivity.
Qed.

(** X4: on a head-beta redex whose reduct by [head_beta_reduce] holds no
    head-beta redex, [beta_reduce] returns that reduct; the second pass
    finds nothing to do. *)
Theorem beta_reduce_redex (f : expr) (args : list expr) (r : expr) (fuel : nat) :
  is_lambda f = true ->
  head_beta_reduce (App (f :: args)) = Some r ->
  no_head_beta r = true ->
  beta_reduce (S (S fuel)) (App (f :: args)) = Some r.
Proof.
  intros Hf Hr Hn.
  assert (Hpass : replace beta_reduce_fn (App (f :: args)) = r).
  { unfold replace. cbn [replace_at]. unfold beta_reduce_fn at 1.
    cbn [is_head_beta]. rewrite Hf, Hr. reflexivity. }
  cbn [beta_reduce]. rewrite Hpass.
  destruct (tree_eqb r (App (f :: args))) eqn:E.
  - apply tree_eqb_head_beta in E; [| cbn; exact Hf].
    rewrite (no_head_beta_unfold r Hn) in E. discriminate.
  - unfold replace. rewrite (replace_beta_reduce_fn_normal r 0 Hn).
    now rewrite tree_eqb_refl.
Qed.

(** Witness of X4: [(fun x : Int => #1 x) 7] gives [#0 7]. *)
Lemma beta_reduce_redex_witness :
  beta_reduce 2 (App [Lambda (Name "x") Int (App [Var 1; Var 0]); iVal 7])
  = Some (App [Var 0; iVal 7]).
Proof.
  apply beta_reduce_redex; reflexivity.
Defined.

(** ** Unused names *)

Lemma first_free_spec (u : name -> bool) (c : nat -> name) :
  forall fuel j,
    match first_free u c fuel j with
    | Some j' =>
        j <= j' < j + fuel /\ u (c j') = false
        /\ (forall k, j <= k < j' -> u (c k) = true)
    | None => forall k, j <= k < j + fuel -> u (c k) = true
    end.
Proof.
  induction fuel as [| fuel IH]; intros j; cbn [first_free].
  - intros k Hk. lia.
  - destruct (u (c j)) eqn:E.
    + specialize (IH (S j)). destruct (first_free u c fuel (S j)) as [j' |].
      * destruct IH as (H1 & H2 & H3). repeat split; try lia; try assumption.
        intros k Hk. destruct (Nat.eq_dec k j) as [-> | Hne]; [assumption |].
        apply H3. lia.
      * intros k Hk. destruct (Nat.eq_dec k j) as [-> | Hne]; [assumption |].
        apply IH. lia.
    + repeat split; try lia; try assumption.
Qed.

(** Pigeonhole: more candidates than names in use. *)
Lemma first_free_found (u : name -> bool) (c : nat -> name) (used : list name) :
  (forall x, u x = true -> In x used) ->
  (forall j k, j <= length used -> k <= length used -> c j = c k -> j = k) ->
  exists j,
    first_free u c (S (length used)) 0 = Some j
    /\ j <= length used
    /\ u (c j) = false
    /\ (forall k, k < j -> u (c k) = true).
Proof.
  intros Hused Hinj.
  pose proof (first_free_spec u c (S (length used)) 0) as Hspec.
  destruct (first_free u c (S (length used)) 0) as [j |].
  - destruct Hspec as (H1 & H2 & H3). exists j.
    repeat split; try lia; try assumption. intros k Hk. apply H3. lia.
  - exfalso.
    assert (Hnd : NoDup (map c (seq 0 (S (length used))))).
    { apply NoDup_map_NoDup_ForallPairs; [| apply seq_NoDup].
      intros x y Hx Hy. apply in_seq in Hx, Hy. apply Hinj; lia. }
    assert (Hincl : incl (map c (seq 0 (S (length used)))) used).
    { intros x Hx. apply in_map_iff in Hx as (k & <- & Hk).
      apply in_seq in Hk. apply Hused, Hspec. lia. }
    pose proof (NoDup_incl_length Hnd Hincl) as Hlen.
    rewrite length_map, length_seq in Hlen. lia.
Qed.

Lemma name_neq_numeral (n : name) (k : N) : n <> mk_numeral n k.
Proof.
  induction n as [| p IH s | p IH k']; intros H; try discriminate.
  injection H as H1 H2. subst k'. now apply IH.
Qed.

Lemma unused_name_candidate_inj (n : name) (j k : nat) :
  unused_name_candidate n j = unused_name_candidate n k -> j = k.
Proof.
  destruct j as [| j], k as [| k]; cbn [unused_name_candidate]; intros H.
  - reflexivity.
  - now apply name_neq_numeral in H.
  - symmetry in H. now apply name_neq_numeral in H.
  - assert (H' : N.of_nat (S j) = N.of_nat (S k)) by congruence.
    now apply Nat2N.inj in H'.
Qed.

Lemma get_unused_name_loop_first_free (occurs : name -> expr -> bool)
    (n : name) (b : expr) :
  forall fuel j,
    (N.of_nat (j + fuel) + 1 < UINT_MODULUS)%N ->
    pp.get_unused_name_loop occurs fuel n b (unused_name_candidate n j)
      (N.of_nat j + 1)
    = option_map (unused_name_candidate n)
        (first_free (fun x => occurs x b) (unused_name_candidate n) fuel j).
Proof.
  induction fuel as [| fuel IH]; intros j Hb; [reflexivity |].
  cbn [pp.get_unused_name_loop first_free].
  destruct (occurs (unused_name_candidate n j) b); [| reflexivity].
  rewrite (uadd_small (N.of_nat j + 1) 1) by small.
  replace (N.of_nat j + 1 + 1)%N with (N.of_nat (S j) + 1)%N by lia.
  replace (mk_numeral n (N.of_nat j + 1))
    with (unused_name_candidate n (S j))
    by (cbn [unused_name_candidate]; f_equal; lia).
  apply IH. replace (S j + fuel) with (j + S fuel) by lia. exact Hb.
Qed.

(** X6: when the names that occur in the body of a binder are among
    [used], [get_unused_name] ends within [length used + 1] rounds with a
    name that does not occur in the body: the name [n] of the binder when
    that does not occur, and otherwise [n.i] for the least [i >= 1] for
    which [n.i] does not occur. *)
Theorem get_unused_name_fresh (occurs : name -> expr -> bool) (e b : expr)
    (n : name) (used : list name) :
  (exists k d, e = Abst k n d b) \/ (exists ty v, e = Let n ty v b) ->
  (forall x, occurs x b = true -> In x used) ->
  (N.of_nat (length used) + 2 < UINT_MODULUS)%N ->
  exists n1,
    pp.get_unused_name occurs (S (length used)) e = Some n1
    /\ occurs n1 b = false
    /\ (occurs n b = false -> n1 = n)
    /\ (occurs n b = true ->
        exists i, (1 <= i <= N.of_nat (length used))%N
                  /\ n1 = mk_numeral n i
                  /\ forall j, (1 <= j < i)%N ->
                               occurs (mk_numeral n j) b = true).
Proof.
  intros He Hused Hlen.
  assert (E : pp.get_unused_name occurs (S (length used)) e
              = pp.get_unused_name_loop occurs (S (length used)) n b n 1).
  { destruct He as [(k & d & ->) | (ty & v & ->)]; reflexivity. }
  rewrite E. clear E He.
  change (pp.get_unused_name_loop occurs (S (length used)) n b n 1)
    with (pp.get_unused_name_loop occurs (S (length used)) n b
            (unused_name_candidate n 0) (N.of_nat 0 + 1)).
  rewrite get_unused_name_loop_first_free by (cbn [Nat.add]; lia).
  destruct (@first_free_found (fun x => occurs x b) (unused_name_candidate n)
              used Hused)
    as (j & Hfind & Hj & Hfree & Hbefore).
  { intros j k _ _. apply unused_name_candidate_inj. }
  rewrite Hfind. cbn [option_map].
  exists (unused_name_candidate n j). split; [reflexivity |].
  split; [exact Hfree |]. split.
  - intros Hn. destruct j as [| j]; [reflexivity |].
    specialize (Hbefore 0 (Nat.lt_0_succ j)).
    cbn [unused_name_candidate] in Hbefore. congruence.
  - intros Hn. destruct j as [| j].
    + cbn [unused_name_candidate] in Hfree. congruence.
    + exists (N.of_nat (S j)). split; [lia |]. split; [reflexivity |].
      intros i Hi.
      specialize (Hbefore (N.to_nat i)).
      destruct (N.to_nat i) as [| i'] eqn:Ei; [lia |].
      cbn [unused_name_candidate] in Hbefore.
      replace (N.of_nat (S i')) with i in Hbefore by lia.
      apply Hbefore. lia.
Qed.

(** Witness of X6: the body of [fun x : Int => x] mentions a constant
    [x], so the binder is shown as [x.1]. *)
Lemma get_unused_name_fresh_witness :
  exists n1,
    pp.get_unused_name (fun x e => tree_eqb (Constant x None) e) 2
      (Lambda (Name "x") Int (Const "x")) = Some n1
    /\ n1 = mk_numeral (Name "x") 1.
Proof.
  destruct (@get_unused_name_fresh (fun x e => tree_eqb (Constant x None) e)
              (Lambda (Name "x") Int (Const "x")) (Const "x") (Name "x")
              [Name "x"])
    as (n1 & E & _ & _ & H).
  - left. now exists KLambda, Int.
  - intros x Hx. cbn in Hx. apply name_eqb_eq in Hx. now left.
  - vm_compute. reflexivity.
  - exists n1. split; [exact E |].
    destruct (H eq_refl) as (i & Hi & -> & _). cbn in Hi.
    f_equal. lia.
Defined.

Lemma find_unused_prefix_loop_first_free (uses_prefix : expr -> name -> bool)
    (e : expr) :
  forall fuel j,
    (N.of_nat (j + fuel) + 1 < UINT_MODULUS)%N ->
    pp_fn.find_unused_prefix_loop uses_prefix fuel e (N.of_nat (S j))
      (unused_prefix_candidate j)
    = option_map unused_prefix_candidate
        (first_free (uses_prefix e) unused_prefix_candidate fuel j).
Proof.
  induction fuel as [| fuel IH]; intros j Hb; [reflexivity |].
  cbn [pp_fn.find_unused_prefix_loop first_free].
  destruct (uses_prefix e (unused_prefix_candidate j)); [| reflexivity].
  rewrite (uadd_small (N.of_nat (S j)) 1) by small.
  replace (N.of_nat (S j) + 1)%N with (N.of_nat (S (S j))) by lia.
  apply IH. replace (S j + fuel) with (j + S fuel) by lia. exact Hb.
Qed.

(** X7: when the prefixes that an expression uses are among [used],
    [find_unused_prefix] ends with a prefix that the expression does not
    use: [a], or [b], or some [c.i]. *)
Theorem find_unused_prefix_fresh (uses_prefix : expr -> name -> bool)
    (e : expr) (used : list name) :
  (forall x, uses_prefix e x = true -> In x used) ->
  (N.of_nat (length used) + 2 < UINT_MODULUS)%N ->
  exists r,
    pp_fn.find_unused_prefix uses_prefix (S (length used)) e = Some r
    /\ uses_prefix e r = false
    /\ (r = pp_fn.g_a \/ r = pp_fn.g_b
        \/ exists i, (1 <= i <= N.of_nat (length used) + 1)%N
                     /\ r = mk_numeral pp_fn.g_c i).
Proof.
  intros Hused Hlen. unfold pp_fn.find_unused_prefix.
  destruct (uses_prefix e pp_fn.g_a) eqn:Ea; cbn [negb];
    [| exists pp_fn.g_a; repeat split; [assumption | now left]].
  destruct (uses_prefix e pp_fn.g_b) eqn:Eb; cbn [negb];
    [| exists pp_fn.g_b; repeat split; [assumption | now right; left]].
  change (pp_fn.find_unused_prefix_loop uses_prefix (S (length used)) e 1
            (mk_numeral pp_fn.g_c 1))
    with (pp_fn.find_unused_prefix_loop uses_prefix (S (length used)) e
            (N.of_nat 1) (unused_prefix_candidate 0)).
  rewrite find_unused_prefix_loop_first_free by (cbn [Nat.add]; lia).
  destruct (@first_free_found (uses_prefix e) unused_prefix_candidate
              used Hused)
    as (j & Hfind & Hj & Hfree & _).
  { intros j k _ _ H. unfold unused_prefix_candidate in H.
    assert (H' : N.of_nat (S j) = N.of_nat (S k)) by congruence.
    apply Nat2N.inj in H'. lia. }
  rewrite Hfind. cbn [option_map].
  exists (unused_prefix_candidate j). repeat split; [assumption |].
  right; right. exists (N.of_nat (S j)). split; [lia | reflexivity].
Qed.

(** Witness of X7: with [a] and [b] in use the prefix is some [c.i]. *)
Lemma find_unused_prefix_fresh_witness :
  exists r,
    pp_fn.find_unused_prefix
      (fun _ n => name_eqb n pp_fn.g_a || name_eqb n pp_fn.g_b) 3 (Const "a")
    = Some r
    /\ (name_eqb r pp_fn.g_a || name_eqb r pp_fn.g_b) = false.
Proof.
  destruct (@find_unused_prefix_fresh
              (fun _ n => name_eqb n pp_fn.g_a || name_eqb n pp_fn.g_b)
              (Const "a") [pp_fn.g_a; pp_fn.g_b])
    as (r & E & Hr & _).
  - intros x Hx. apply orb_true_iff in Hx as [Hx | Hx];
      apply name_eqb_eq in Hx; subst x; [now left | now right; left].
  - vm_compute. reflexivity.
  - exists r. split; [exact E | exact Hr].
Defined.

(** ** Arrows *)

Lemma arrow_tail_spec (hfv : expr -> N -> N -> bool) (b : expr) :
  pp_fn.arrow_tail hfv b = true
  <-> forall j, j <= num_pis b -> hfv (strip_binders j b) 0%N 1%N = false.
Proof.
  induction b using expr_rect_nested;
    try (cbn [pp_fn.arrow_tail num_pis];
         match goal with
         | |- context [hfv ?e 0%N 1%N] => destruct (hfv e 0%N 1%N) eqn:E
         end;
         split; intros Hx;
         [ discriminate
         | specialize (Hx 0 (Nat.le_0_l _)); cbn [strip_binders] in Hx;
           congruence
         | intros j Hj; replace j with 0 by lia; exact E
         | reflexivity ]).
  cbn [pp_fn.arrow_tail].
  destruct (hfv (Abst k n b1 b2) 0%N 1%N) eqn:E.
  - split; intros H; [discriminate |].
    specialize (H 0 (Nat.le_0_l _)). cbn [strip_binders] in H. congruence.
  - destruct k.
    + split; intros H; [| reflexivity].
      intros j Hj. cbn [num_pis] in Hj. replace j with 0 by lia. exact E.
    + cbn [num_pis]. rewrite IHb2. split; intros H j Hj.
      * destruct j as [| j]; [exact E |]. cbn [strip_binders abst_body].
        apply H. lia.
      * apply (H (S j)). lia.
    + split; intros H; [| reflexivity].
      intros j Hj. cbn [num_pis] in Hj. replace j with 0 by lia. exact E.
Qed.

Lemma arrows_from_body (hfv : expr -> N -> N -> bool) k n d b (p : nat) :
  k = KPi ->
  arrows_from hfv (Abst k n d b) (S p) <-> arrows_from hfv b p.
Proof.
  intros ->. unfold arrows_from. cbn [num_pis]. split; intros H j Hj.
  - apply (H (S j)). lia.
  - destruct j as [| j]; [lia |]. cbn [strip_binders abst_body].
    apply (H j). lia.
Qed.

Lemma arrows_from_tail (hfv : expr -> N -> N -> bool) n d b :
  arrows_from hfv (Pi n d b) 0 <-> pp_fn.arrow_tail hfv b = true.
Proof.
  rewrite arrow_tail_spec. unfold arrows_from. cbn [num_pis].
  split; intros H j Hj.
  - apply (H j). lia.
  - cbn [strip_binders abst_body]. apply H. lia.
Qed.

Lemma get_arrow_starting_at_loop_spec (hfv : expr -> N -> N -> bool) (e : expr) :
  forall pos : nat,
    (N.of_nat (pos + num_pis e) < UINT_MAX)%N ->
    (forall p, p < num_pis e ->
               arrows_from hfv e p ->
               (forall q, q < p -> ~ arrows_from hfv e q) ->
               pp_fn.get_arrow_starting_at_loop hfv e (N.of_nat pos)
               = N.of_nat (pos + p))
    /\ ((forall p, p < num_pis e -> ~ arrows_from hfv e p) ->
        pp_fn.get_arrow_starting_at_loop hfv e (N.of_nat pos) = UINT_MAX).
Proof.
  induction e using expr_rect_nested; intros pos Hb;
    try (split; [cbn [num_pis]; intros p Hp; lia | reflexivity]).
  destruct k; try (split; [cbn [num_pis]; intros p Hp; lia | reflexivity]).
  cbn [num_pis] in Hb. cbn [pp_fn.get_arrow_starting_at_loop].
  pose proof (arrows_from_tail hfv n e1 e2) as Htail.
  destruct (pp_fn.arrow_tail hfv e2) eqn:E.
  - split.
    + intros p Hp Hfrom Hmin. destruct p as [| p]; [f_equal; lia |].
      exfalso. apply (Hmin 0); [lia |]. now apply Htail.
    + intros Hnone. exfalso. apply (Hnone 0); [cbn [num_pis]; lia |].
      now apply Htail.
  - assert (H0 : ~ arrows_from hfv (Pi n e1 e2) 0).
    { intros H. apply Htail in H. congruence. }
    rewrite (uadd_small (N.of_nat pos) 1) by (unfold UINT_MAX in Hb; small).
    replace (N.of_nat pos + 1)%N with (N.of_nat (S pos)) by lia.
    destruct (IHe2 (S pos)) as [IH1 IH2];
      [replace (S pos + num_pis e2) with (pos + S (num_pis e2)) by lia;
       exact Hb |].
    split.
    + intros p Hp Hfrom Hmin. cbn [num_pis] in Hp.
      destruct p as [| p]; [contradiction |].
      replace (pos + S p) with (S pos + p) by lia.
      apply IH1; [lia | now apply (arrows_from_body hfv n e1 e2 p eq_refl) |].
      intros q Hq Hfq. apply (Hmin (S q)); [lia |].
      now apply (arrows_from_body hfv n e1 e2 q eq_refl).
    + intros Hnone. apply IH2. intros p Hp Hfp.
      apply (Hnone (S p)); [cbn [num_pis]; lia |].
      now apply (arrows_from_body hfv n e1 e2 p eq_refl).
Qed.

(** X8: [get_arrow_starting_at(e)] is the least position [p] such that
    from the [p]-th leading [Pi] of [e] on no [Pi] has its variable in its
    body, and [UINT_MAX] when there is no such position, as when [e] is no
    [Pi]. *)
Theorem get_arrow_starting_at_least (has_free_var : expr -> N -> N -> bool)
    (e : expr) :
  (N.of_nat (num_pis e) < UINT_MAX)%N ->
  (forall p, p < num_pis e ->
             arrows_from has_free_var e p ->
             (forall q, q < p -> ~ arrows_from has_free_var e q) ->
             pp_fn.get_arrow_starting_at has_free_var e = N.of_nat p)
  /\ ((forall p, p < num_pis e -> ~ arrows_from has_free_var e p) ->
      pp_fn.get_arrow_starting_at has_free_var e = UINT_MAX).
Proof.
  intros Hb. unfold pp_fn.get_arrow_starting_at.
  destruct (is_pi e) eqn:Epi; cbn [negb].
  - change 0%N with (N.of_nat 0).
    destruct (@get_arrow_starting_at_loop_spec has_free_var e 0 Hb) as [H1 H2].
    split; [| exact H2]. intros p Hp Hfrom Hmin.
    now rewrite (H1 p Hp Hfrom Hmin).
  - split; [| reflexivity]. intros p Hp.
    destruct e; try (cbn in Hp; lia). destruct k; try (cbn in Hp; lia).
    discriminate.
Qed.

(** Witness of X8: [Pi A : Type, Pi x : A, Pi y : A, A] is an arrow from
    position [1] on. *)
Lemma get_arrow_starting_at_least_witness :
  pp_fn.get_arrow_starting_at has_free_var
    (Pi (Name "A") (TypeE Zero)
       (Pi (Name "x") (Var 0) (Pi (Name "y") (Var 1) (Var 2))))
  = 1%N.
Proof.
  refine (proj1 (@get_arrow_starting_at_least has_free_var
    (Pi (Name "A") (TypeE Zero)
       (Pi (Name "x") (Var 0) (Pi (Name "y") (Var 1) (Var 2)))) _) 1 _ _ _).
  - vm_compute. reflexivity.
  - cbn. lia.
  - intros j Hj. cbn in Hj.
    destruct j as [| [| [| j]]]; try lia; reflexivity.
  - intros q Hq Hfrom. assert (q = 0) by lia. subst q.
    specialize (Hfrom 0). cbn in Hfrom.
    assert (H : true = false) by (apply Hfrom; lia). discriminate.
Defined.

(** ** The arguments that an application shows *)

Lemma shown_nil (i : N) : pp_fn.application.shown [] i = true.
Proof. now destruct i. Qed.

Lemma shown_cons (b : bool) (mask : list bool) (i : nat) :
  pp_fn.application.shown (b :: mask) (N.of_nat (S i))
  = pp_fn.application.shown mask (N.of_nat i).
Proof.
  unfold pp_fn.application.shown. cbn [length].
  rewrite !Nat2N.id. cbn [nth]. f_equal.
  apply eq_true_iff_eq. rewrite !N.leb_le. lia.
Qed.

Lemma flags_from_tl (mask0 : list bool) (i0 : nat) (mask : list bool) :
  flags_from mask0 i0 mask -> flags_from mask0 (S i0) (tl mask).
Proof.
  intros H k. replace (S i0 + k) with (i0 + S k) by lia. rewrite H.
  destruct mask as [| b mask]; [now rewrite !shown_nil |].
  apply shown_cons.
Qed.

Lemma explicit_args_step (mask : list bool) (x : expr) (rest : list expr) :
  explicit_args mask (x :: rest)
  = if pp_fn.application.shown mask 0 then x :: explicit_args (tl mask) rest
    else explicit_args (tl mask) rest.
Proof.
  destruct mask as [| [|] mask]; cbn [explicit_args tl]; try reflexivity.
  rewrite shown_nil. destruct rest; reflexivity.
Qed.

Lemma get_num_args_loop_spec (mask0 : list bool) (args : list expr) :
  forall mask i0 r,
    flags_from mask0 i0 mask ->
    (N.of_nat (i0 + length args) < UINT_MODULUS)%N ->
    (r + N.of_nat (length args) < UINT_MODULUS)%N ->
    pp_fn.application.get_num_args_loop mask0 (length args) (N.of_nat i0) r
    = (r + N.of_nat (length (explicit_args mask args)))%N.
Proof.
  induction args as [| x rest IH]; intros mask i0 r Hm Hi Hr.
  - cbn. lia.
  - cbn [length pp_fn.application.get_num_args_loop]. cbn [length] in Hi, Hr.
    rewrite (uadd_small (N.of_nat i0) 1) by small.
    replace (N.of_nat i0 + 1)%N with (N.of_nat (S i0)) by lia.
    rewrite explicit_args_step.
    pose proof (Hm 0) as H0. rewrite Nat.add_0_r in H0. rewrite H0.
    change (N.of_nat 0) with 0%N.
    destruct (pp_fn.application.shown mask 0).
    + rewrite (uadd_small r 1) by small.
      rewrite (IH (tl mask)); [cbn [length]; lia | now apply flags_from_tl | lia | lia].
    + rewrite (IH (tl mask)); [lia | now apply flags_from_tl | lia | lia].
Qed.

Lemma get_arg_loop_spec (mask0 : list bool) (rest : list expr) :
  forall pre mask i,
    pre <> [] ->
    flags_from mask0 (length pre - 1) mask ->
    (N.of_nat (length pre + length rest) < UINT_MODULUS)%N ->
    (i < UINT_MODULUS)%N ->
    pp_fn.application.get_arg_loop mask0 (App (pre ++ rest)) (length rest)
      (N.of_nat (length pre)) i
    = nth_error (explicit_args mask rest) (N.to_nat i).
Proof.
  induction rest as [| x rest IH]; intros pre mask i Hpre Hm Hb Hi.
  - cbn. now destruct (N.to_nat i).
  - assert (Hlen : 1 <= length pre) by (destruct pre; [congruence | cbn; lia]).
    cbn [length pp_fn.application.get_arg_loop]. cbn [length] in Hb.
    rewrite (usub_small (v := N.of_nat (length pre)) (a := 1%N)) by small.
    replace (N.of_nat (length pre) - 1)%N with (N.of_nat (length pre - 1 + 0))
      by lia.
    rewrite Hm. change (N.of_nat 0) with 0%N.
    rewrite explicit_args_step.
    rewrite (uadd_small (N.of_nat (length pre)) 1) by small.
    assert (IH' : forall i', (i' < UINT_MODULUS)%N ->
              pp_fn.application.get_arg_loop mask0 (App (pre ++ x :: rest))
                (length rest) (N.of_nat (length pre) + 1) i'
              = nth_error (explicit_args (tl mask) rest) (N.to_nat i')).
    { intros i' Hi'.
      specialize (IH (pre ++ [x]) (tl mask) i').
      rewrite <- app_assoc in IH. cbn [app] in IH.
      rewrite length_app in IH. cbn [length] in IH.
      replace (N.of_nat (length pre + 1)) with (N.of_nat (length pre) + 1)%N
        in IH by lia.
      apply IH; [destruct pre; discriminate | | small | assumption].
      replace (length pre + 1 - 1) with (S (length pre - 1)) by lia.
      now apply flags_from_tl. }
    destruct (pp_fn.application.shown mask 0).
    + destruct (i =? 0)%N eqn:E0.
      * apply N.eqb_eq in E0. subst i. cbn [N.to_nat nth_error arg].
        rewrite Nat2N.id. rewrite app_nth2 by lia.
        now rewrite Nat.sub_diag.
      * apply N.eqb_neq in E0.
        rewrite (usub_small (v := i) (a := 1%N)) by small.
        rewrite IH' by lia.
        replace (N.to_nat i) with (S (N.to_nat (i - 1))) by lia.
        reflexivity.
    + now apply IH'.
Qed.

(** X9: [get_num_args] counts the arguments that are not flagged implicit
    and [get_arg(i)], for [i] below that count, returns the [i]-th of
    them and does not reach [lean_unreachable]; the arguments beyond the
    flags are shown, and without flags all arguments are. *)
Theorem application_shows_explicit_args (f : expr) (args : list expr)
    (flags : option (list bool)) :
  (N.of_nat (length args) + 1 < UINT_MODULUS)%N ->
  let a := pp_fn.application.mk (App (f :: args)) flags in
  let shown := match flags with
               | Some mask => explicit_args mask args
               | None => args
               end in
  pp_fn.application.get_num_args a = N.of_nat (length shown)
  /\ forall i, (i < N.of_nat (length shown))%N ->
               pp_fn.application.get_arg a i = Some (nth (N.to_nat i) shown (Var 0)).
Proof.
  intros Hb a shown. subst a shown.
  unfold pp_fn.application.get_num_args, pp_fn.application.get_arg.
  cbn [pp_fn.application.m_app pp_fn.application.m_implicit_args num_args length].
  assert (Hn : usub (N.of_nat (S (length args))) 1 = N.of_nat (length args)).
  { rewrite usub_small by small. lia. }
  assert (Hle : forall mask, length (explicit_args mask args) <= length args).
  { intros mask. revert mask.
    induction args as [| x rest IH]; intros mask; [cbn; lia |].
    rewrite explicit_args_step.
    assert (N.of_nat (length rest) + 1 < UINT_MODULUS)%N
      by (cbn [length] in Hb; lia).
    assert (usub (N.of_nat (S (length rest))) 1 = N.of_nat (length rest))
      by (rewrite usub_small by small; lia).
    specialize (IH H H0 (tl mask)).
    destruct (pp_fn.application.shown mask 0); cbn [length]; lia. }
  destruct flags as [mask |].
  - split.
    + rewrite Hn, Nat2N.id. change 0%N with (N.of_nat 0) at 1.
      rewrite (@get_num_args_loop_spec mask args mask 0 0);
        [lia | intros k; reflexivity | cbn [Nat.add]; lia | lia].
    + intros i Hi.
      replace (N.to_nat (N.of_nat (S (length args)) - 1)) with (length args)
        by lia.
      change 1%N with (N.of_nat (length [f])) at 1.
      change (f :: args) with ([f] ++ args).
      rewrite (@get_arg_loop_spec mask args [f] mask i);
        [| discriminate | intros k; reflexivity | cbn [length]; lia |].
      * apply nth_error_nth'. lia.
      * specialize (Hle mask). small.
  - split; [exact Hn |].
    intros i Hi. f_equal. cbn [arg].
    rewrite (uadd_small i 1) by small.
    replace (N.to_nat (i + 1)) with (S (N.to_nat i)) by lia. reflexivity.
Qed.

(** Witness of X9: [f (Int -> Int) g 10] with the first argument
    implicit shows [g] and [10]. *)
Lemma application_shows_explicit_args_witness :
  let a := pp_fn.application.mk (App [Const "f"; Int; Const "g"; iVal 10])
             (Some [true; false]) in
  pp_fn.application.get_num_args a = 2%N
  /\ pp_fn.application.get_arg a 0 = Some (Const "g")
  /\ pp_fn.application.get_arg a 1 = Some (iVal 10).
Proof.
  destruct (@application_shows_explicit_args (Const "f")
              [Int; Const "g"; iVal 10] (Some [true; false])) as [H1 H2].
  - vm_compute. reflexivity.
  - cbv zeta. split; [exact H1 |]. split.
    + apply (H2 0%N). vm_compute. reflexivity.
    + apply (H2 1%N). vm_compute. reflexivity.
Defined.

(** ** The other builtin values *)

(** X10: the [normalize] hook of [<=] produces a result exactly on three
    entries whose last two are integer literals, and then the Boolean
    value of the comparison of the two numerals; on every other list of
    entries it returns [false]; it always returns.  The hooks of the type
    [Int] and of the integer literals return [false]. *)
Theorem int_le_normalize_iff (args : list expr) (r : expr) :
  (value_normalize int_le_value args = hook_true r
   <-> exists f v1 v2,
         args = [f; mk_int_value v1; mk_int_value v2]
         /\ r = Value (bool_value_value (v1 <=? v2)%Z))
  /\ (value_normalize int_le_value args = hook_false
      <-> ~ exists f v1 v2, args = [f; mk_int_value v1; mk_int_value v2])
  /\ value_normalize int_le_value args <> hook_fault
  /\ value_normalize int_type_value args = hook_false
  /\ (forall v, value_normalize (int_value_value v) args = hook_false).
Proof.
  cbn [value_normalize].
  split; [| split; [| split; [| split; [reflexivity | reflexivity]]]].
  - split.
    + destruct args as [| f [| a1 [| a2 [| x rest]]]]; try discriminate.
      destruct (is_int_value a1) eqn:E1; [| discriminate].
      destruct (is_int_value a2) eqn:E2; [| discriminate].
      cbn [andb]. intros [= <-].
      exists f, (int_value_numeral a1), (int_value_numeral a2).
      now rewrite <- !is_int_value_inv.
    + intros (f & v1 & v2 & -> & ->). reflexivity.
  - split.
    + intros H (f & v1 & v2 & ->). discriminate.
    + intros H.
      destruct args as [| f [| a1 [| a2 [| x rest]]]]; try reflexivity.
      destruct (is_int_value a1) eqn:E1; [| reflexivity].
      destruct (is_int_value a2) eqn:E2; [| reflexivity].
      exfalso. apply H.
      exists f, (int_value_numeral a1), (int_value_numeral a2).
      now rewrite <- !is_int_value_inv.
  - destruct args as [| f [| a1 [| a2 [| x rest]]]]; try discriminate.
    destruct (is_int_value a1 && is_int_value a2); discriminate.
Qed.

(** X11: an integer literal is recognised and gives its numeral back, and
    every expression that [is_int_value] accepts is the literal of its
    numeral. *)
Theorem int_value_round_trip :
  (forall v, is_int_value (mk_int_value v) = true
             /\ int_value_numeral (mk_int_value v) = v)
  /\ (forall e, is_int_value e = true <-> exists v, e = mk_int_value v)
  /\ (forall e, is_int_value e = true ->
                mk_int_value (int_value_numeral e) = e).
Proof.
  split; [intros v; split; reflexivity |]. split.
  - intros e. split.
    + intros H. exists (int_value_numeral e). now apply is_int_value_inv.
    + intros (v & ->). reflexivity.
  - intros e H. symmetry. now apply is_int_value_inv.
Qed.

(** ** One cell for equal expressions *)

Lemma list_sum_map_ext {A : Type} (f g : A -> nat) (l : list A) :
  Forall (fun x => f x = g x) l -> list_sum (map f l) = list_sum (map g l).
Proof.
  induction 1 as [| x l Hx Hl IH]; [reflexivity |].
  change (f x + list_sum (map f l) = g x + list_sum (map g l)).
  now rewrite Hx, IH.
Qed.

Lemma list_sum_map_In {A : Type} (f : A -> nat) (l : list A) (x : A) :
  In x l -> f x <= list_sum (map f l).
Proof.
  induction l as [| y l IH]; [intros [] |].
  change (list_sum (map f (y :: l))) with (f y + list_sum (map f l)).
  intros [-> | Hin]; [lia |]. specialize (IH Hin). lia.
Qed.

Lemma esize_erase_skipped (e : expr) : esize (erase_skipped e) = esize e.
Proof.
  induction e using expr_rect_nested; cbn [erase_skipped esize];
    try reflexivity.
  - f_equal. rewrite map_map. now apply list_sum_map_ext.
  - now rewrite IHe1, IHe2.
  - now rewrite IHe1, IHe2, IHe3.
  - now rewrite IHe.
  - now rewrite IHe1, IHe2.
  - rewrite IHe1, IHe2.
    destruct ty as [t |]; cbn in *; [now rewrite H | reflexivity].
  - f_equal. rewrite map_map. apply list_sum_map_ext.
    eapply Forall_impl; [| exact H].
    intros [s0 n0 | s0 v] Hx; cbn in *; [reflexivity | now rewrite Hx].
Qed.

Lemma tree_eqb_esize (x y : expr) :
  tree_eqb x y = true -> esize x = esize y.
Proof.
  intros H. apply tree_eqb_tree_eq in H. unfold tree_eq in H.
  now rewrite <- (esize_erase_skipped x), <- (esize_erase_skipped y), H.
Qed.

Lemma esize_pos (e : expr) : 1 <= esize e.
Proof. destruct e; cbn; lia. Qed.

Lemma no_cached_types_cell (h : store) (p : ptr) (c : expr_cell) :
  no_cached_types h = true -> nth_error h p = Some c -> no_type (m_node c) = true.
Proof.
  unfold no_cached_types. rewrite forallb_forall. intros H Hp.
  apply H. apply in_map. eapply nth_error_In; eassumption.
Qed.

(** A child is smaller than its parent. *)
Lemma child_smaller (h : store) (a c : ptr) (ca : expr_cell) :
  wf_store h = true ->
  no_cached_types h = true ->
  nth_error h a = Some ca ->
  In c (node_children (m_node ca)) ->
  esize (denote h c) < esize (denote h a).
Proof.
  intros Hwf Hnc Ha Hc.
  destruct (@denote_cell h a ca Hwf Ha) as [_ Hd]. rewrite Hd.
  pose proof (no_cached_types_cell h a Hnc Ha) as Hnt.
  unfold denote. set (ts := trees h) in *.
  destruct (m_node ca) as [i | n ty | v | l | args | l r | f s t | b x
                          | k n d b | n ty v b | n lctx];
    cbn [node_children build esize] in *.
  - destruct Hc.
  - destruct ty; [discriminate | destruct Hc].
  - destruct Hc.
  - destruct Hc.
  - rewrite map_map.
    pose proof (list_sum_map_In (fun p => esize (tree_of ts p)) args c Hc).
    cbn beta in H. lia.
  - destruct Hc as [<- | [<- | []]]; lia.
  - destruct Hc as [<- | [<- | [<- | []]]]; lia.
  - destruct Hc as [<- | []]; lia.
  - destruct Hc as [<- | [<- | []]]; lia.
  - destruct ty as [t |]; cbn [opt_children app option_map] in *.
    + destruct Hc as [<- | [<- | [<- | []]]]; lia.
    + destruct Hc as [<- | [<- | []]]; lia.
  - rewrite map_map. apply in_flat_map in Hc as (le & Hle & Hcle).
    destruct le as [s0 n0 | s0 v]; cbn in Hcle; [destruct Hcle |].
    destruct Hcle as [<- | []].
    pose proof (list_sum_map_In
      (fun x => match entry_map (tree_of ts) x with
                | InstEntry _ v0 => S (esize v0)
                | LiftEntry _ _ => 1
                end) lctx (InstEntry s0 v) Hle) as H.
    cbn in H. lia.
Qed.

(** On the cells of the cache the comparison of the cache is the equality
    of the trees. *)
Lemma cache_eq_aeq (st : max_sharing_fn.imp) (c a : ptr) :
  inv st ->
  In c (snd st) ->
  a < length (fst st) ->
  max_sharing_fn.cache_eq (fst st) c a = aeq (fst st) c a.
Proof.
  intros (Hwf & Hhash & Hcache) Hin Ha.
  destruct (Hcache c Hin) as (cc & Hc & _).
  assert (Hcl : c < length (fst st)) by (apply nth_error_Some; congruence).
  destruct (nth_error (fst st) a) as [ca |] eqn:Eca;
    [| apply nth_error_None in Eca; lia].
  unfold max_sharing_fn.cache_eq. rewrite Hc, Eca.
  destruct (@apply_answers true (fst st) Hwf Hhash (S c) c a [])
    as (V' & E & _); try lia.
  { intros x y []. }
  unfold expr_eq_fn.expr_eq. rewrite E.
  destruct (aeq (fst st) c a) eqn:Eaeq; [| apply andb_false_r].
  rewrite (Hhash c a cc ca Hc Eca Eaeq), N.eqb_refl. reflexivity.
Qed.

Lemma find_all_false {A : Type} (f : A -> bool) (l : list A) :
  (forall x, In x l -> f x = false) -> find f l = None.
Proof.
  induction l as [| y l IH]; intros H; [reflexivity |].
  cbn. rewrite (H y (or_introl eq_refl)). apply IH.
  intros x Hx. apply H. now right.
Qed.

Lemma cache_find_none (st : max_sharing_fn.imp) (a : ptr) :
  inv st ->
  a < length (fst st) ->
  (max_sharing_fn.cache_find st a = None
   <-> forall c, In c (snd st) -> aeq (fst st) c a = false).
Proof.
  intros Hinv Ha. unfold max_sharing_fn.cache_find. split.
  - intros Hnone c Hc. rewrite <- (@cache_eq_aeq st c a Hinv Hc Ha).
    exact (find_none _ _ Hnone c Hc).
  - intros H. apply find_all_false. intros c Hc.
    rewrite (@cache_eq_aeq st c a Hinv Hc Ha). now apply H.
Qed.

Lemma aeq_sym (h : store) (x y : ptr) : aeq h x y = true -> aeq h y x = true.
Proof. unfold aeq. apply tree_eqb_sym. Qed.

Lemma aeq_trans (h : store) (x y z : ptr) :
  aeq h x y = true -> aeq h y z = true -> aeq h x z = true.
Proof. unfold aeq. apply tree_eqb_trans. Qed.

Lemma aeq_extends (h h' : store) (x y : ptr) :
  extends h h' -> x < length h -> y < length h -> aeq h' x y = aeq h x y.
Proof.
  intros Hext Hx Hy. unfold aeq.
  now rewrite (@extends_denote h h' x Hext Hx), (@extends_denote h h' y Hext Hy).
Qed.

Lemma cache_lt (st : max_sharing_fn.imp) (c : ptr) :
  inv st -> In c (snd st) -> c < length (fst st).
Proof.
  intros (_ & _ & Hcache) Hin. destruct (Hcache c Hin) as (cc & Hc & _).
  apply nth_error_Some. congruence.
Qed.

Lemma no_cached_types_skel (h h' : store) :
  skel h = skel h' -> no_cached_types h = no_cached_types h'.
Proof. intros E. unfold no_cached_types. now rewrite (@skel_nodes h h' E). Qed.

Lemma no_type_with_children (n : node) (cs : list ptr) :
  no_type n = true -> no_type (with_children n cs) = true.
Proof.
  destruct n as [i | nm ty | v | l | args | l r | f s t | b x
                | k nm d b | nm ty v b | nm lctx]; cbn; intros H;
    try reflexivity;
    repeat (match goal with
            | o : option ptr |- _ => destruct o; cbn in *
            | l : list ptr |- _ => destruct l; cbn in *
            end; try reflexivity; try discriminate).
Qed.

(** The cache after [cache(res)] on a cell that no cell of the cache is
    equal to. *)
Lemma cache_adds (h : store) (cache : list ptr) (res : ptr) (cr : expr_cell) :
  inv (h, cache) ->
  nth_error h res = Some cr ->
  (forall c, In c cache -> aeq h c res = false) ->
  max_sharing_fn.cache (h, cache) res = (set_max_shared h res, res :: cache).
Proof.
  intros Hinv Hr Hnone. unfold max_sharing_fn.cache. cbn [fst snd].
  unfold max_sharing_fn.cache_insert.
  set (h' := set_max_shared h res).
  assert (Hext : extends h h') by apply extends_set_max_shared.
  assert (Hskel : skel h = skel h') by (symmetry; apply skel_set_max_shared).
  assert (Hinv' : inv (h', cache)).
  { apply (@inv_extends h h' cache Hinv Hext).
    - rewrite <- (@wf_store_skel h h' Hskel). apply Hinv.
    - apply (@hash_okP_skel h h' Hskel). apply Hinv. }
  assert (Hrl : res < length h) by (apply nth_error_Some; congruence).
  assert (Hlen : length h <= length h') by now apply (@extends_length h h').
  replace (max_sharing_fn.cache_find (h', cache) res) with (@None ptr);
    [reflexivity |].
  symmetry. apply (@cache_find_none (h', cache) res Hinv'); cbn [fst snd]; [lia |].
  intros c Hc. rewrite (@aeq_extends h h' c res Hext); [now apply Hnone | | assumption].
  now apply (@cache_lt (h, cache) c).
Qed.

Lemma canon_step_refl (bound : nat) (st : max_sharing_fn.imp) :
  canonical st -> no_cached_types (fst st) = true -> canon_step bound st st.
Proof.
  intros Hc Hn. repeat split; try assumption.
  - intros c Hin. exact Hin.
  - intros c Hin. now left.
Qed.

Lemma canon_step_le (b b' : nat) (st st' : max_sharing_fn.imp) :
  b <= b' -> canon_step b st st' -> canon_step b' st st'.
Proof.
  intros Hle (H1 & H2 & H3 & H4). repeat split; try assumption.
  intros c Hc. destruct (H4 c Hc) as [Hold | Hnew]; [now left | right; lia].
Qed.

Lemma canon_step_trans (b : nat) (st st1 st2 : max_sharing_fn.imp) :
  inv st1 ->
  extends (fst st1) (fst st2) ->
  canon_step b st st1 -> canon_step b st1 st2 -> canon_step b st st2.
Proof.
  intros Hinv1 Hext (_ & _ & Hi1 & Hs1) (Hc2 & Hn2 & Hi2 & Hs2).
  repeat split; try assumption.
  - intros c Hc. apply Hi2, Hi1, Hc.
  - intros c Hc. destruct (Hs2 c Hc) as [Hold | Hnew]; [| now right].
    destruct (Hs1 c Hold) as [Hold0 | Hnew1]; [now left | right].
    rewrite (@extends_denote (fst st1) (fst st2) c Hext); [assumption |].
    now apply (@cache_lt st1 c).
Qed.

Lemma canon_step_extends (b : nat) (st : max_sharing_fn.imp) (h1 h2 : store)
    (cache1 : list ptr) :
  inv (h1, cache1) ->
  extends h1 h2 ->
  no_cached_types h2 = true ->
  canon_step b st (h1, cache1) -> canon_step b st (h2, cache1).
Proof.
  intros Hinv1 Hext Hn2 (Hc1 & _ & Hi1 & Hs1). cbn [fst snd] in *.
  assert (Hlt : forall c, In c cache1 -> c < length h1)
    by (intros c Hc; now apply (@cache_lt (h1, cache1) c)).
  repeat split; try assumption.
  - intros c1 c2 Hin1 Hin2. cbn [fst snd] in *.
    rewrite (@aeq_extends h1 h2 c1 c2 Hext) by (now apply Hlt).
    now apply Hc1.
  - intros c Hc. cbn [fst snd] in *.
    destruct (Hs1 c Hc) as [Hold | Hnew]; [now left | right].
    now rewrite (@extends_denote h1 h2 c Hext) by (now apply Hlt).
Qed.

(** Setting the flag of the result and caching it, when the cache has
    grown by smaller cells only. *)
Lemma cache_canon (h0 : store) (cache0 : list ptr) (a : ptr) (h2 : store)
    (cache1 : list ptr) (res : ptr) (cr : expr_cell) (bound : nat) :
  inv (h0, cache0) ->
  a < length h0 ->
  max_sharing_fn.cache_find (h0, cache0) a = None ->
  extends h0 h2 ->
  inv (h2, cache1) ->
  canon_step bound (h0, cache0) (h2, cache1) ->
  bound < esize (denote h0 a) ->
  nth_error h2 res = Some cr ->
  tree_eqb (denote h2 res) (denote h0 a) = true ->
  max_sharing_fn.cache (h2, cache1) res
  = (set_max_shared h2 res, res :: cache1)
  /\ canon_step (esize (denote h0 a)) (h0, cache0)
       (set_max_shared h2 res, res :: cache1).
Proof.
  intros Hinv0 Ha Hfind Hext Hinv2 (Hc2 & Hn2 & Hi2 & Hs2) Hb Hres Heq.
  cbn [fst snd] in *.
  assert (Hlt2 : forall c, In c cache1 -> c < length h2)
    by (intros c Hc; now apply (@cache_lt (h2, cache1) c)).
  assert (Hlen : length h0 <= length h2) by now apply (@extends_length h0 h2).
  assert (Hresl : res < length h2) by (apply nth_error_Some; congruence).
  assert (Hnone : forall c, In c cache1 -> aeq h2 c res = false).
  { intros c Hc. destruct (aeq h2 c res) eqn:E; [exfalso | reflexivity].
    destruct (Hs2 c Hc) as [Hold | Hnew].
    - pose proof (proj1 (@cache_find_none (h0, cache0) a Hinv0 Ha) Hfind c Hold)
        as Hne. cbn [fst] in Hne.
      assert (Hcl : c < length h0) by now apply (@cache_lt (h0, cache0) c).
      unfold aeq in *.
      rewrite (@extends_denote h0 h2 c Hext Hcl) in E.
      rewrite (tree_eqb_trans _ _ _ E Heq) in Hne. discriminate.
    - unfold aeq in E. apply tree_eqb_esize in E.
      apply tree_eqb_esize in Heq. lia. }
  split; [now apply (@cache_adds h2 cache1 res cr) |].
  set (h3 := set_max_shared h2 res).
  assert (Hext3 : extends h2 h3) by apply extends_set_max_shared.
  assert (Hskel : skel h3 = skel h2) by apply skel_set_max_shared.
  assert (Hd : forall c, c < length h2 -> denote h3 c = denote h2 c)
    by (intros c Hc; now apply extends_denote).
  repeat split; cbn [fst snd].
  - intros c1 c2 Hin1 Hin2. cbn [fst snd] in *.
    assert (H1 : c1 < length h2) by (destruct Hin1 as [<- | ?]; auto).
    assert (H2 : c2 < length h2) by (destruct Hin2 as [<- | ?]; auto).
    rewrite (@aeq_extends h2 h3 c1 c2 Hext3 H1 H2). intros E.
    destruct Hin1 as [<- | Hin1], Hin2 as [<- | Hin2].
    + reflexivity.
    + apply aeq_sym in E. rewrite (Hnone c2 Hin2) in E. discriminate.
    + rewrite (Hnone c1 Hin1) in E. discriminate.
    + now apply Hc2.
  - now rewrite (@no_cached_types_skel h3 h2 Hskel).
  - intros c Hc. right. now apply Hi2.
  - intros c [<- | Hc].
    + right. rewrite (Hd res Hresl). apply tree_eqb_esize in Heq. lia.
    + destruct (Hs2 c Hc) as [Hold | Hnew]; [now left | right].
      rewrite (Hd c (Hlt2 c Hc)). lia.
Qed.

Lemma apply_list_canon
    (ap : ptr -> max_sharing_fn.imp -> option (ptr * max_sharing_fn.imp))
    (A : nat) :
  (forall c st, c < A -> c < length (fst st) -> inv st -> shares c st (ap c st)) ->
  (forall c st, c < A -> c < length (fst st) -> inv st -> canonical st ->
                no_cached_types (fst st) = true -> canon_result c st (ap c st)) ->
  forall cs st bound,
    (forall c, In c cs -> c < A /\ c < length (fst st)
                          /\ esize (denote (fst st) c) <= bound) ->
    inv st -> canonical st -> no_cached_types (fst st) = true ->
    exists cs' st',
      max_sharing_fn.apply_list ap cs st = Some (cs', st')
      /\ canon_step bound st st'.
Proof.
  intros Hshares Hcanon. induction cs as [| c cs IH]; intros st bound Hcs Hinv Hc Hn.
  - exists [], st. split; [reflexivity | now apply canon_step_refl].
  - destruct (Hcs c (or_introl eq_refl)) as (HcA & Hcl & Hcb).
    destruct (Hshares c st HcA Hcl Hinv)
      as (c' & st1 & E1 & Hinv1 & Hext1 & _ & _).
    destruct (Hcanon c st HcA Hcl Hinv Hc Hn)
      as (c'' & st1' & E1' & _ & Hstep1).
    rewrite E1 in E1'. injection E1' as <- <-.
    assert (Hlen1 := @extends_length (fst st) (fst st1) Hext1).
    assert (Hcs1 : forall q, In q cs -> q < A /\ q < length (fst st1)
                                        /\ esize (denote (fst st1) q) <= bound).
    { intros q Hq. destruct (Hcs q (or_intror Hq)) as (H1 & H2 & H3).
      split; [assumption |]. split; [lia |].
      now rewrite (@extends_denote (fst st) (fst st1) q Hext1 H2). }
    destruct (IH st1 bound Hcs1 Hinv1 (proj1 Hstep1) (proj1 (proj2 Hstep1)))
      as (cs' & st2 & E2 & Hstep2).
    destruct (@apply_list_ok ap A Hshares cs st1) as (cs'' & st2' & E2' & _ & Hext2 & _);
      [intros q Hq; destruct (Hcs1 q Hq) as (? & ? & _); now split | assumption |].
    rewrite E2 in E2'. injection E2' as <- <-.
    exists (c' :: cs'), st2. cbn [max_sharing_fn.apply_list].
    rewrite E1, E2. split; [reflexivity |].
    apply (@canon_step_trans bound st st1 st2 Hinv1 Hext2);
      [| assumption].
    now apply (@canon_step_le (esize (denote (fst st) c)) bound).
Qed.

Lemma apply_canon (fuel : nat) :
  forall a st,
    a < fuel -> a < length (fst st) -> inv st -> canonical st ->
    no_cached_types (fst st) = true ->
    canon_result a st (max_sharing_fn.apply fuel a st).
Proof.
  induction fuel as [| fuel IH]; intros a st Hf Ha Hinv Hcan Hnc; [lia |].
  cbn [max_sharing_fn.apply].
  destruct (max_sharing_fn.cache_find st a) as [r |] eqn:Efind.
  { destruct (cache_find_sound Hinv Ha Efind) as [Hin _].
    exists r, st. split; [reflexivity |]. split; [assumption |].
    now apply canon_step_refl. }
  destruct (nth_error (fst st) a) as [ca |] eqn:Eca;
    [| apply nth_error_None in Eca; lia].
  pose proof (proj1 (@cache_find_none st a Hinv Ha) Efind) as Hnone.
  destruct (m_max_shared ca) eqn:Eflag.
  { exists a, (max_sharing_fn.cache_insert st a).
    unfold max_sharing_fn.cache_insert. rewrite Efind. cbn [fst snd].
    split; [reflexivity |]. split; [now left |].
    repeat split; cbn [fst snd]; try assumption.
    - intros c1 c2 [<- | Hin1] [<- | Hin2] E; cbn [fst snd] in *.
      + reflexivity.
      + apply aeq_sym in E. rewrite (Hnone c2 Hin2) in E. discriminate.
      + rewrite (Hnone c1 Hin1) in E. discriminate.
      + now apply Hcan.
    - intros c Hc. now right.
    - intros c [<- | Hc]; [right; lia | now left]. }
  destruct st as [h0 cache0]. cbn [fst snd] in *.
  assert (Hwf : wf_store h0 = true) by apply Hinv.
  destruct (@denote_cell h0 a ca Hwf Eca) as [Hcha _].
  assert (Hshares : forall c st0, c < a -> c < length (fst st0) -> inv st0 ->
                      shares c st0 (max_sharing_fn.apply fuel c st0)).
  { intros c st0 Hc Hcl Hinv0. apply apply_ok; [lia | assumption | assumption]. }
  set (bound := pred (esize (denote h0 a))).
  assert (Hpos := esize_pos (denote h0 a)).
  destruct (@apply_list_ok (max_sharing_fn.apply fuel) a Hshares
              (node_children (m_node ca)) (h0, cache0))
    as (cs' & st1 & E1 & Hinv1 & Hext1 & Hall);
    [intros c Hc; specialize (Hcha c Hc); cbn [fst]; split; lia | assumption |].
  destruct (@apply_list_canon (max_sharing_fn.apply fuel) a Hshares) with
    (cs := node_children (m_node ca)) (st := (h0, cache0)) (bound := bound)
    as (cs'' & st1' & E1' & Hstep1); try assumption.
  { intros c st0 Hc Hcl Hinv0 Hcan0 Hnc0. apply IH; try assumption. lia. }
  { intros c Hc. pose proof (Hcha c Hc). cbn [fst].
    split; [assumption |]. split; [lia |].
    pose proof (@child_smaller h0 a c ca Hwf Hnc Eca Hc). subst bound. lia. }
  rewrite E1 in E1'. injection E1' as <- <-.
  rewrite E1. clear E1.
  destruct st1 as [h1 cache1]. cbn [fst snd] in *.
  assert (Hlen1 := @extends_length h0 h1 Hext1).
  destruct (@extends_cell h0 h1 a ca Hext1 Eca) as (ca1 & Eca1 & _ & _).
  unfold max_sharing_fn.update. cbn [fst snd].
  destruct (forall2b Nat.eqb cs' (node_children (m_node ca))) eqn:Esame.
  - destruct (@cache_canon h0 cache0 a h1 cache1 a ca1 bound)
      as [Ecache Hstep]; try assumption.
    { subst bound. lia. }
    { rewrite (@extends_denote h0 h1 a Hext1 Ha). apply tree_eqb_refl. }
    exists a, (set_max_shared h1 a, a :: cache1).
    rewrite Ecache. split; [reflexivity |]. split; [now left | assumption].
  - destruct (@alloc_ok h0 h1 a ca cs' Hwf Eca Hext1
                (proj1 Hinv1) (proj1 (proj2 Hinv1)) Hall)
      as (Hwf' & Hhash' & Hnew & Hal).
    set (cnew := {| m_node := with_children (m_node ca) cs';
                    m_hash := m_hash ca; m_rc := 1;
                    m_max_shared := false |}) in *.
    set (h' := h1 ++ [cnew]) in *.
    assert (Hext' : extends h1 h') by apply extends_app.
    assert (Hinv' : inv (h', cache1))
      by (apply (@inv_extends h1 h' cache1 Hinv1 Hext' Hwf' Hhash')).
    assert (Hnc' : no_cached_types h' = true).
    { unfold no_cached_types, h'. rewrite map_app, forallb_app.
      apply andb_true_iff. split; [apply Hstep1 |].
      cbn. rewrite andb_true_r. apply no_type_with_children.
      now apply (@no_cached_types_cell h0 a ca). }
    destruct (@cache_canon h0 cache0 a h' cache1 (length h1) cnew bound)
      as [Ecache Hstep]; try assumption.
    { eapply extends_trans; eassumption. }
    { now apply (@canon_step_extends bound (h0, cache0) h1 h' cache1). }
    { subst bound. lia. }
    exists (length h1), (set_max_shared h' (length h1), length h1 :: cache1).
    rewrite Ecache. split; [reflexivity |]. split; [now left | assumption].
Qed.

(** X12: one [max_sharing_fn] object, applied to two expressions that are
    equal for the program, returns one and the same cell; the second call
    is answered from the cache and leaves the state as it is.  The store
    holds no constant with a cached type. *)
Theorem max_sharing_fn_same_cell (h : store) (a b : ptr) :
  wf_store h = true ->
  hash_ok h = true ->
  no_cached_types h = true ->
  a < length h ->
  b < length h ->
  tree_eq (denote h a) (denote h b) ->
  exists r st,
    max_sharing_fn.apply (S a) a (h, []) = Some (r, st)
    /\ max_sharing_fn.apply (S b) b st = Some (r, st).
Proof.
  intros Hwf Hhash Hnc Ha Hb Heq.
  assert (Hinv : inv (h, [])).
  { split; [assumption |]. split; [now apply hash_ok_spec |]. intros c []. }
  assert (Hcan : canonical (h, [])) by (intros c1 c2 []).
  destruct (@apply_ok (S a) a (h, []))
    as (r & st & E & Hinv1 & Hext & _ & Hal); cbn [fst]; try lia;
    [assumption |].
  destruct (@apply_canon (S a) a (h, []))
    as (r' & st' & E' & Hin & Hcan1 & _); cbn [fst]; try lia; try assumption.
  rewrite E in E'. injection E' as <- <-.
  exists r, st. split; [exact E |].
  assert (Hlen := @extends_length h (fst st) Hext). cbn [fst] in *.
  assert (Hbl : b < length (fst st)) by lia.
  assert (Hrb : aeq (fst st) r b = true).
  { unfold aeq. rewrite (@extends_denote h (fst st) b Hext Hb).
    eapply tree_eqb_trans; [exact Hal |]. now apply tree_eqb_tree_eq. }
  cbn [max_sharing_fn.apply].
  destruct (max_sharing_fn.cache_find st b) as [c |] eqn:Efind.
  - destruct (cache_find_sound Hinv1 Hbl Efind) as [Hc Hcb].
    f_equal. f_equal. apply Hcan1; try assumption.
    apply (@aeq_trans (fst st) c b r); [exact Hcb | now apply aeq_sym].
  - pose proof (proj1 (@cache_find_none st b Hinv1 Hbl) Efind r Hin) as Hne.
    congruence.
Qed.

(** Witness of X12: the cells 5 and 6 of [example_store] differ in binder
    names only. *)
Lemma max_sharing_fn_same_cell_witness :
  exists r st,
    max_sharing_fn.apply 6 5 (example_store, []) = Some (r, st)
    /\ max_sharing_fn.apply 7 6 st = Some (r, st).
Proof.
  apply max_sharing_fn_same_cell.
  - vm_compute. reflexivity.
  - vm_compute. reflexivity.
  - vm_compute. reflexivity.
  - cbn. lia.
  - cbn. lia.
  - vm_compute. reflexivity.
Defined.
